(** * BadgerDB B+Tree index over integer keys (PP3/src/btree.cpp)

    A shallow embedding of the insertion and range-scan engine of
    [BTreeIndex], followed by the properties of the design document that
    were checked against it.

    Conventions of the embedding.
    - [int] keys are [Z]; the code only compares and copies them.
    - Array indices, lengths, [PageId] and [SlotId] are [nat]; the sentinel
      [-1] of [findArrayIndex] is [None].
    - A fixed-size C array is a [list]; [a !!! i] reads slot [i] and
      [<[i:=x]> a] writes it.  Reading or writing outside the array is
      undefined behaviour in C++; here such a read gives the zero value and
      such a write does nothing; the theorems on the two splits state
      that the indices they use lie inside the arrays.
    - Member functions are computations in a state-and-exception monad. *)

From Stdlib Require Import ZArith Lia Bool.
From Stdlib.Strings Require Import Byte.
From stdpp Require Import gmap list strings pretty.
From Stdlib.Strings Require Import Ascii.
From stdpp Require Import sorting.

(** ** Storage-engine types *)

Abbreviation PageId := nat (only parsing).
Abbreviation SlotId := nat (only parsing).

Record RecordId := mkRecordId { page_number : PageId; slot_number : SlotId }.

#[global] Instance RecordId_eq_dec : EqDecision RecordId.
Proof. solve_decision. Defined.

(** [RecordId{}]: the all-zero value marks an unoccupied slot. *)
Definition emptyRid : RecordId := mkRecordId 0 0.

#[global] Instance RecordId_inhabited : Inhabited RecordId := populate emptyRid.

Inductive Datatype := INTEGER | DOUBLE | STRING.

Inductive Operator := LT | LTE | GTE | GT.

#[global] Instance Datatype_eq_dec : EqDecision Datatype.
Proof. solve_decision. Defined.

#[global] Instance Operator_eq_dec : EqDecision Operator.
Proof. solve_decision. Defined.

(** Modelled from the spec: [btree.h] is not among the sources, so the two
    capacities it defines are parameters.  The design document calls them
    configuration constants "chosen so that each node fits in one page" and
    runs its scenarios with both equal to 4. *)
Class NodeCapacity := {
  INTARRAYLEAFSIZE : nat;
  INTARRAYNONLEAFSIZE : nat
}.

(** Modelled from the spec: the node layouts of [btree.h] (design document,
    section 3).  A leaf has parallel arrays of [INTARRAYLEAFSIZE] keys and
    record ids and the page number of its right sibling; a non-leaf has
    [INTARRAYNONLEAFSIZE] keys and one more child page number. *)
Module Leaf.
Record LeafNodeInt := mk {
  keyArray : list Z;
  ridArray : list RecordId;
  rightSibPageNo : PageId
}.
End Leaf.

Module NonLeaf.
Record NonLeafNodeInt := mk {
  keyArray : list Z;
  pageNoArray : list PageId
}.
End NonLeaf.

Abbreviation LeafNodeInt := Leaf.LeafNodeInt.
Abbreviation NonLeafNodeInt := NonLeaf.NonLeafNodeInt.

#[global] Instance LeafNodeInt_eq_dec : EqDecision LeafNodeInt.
Proof. solve_decision. Defined.

#[global] Instance NonLeafNodeInt_eq_dec : EqDecision NonLeafNodeInt.
Proof. solve_decision. Defined.

(** Modelled from the spec: a page is a fixed-size buffer whose first four
    bytes are a discriminant, -1 for a leaf and anything else for a non-leaf.
    The constructor of [Page] is that discriminant together with the node
    image behind it.  [BlankPage] is the zero-filled image: its discriminant
    is 0, and read through either node type all of its fields are zero. *)
Inductive Page :=
| BlankPage
| LeafPage (node : LeafNodeInt)
| NonLeafPage (node : NonLeafNodeInt).

#[global] Instance Page_eq_dec : EqDecision Page.
Proof. solve_decision. Defined.

(** ** Generic helpers *)

(** [memcpy(dst, &src[from], count * sizeof *src)] on arrays. *)
Definition memcpy {A} (dst src : list A) (from count : nat) : list A :=
  take count (drop from src) ++ drop count dst.

(** [memset(&a[from], 0, count * sizeof *a)] on arrays. *)
Definition memset {A} (zero : A) (a : list A) (from count : nat) : list A :=
  take from a ++ replicate count zero ++ drop (from + count) a.

Definition isLeaf (page : Page) : bool :=
  match page with
  | LeafPage _ => true
  | _ => false
  end.

(** The casts [(LeafNodeInt * ) page] and [(NonLeafNodeInt * ) page].  The
    zero-filled page reads as the zero node of either type.  Reading the
    bytes of one node type through the other depends on the layout of
    [btree.h], which is not modelled: the cast answers [None]. *)
Section Nodes.
Context {cap : NodeCapacity}.

(** [new LeafNodeInt()] and [LeafNodeInt node{}]. *)
Definition newLeafNodeInt : LeafNodeInt :=
  Leaf.mk (replicate INTARRAYLEAFSIZE 0%Z)
          (replicate INTARRAYLEAFSIZE emptyRid) 0.

(** [new NonLeafNodeInt()]. *)
Definition newNonLeafNodeInt : NonLeafNodeInt :=
  NonLeaf.mk (replicate INTARRAYNONLEAFSIZE 0%Z)
             (replicate (S INTARRAYNONLEAFSIZE) 0).

Definition getLeafNodeFromPage (page : Page) : option LeafNodeInt :=
  match page with
  | LeafPage node => Some node
  | BlankPage => Some newLeafNodeInt
  | NonLeafPage _ => None
  end.

Definition getNonLeafNodeFromPage (page : Page) : option NonLeafNodeInt :=
  match page with
  | NonLeafPage node => Some node
  | BlankPage => Some newNonLeafNodeInt
  | LeafPage _ => None
  end.

Definition isNonLeafNodeFull (node : NonLeafNodeInt) : bool :=
  bool_decide (NonLeaf.pageNoArray node !!! INTARRAYNONLEAFSIZE ≠ 0).

Definition isLeafNodeFull (node : LeafNodeInt) : bool :=
  bool_decide (Leaf.ridArray node !!! (INTARRAYLEAFSIZE - 1) ≠ emptyRid).

(** The loop of [findArrayIndex]: [n] iterations are left and [i] is the
    loop counter. *)
Fixpoint findArrayIndex_loop (arr : list Z) (key : Z)
    (includeCurrentKey : bool) (n i : nat) : option nat :=
  match n with
  | 0 => None
  | S n' =>
      if (if includeCurrentKey
          then (arr !!! i >=? key)%Z
          else (arr !!! i >? key)%Z)
      then Some i
      else findArrayIndex_loop arr key includeCurrentKey n' (S i)
  end.

Definition findArrayIndex (arr : list Z) (len : nat) (key : Z)
    (includeCurrentKey : bool) : option nat :=
  findArrayIndex_loop arr key includeCurrentKey len 0.

Fixpoint getLeafLen_loop (rids : list RecordId) (n i : nat) : nat :=
  match n with
  | 0 => i
  | S n' =>
      if decide (rids !!! i = emptyRid) then i
      else getLeafLen_loop rids n' (S i)
  end.

Definition getLeafLen (node : LeafNodeInt) : nat :=
  getLeafLen_loop (Leaf.ridArray node) INTARRAYLEAFSIZE 0.

Fixpoint getNonLeafLen_loop (pages : list PageId) (n i : nat) : nat :=
  match n with
  | 0 => i
  | S n' =>
      if decide (pages !!! i = 0) then i
      else getNonLeafLen_loop pages n' (S i)
  end.

Definition getNonLeafLen (node : NonLeafNodeInt) : nat :=
  getNonLeafLen_loop (NonLeaf.pageNoArray node) INTARRAYNONLEAFSIZE 1.

(** return the largest index if not found *)
Definition findIndexNonLeaf (node : NonLeafNodeInt) (key : Z) : nat :=
  let len := getNonLeafLen node in
  match findArrayIndex (NonLeaf.keyArray node) (len - 1) key true with
  | None => len - 1
  | Some result => result
  end.

(** return next insertion index if not found *)
Definition findInsertionIndexLeaf (node : LeafNodeInt) (key : Z) : nat :=
  let len := getLeafLen node in
  match findArrayIndex (Leaf.keyArray node) len key true with
  | None => len
  | Some result => result
  end.

(** return [None] (the source's -1) if not found *)
Definition findScanIndexLeaf (node : LeafNodeInt) (key : Z)
    (includeCurrentKey : bool) : option nat :=
  findArrayIndex (Leaf.keyArray node) (getLeafLen node) key includeCurrentKey.

(** [splitNonLeafNode] mutates [node] and returns a new node: the result
    is the pair (node after the call, new node). *)
Definition splitNonLeafNode (node : NonLeafNodeInt) (index : nat)
    (moveKeyUp : bool) : NonLeafNodeInt * NonLeafNodeInt :=
  let newNode := newNonLeafNodeInt in
  let rightsize := INTARRAYNONLEAFSIZE - index in
  let keys := NonLeaf.keyArray node in
  let pages := NonLeaf.pageNoArray node in
  let newKeys :=
    if moveKeyUp
    then memcpy (NonLeaf.keyArray newNode) keys index rightsize
    else memcpy (NonLeaf.keyArray newNode) keys (index + 1) (rightsize - 1) in
  let keys' := memset 0%Z keys index rightsize in
  let newPages :=
    memcpy (NonLeaf.pageNoArray newNode) pages (index + 1) rightsize in
  let pages' := memset 0 pages (index + 1) rightsize in
  (NonLeaf.mk keys' pages', NonLeaf.mk newKeys newPages).

(** [splitLeafNode], likewise (node after the call, new node). *)
Definition splitLeafNode (node : LeafNodeInt) (index : nat)
    : LeafNodeInt * LeafNodeInt :=
  let newNode := newLeafNodeInt in
  let rightsize := INTARRAYLEAFSIZE - index in
  let keys := Leaf.keyArray node in
  let rids := Leaf.ridArray node in
  (Leaf.mk (memset 0%Z keys index rightsize)
           (memset emptyRid rids index rightsize)
           (Leaf.rightSibPageNo node),
   Leaf.mk (memcpy (Leaf.keyArray newNode) keys index rightsize)
           (memcpy (Leaf.ridArray newNode) rids index rightsize)
           (Leaf.rightSibPageNo newNode)).

(** The shifting loop of [insertToNonLeafNode],
    [for (i = N - 1; i > index; i--)], entered with counter [i]. *)
Fixpoint insertToNonLeafNode_loop (i index : nat) (node : NonLeafNodeInt)
    : NonLeafNodeInt :=
  match i with
  | 0 => node
  | S i' =>
      if decide (index < i) then
        let keys := NonLeaf.keyArray node in
        let pages := NonLeaf.pageNoArray node in
        insertToNonLeafNode_loop i' index
          (NonLeaf.mk (<[i := keys !!! i']> keys)
                      (<[S i := pages !!! i]> pages))
      else node
  end.

Definition insertToNonLeafNode (node : NonLeafNodeInt) (index : nat)
    (key : Z) (pageID : PageId) : NonLeafNodeInt :=
  let node := insertToNonLeafNode_loop (INTARRAYNONLEAFSIZE - 1) index node in
  NonLeaf.mk (<[index := key]> (NonLeaf.keyArray node))
             (<[S index := pageID]> (NonLeaf.pageNoArray node)).

(** The shifting loop of [insertToLeafNode]. *)
Fixpoint insertToLeafNode_loop (i index : nat) (node : LeafNodeInt)
    : LeafNodeInt :=
  match i with
  | 0 => node
  | S i' =>
      if decide (index < i) then
        let keys := Leaf.keyArray node in
        let rids := Leaf.ridArray node in
        insertToLeafNode_loop i' index
          (Leaf.mk (<[i := keys !!! i']> keys)
                   (<[i := rids !!! i']> rids)
                   (Leaf.rightSibPageNo node))
      else node
  end.

Definition insertToLeafNode (node : LeafNodeInt) (index : nat)
    (key : Z) (rid : RecordId) : LeafNodeInt :=
  let node := insertToLeafNode_loop (INTARRAYLEAFSIZE - 1) index node in
  Leaf.mk (<[index := key]> (Leaf.keyArray node))
          (<[index := rid]> (Leaf.ridArray node))
          (Leaf.rightSibPageNo node).

End Nodes.

(** ** Exceptions and the monad of member functions *)

Inductive Exception :=
| BadOpcodesException
| BadScanrangeException
| ScanNotInitializedException
| IndexScanCompletedException
| BufMgrException.

#[global] Instance Exception_eq_dec : EqDecision Exception.
Proof. solve_decision. Defined.

(** How a call ends: it returns, it throws, it runs into behaviour that C++
    leaves undefined (or that depends on the absent [btree.h]), or the
    recursion budget of the model is used up. *)
Inductive Outcome (A : Type) :=
| Ok (a : A)
| Throw (e : Exception)
| Undefined
| OutOfFuel.

Arguments Ok {A} a.
Arguments Throw {A} e.
Arguments Undefined {A}.
Arguments OutOfFuel {A}.

(** A computation over state [S]: the state at the point of a throw is kept,
    as member assignments made before a C++ exception are. *)
Definition M (S A : Type) : Type := S → Outcome A * S.

Definition ret {S A} (a : A) : M S A := λ s, (Ok a, s).

Definition bind {S A B} (m : M S A) (k : A → M S B) : M S B :=
  λ s, match m s with
       | (Ok a, s') => k a s'
       | (Throw e, s') => (Throw e, s')
       | (Undefined, s') => (Undefined, s')
       | (OutOfFuel, s') => (OutOfFuel, s')
       end.

Definition throw {S A} (e : Exception) : M S A := λ s, (Throw e, s).

Definition undefined {S A} : M S A := λ s, (Undefined, s).

Definition outOfFuel {S A} : M S A := λ s, (OutOfFuel, s).

Definition get {S} : M S S := λ s, (Ok s, s).

Definition modify {S} (f : S → S) : M S unit := λ s, (Ok tt, f s).

(** A cast or an array read that has no value in the model. *)
Definition defined {S A} (o : option A) : M S A :=
  match o with
  | Some a => ret a
  | None => undefined
  end.

(** Run a computation over a component [T] of the state [S]. *)
Definition zoom {S T A} (proj : S → T) (upd : T → S → S) (m : M T A)
    : M S A :=
  λ s, let '(r, t) := m (proj s) in (r, upd t s).

#[global] Instance M_ret {S} : MRet (M S) := λ A, @ret S A.

#[global] Instance M_bind {S} : MBind (M S) := λ A B k m, @bind S A B m k.

(** ** The buffer manager *)

(** Modelled from the spec: the buffer manager and the blob file behind it
    are external collaborators of which only the contract is known (design
    document, section 6.1).  [pages] is the content of the index file as
    seen through the buffer pool; a node pointer obtained from a pinned page
    aliases the pooled page, so a store through it is a store into [pages].
    [numPages] is the page number the next [allocPage] hands out.
    [pinCnt] counts the pins.  A page number that was never allocated,
    the sentinel 0 included, reads as the zero-filled page when the read
    is served: the scan follows [rightSibPageNo] without testing it for 0,
    and every scenario of the design document that drains a scan relies on
    the page so reached being empty.  What the buffer manager does with a
    read of page 0 cannot be told from the code of the index: the
    zero-filled reading is an assumption of this model, and the failure
    schedule can refuse the read instead.  Failures of the buffer manager
    (design document, section 7: "IO / buffer-manager failures: propagated
    to the caller") are scheduled by [faults]: each [readPage] or
    [allocPage] consumes one entry and throws when it is [true]; an
    exhausted schedule means no further failure. *)
Record BufMgr := mkBufMgr {
  pages : gmap PageId Page;
  numPages : PageId;
  pinCnt : gmap PageId nat;
  faults : list bool
}.

Definition fetch (bm : BufMgr) (pid : PageId) : Page :=
  default BlankPage (pages bm !! pid).

Definition store (pid : PageId) (page : Page) (bm : BufMgr) : BufMgr :=
  mkBufMgr (<[pid := page]> (pages bm)) (numPages bm) (pinCnt bm) (faults bm).

Definition pin (pid : PageId) (bm : BufMgr) : BufMgr :=
  mkBufMgr (pages bm) (numPages bm)
           (<[pid := S (default 0 (pinCnt bm !! pid))]> (pinCnt bm))
           (faults bm).

Definition unpin (pid : PageId) (bm : BufMgr) : BufMgr :=
  mkBufMgr (pages bm) (numPages bm)
           (<[pid := pred (default 0 (pinCnt bm !! pid))]> (pinCnt bm))
           (faults bm).

(** One consultation of the failure schedule. *)
Definition mayFail : M BufMgr unit :=
  λ bm, match faults bm with
        | [] => (Ok tt, bm)
        | fail :: rest =>
            let bm' := mkBufMgr (pages bm) (numPages bm) (pinCnt bm) rest in
            if fail then (Throw BufMgrException, bm') else (Ok tt, bm')
        end.

(** [bufMgr->allocPage(file, pid, page)]: the page pointer is represented
    by the page number it points at. *)
Definition allocPage : M BufMgr PageId :=
  mayFail ;;
  bm ← get ;
  let pid := numPages bm in
  modify (λ bm, pin pid (mkBufMgr (<[pid := BlankPage]> (pages bm))
                                  (S (numPages bm)) (pinCnt bm) (faults bm))) ;;
  ret pid.

(** [bufMgr->readPage(file, pid, page)], returning the page read. *)
Definition readPage (pid : PageId) : M BufMgr Page :=
  mayFail ;;
  modify (pin pid) ;;
  bm ← get ;
  ret (fetch bm pid).

(** [bufMgr->unPinPage(file, pid, dirty)]. *)
Definition unPinPage (pid : PageId) (dirty : bool) : M BufMgr unit :=
  modify (unpin pid).

(** [setNode(page, node)] for the page with number [pid]. *)
Definition setNode (pid : PageId) (node : Page) : M BufMgr unit :=
  modify (store pid node).

(** The content behind a page pointer, read without a buffer-manager call. *)
Definition deref (pid : PageId) : M BufMgr Page :=
  bm ← get ; ret (fetch bm pid).

(** ** The index object *)

Module Meta.
Record IndexMetaInfo := mk {
  relationName : string;
  attrByteOffset : nat;
  attrType : Datatype;
  rootPageNo : PageId
}.
End Meta.

Abbreviation IndexMetaInfo := Meta.IndexMetaInfo.

(** The members of [BTreeIndex] that the code uses.  [file] is the one file
    of [bufMgr].  [currentPageData] is a page pointer: the number of the
    pooled page it points at, [None] while it has not been assigned. *)
Record BTreeIndex := mkBTreeIndex {
  bufMgr : BufMgr;
  indexMetaInfo : IndexMetaInfo;
  attributeType : Datatype;
  attrByteOffset : nat;
  scanExecuting : bool;
  nextEntry : nat;
  currentPageNum : PageId;
  currentPageData : option PageId;
  lowValInt : Z;
  highValInt : Z;
  lowOp : Operator;
  highOp : Operator
}.

Definition set_bufMgr (bm : BufMgr) (s : BTreeIndex) : BTreeIndex :=
  mkBTreeIndex bm (indexMetaInfo s) (attributeType s) (attrByteOffset s)
    (scanExecuting s) (nextEntry s) (currentPageNum s) (currentPageData s)
    (lowValInt s) (highValInt s) (lowOp s) (highOp s).

Definition set_indexMetaInfo (m : IndexMetaInfo) (s : BTreeIndex) : BTreeIndex :=
  mkBTreeIndex (bufMgr s) m (attributeType s) (attrByteOffset s)
    (scanExecuting s) (nextEntry s) (currentPageNum s) (currentPageData s)
    (lowValInt s) (highValInt s) (lowOp s) (highOp s).

Definition set_rootPageNo (pid : PageId) (s : BTreeIndex) : BTreeIndex :=
  let m := indexMetaInfo s in
  set_indexMetaInfo
    (Meta.mk (Meta.relationName m) (Meta.attrByteOffset m) (Meta.attrType m) pid) s.

Definition set_attributeType (t : Datatype) (s : BTreeIndex) : BTreeIndex :=
  mkBTreeIndex (bufMgr s) (indexMetaInfo s) t (attrByteOffset s)
    (scanExecuting s) (nextEntry s) (currentPageNum s) (currentPageData s)
    (lowValInt s) (highValInt s) (lowOp s) (highOp s).

Definition set_attrByteOffset (o : nat) (s : BTreeIndex) : BTreeIndex :=
  mkBTreeIndex (bufMgr s) (indexMetaInfo s) (attributeType s) o
    (scanExecuting s) (nextEntry s) (currentPageNum s) (currentPageData s)
    (lowValInt s) (highValInt s) (lowOp s) (highOp s).

Definition set_scanExecuting (b : bool) (s : BTreeIndex) : BTreeIndex :=
  mkBTreeIndex (bufMgr s) (indexMetaInfo s) (attributeType s) (attrByteOffset s)
    b (nextEntry s) (currentPageNum s) (currentPageData s)
    (lowValInt s) (highValInt s) (lowOp s) (highOp s).

Definition set_nextEntry (n : nat) (s : BTreeIndex) : BTreeIndex :=
  mkBTreeIndex (bufMgr s) (indexMetaInfo s) (attributeType s) (attrByteOffset s)
    (scanExecuting s) n (currentPageNum s) (currentPageData s)
    (lowValInt s) (highValInt s) (lowOp s) (highOp s).

Definition set_currentPageNum (pid : PageId) (s : BTreeIndex) : BTreeIndex :=
  mkBTreeIndex (bufMgr s) (indexMetaInfo s) (attributeType s) (attrByteOffset s)
    (scanExecuting s) (nextEntry s) pid (currentPageData s)
    (lowValInt s) (highValInt s) (lowOp s) (highOp s).

Definition set_currentPageData (p : option PageId) (s : BTreeIndex) : BTreeIndex :=
  mkBTreeIndex (bufMgr s) (indexMetaInfo s) (attributeType s) (attrByteOffset s)
    (scanExecuting s) (nextEntry s) (currentPageNum s) p
    (lowValInt s) (highValInt s) (lowOp s) (highOp s).

Definition set_lowValInt (v : Z) (s : BTreeIndex) : BTreeIndex :=
  mkBTreeIndex (bufMgr s) (indexMetaInfo s) (attributeType s) (attrByteOffset s)
    (scanExecuting s) (nextEntry s) (currentPageNum s) (currentPageData s)
    v (highValInt s) (lowOp s) (highOp s).

Definition set_highValInt (v : Z) (s : BTreeIndex) : BTreeIndex :=
  mkBTreeIndex (bufMgr s) (indexMetaInfo s) (attributeType s) (attrByteOffset s)
    (scanExecuting s) (nextEntry s) (currentPageNum s) (currentPageData s)
    (lowValInt s) v (lowOp s) (highOp s).

Definition set_lowOp (o : Operator) (s : BTreeIndex) : BTreeIndex :=
  mkBTreeIndex (bufMgr s) (indexMetaInfo s) (attributeType s) (attrByteOffset s)
    (scanExecuting s) (nextEntry s) (currentPageNum s) (currentPageData s)
    (lowValInt s) (highValInt s) o (highOp s).

Definition set_highOp (o : Operator) (s : BTreeIndex) : BTreeIndex :=
  mkBTreeIndex (bufMgr s) (indexMetaInfo s) (attributeType s) (attrByteOffset s)
    (scanExecuting s) (nextEntry s) (currentPageNum s) (currentPageData s)
    (lowValInt s) (highValInt s) (lowOp s) o.

(** A call on [this->bufMgr]. *)
Definition onBufMgr {A} (m : M BufMgr A) : M BTreeIndex A :=
  zoom bufMgr set_bufMgr m.

Section Index.
Context {cap : NodeCapacity}.

(** [Page::set_page_number] writes the page header, which the [memcpy] of
    [setNode] overwrites at once; it has no counterpart here. *)
Definition createPageForNode (node : Page) : M BufMgr PageId :=
  pid ← allocPage ;
  setNode pid node ;;
  unPinPage pid true ;;
  mret pid.

Definition getPageByPid (pid : PageId) : M BufMgr Page :=
  readPage pid.

(** *** Insert *)

(** The out-parameter [int *midVal] is threaded: the argument [midVal] is
    what the caller's variable holds before the call and the second
    component of the result is what it holds after.  [origNode] aliases
    the pooled page, so the stores made through it by [splitLeafNode] and
    [insertToLeafNode] are written to the page before the buffer manager
    is called again. *)
Definition insertToLeafPage (origPage : Page) (origPageId : PageId)
    (key : Z) (rid : RecordId) (midVal : Z) : M BufMgr (PageId * Z) :=
  origNode ← defined (getLeafNodeFromPage origPage) ;
  let index := findInsertionIndexLeaf origNode key in
  if negb (isLeafNodeFull origNode) then
    let origNode := insertToLeafNode origNode index key rid in
    setNode origPageId (LeafPage origNode) ;;
    unPinPage origPageId true ;;
    mret (0, midVal)
  else
    let middleIndex := INTARRAYLEAFSIZE / 2 in
    let insertToLeft := bool_decide (index < middleIndex) in
    let '(origNode, newNode) :=
      splitLeafNode origNode (middleIndex + Nat.b2n insertToLeft) in
    let '(origNode, newNode) :=
      if insertToLeft
      then (insertToLeafNode origNode index key rid, newNode)
      else (origNode, insertToLeafNode newNode (index - middleIndex) key rid) in
    setNode origPageId (LeafPage origNode) ;;
    newPageId ← createPageForNode (LeafPage newNode) ;
    _ ← getPageByPid newPageId ;
    let newNode :=
      Leaf.mk (Leaf.keyArray newNode) (Leaf.ridArray newNode)
              (Leaf.rightSibPageNo origNode) in
    let origNode :=
      Leaf.mk (Leaf.keyArray origNode) (Leaf.ridArray origNode) newPageId in
    setNode origPageId (LeafPage origNode) ;;
    setNode newPageId (LeafPage newNode) ;;
    let midVal := Leaf.keyArray newNode !!! 0 in
    unPinPage origPageId true ;;
    unPinPage newPageId true ;;
    mret (newPageId, midVal).

(** The recursion follows page numbers stored in pages, so the model
    bounds its depth by [fuel].  The local [newChildMidVal] is
    uninitialised in the source and is read only after the callee wrote
    it; it starts as 0 here.  After the recursive call [origNode] is read
    again from the pool, which it aliases. *)
Fixpoint insertHelper (fuel : nat) (origPageId : PageId) (key : Z)
    (rid : RecordId) (midVal : Z) : M BufMgr (PageId * Z) :=
  match fuel with
  | 0 => outOfFuel
  | S fuel =>
    origPage ← getPageByPid origPageId ;
    if isLeaf origPage then
      insertToLeafPage origPage origPageId key rid midVal
    else
      origNode ← defined (getNonLeafNodeFromPage origPage) ;
      let origChildPageId :=
        NonLeaf.pageNoArray origNode !!! findIndexNonLeaf origNode key in
      '(newChildPageId, newChildMidVal) ←
        insertHelper fuel origChildPageId key rid 0%Z ;
      if decide (newChildPageId = 0) then
        unPinPage origPageId false ;;
        mret (0, midVal)
      else
        origPage ← deref origPageId ;
        origNode ← defined (getNonLeafNodeFromPage origPage) ;
        let index := findIndexNonLeaf origNode newChildMidVal in
        if negb (isNonLeafNodeFull origNode) then
          let origNode :=
            insertToNonLeafNode origNode index newChildMidVal newChildPageId in
          setNode origPageId (NonLeafPage origNode) ;;
          unPinPage origPageId true ;;
          mret (0, midVal)
        else
          let middleIndex := (INTARRAYNONLEAFSIZE - 1) / 2 in
          let insertToLeft := bool_decide (index < middleIndex) in
          let splitIndex := middleIndex + Nat.b2n insertToLeft in
          let insertIndex :=
            if insertToLeft then index else index - middleIndex in
          let moveKeyUp := negb insertToLeft && bool_decide (insertIndex = 0) in
          let midVal :=
            if moveKeyUp then newChildMidVal
            else NonLeaf.keyArray origNode !!! splitIndex in
          let '(origNode, newNode) :=
            splitNonLeafNode origNode splitIndex moveKeyUp in
          let '(origNode, newNode) :=
            if negb moveKeyUp then
              if insertToLeft
              then (insertToNonLeafNode origNode insertIndex
                      newChildMidVal newChildPageId, newNode)
              else (origNode,
                    insertToNonLeafNode newNode insertIndex
                      newChildMidVal newChildPageId)
            else (origNode, newNode) in
          setNode origPageId (NonLeafPage origNode) ;;
          unPinPage origPageId true ;;
          newPageId ← createPageForNode (NonLeafPage newNode) ;
          mret (newPageId, midVal)
  end.

(** [insertEntry(key, rid)] with [*(int * )key] passed as [key]. *)
Definition insertEntry (fuel : nat) (key : Z) (rid : RecordId)
    : M BTreeIndex unit :=
  s ← get ;
  let rootPageNo := Meta.rootPageNo (indexMetaInfo s) in
  '(newPageId, splittedPageMidval) ←
    onBufMgr (insertHelper fuel rootPageNo key rid 0%Z) ;
  if decide (newPageId = 0) then mret tt
  else
    pid ← onBufMgr allocPage ;
    let newRoot := newNonLeafNodeInt in
    let newRoot :=
      NonLeaf.mk (<[0 := splittedPageMidval]> (NonLeaf.keyArray newRoot))
                 (NonLeaf.pageNoArray newRoot) in
    let newRoot :=
      NonLeaf.mk (NonLeaf.keyArray newRoot)
                 (<[0 := rootPageNo]> (NonLeaf.pageNoArray newRoot)) in
    let newRoot :=
      NonLeaf.mk (NonLeaf.keyArray newRoot)
                 (<[1 := newPageId]> (NonLeaf.pageNoArray newRoot)) in
    onBufMgr (setNode pid (NonLeafPage newRoot)) ;;
    onBufMgr (unPinPage pid true) ;;
    modify (set_rootPageNo pid).

(** *** Scan *)

Fixpoint initPageId (fuel : nat) : M BTreeIndex unit :=
  match fuel with
  | 0 => outOfFuel
  | S fuel =>
    s ← get ;
    page ← onBufMgr (getPageByPid (currentPageNum s)) ;
    modify (set_currentPageData (Some (currentPageNum s))) ;;
    if isLeaf page then mret tt
    else
      node ← defined (getNonLeafNodeFromPage page) ;
      onBufMgr (unPinPage (currentPageNum s) false) ;;
      modify (set_currentPageNum
                (NonLeaf.pageNoArray node
                   !!! findIndexNonLeaf node (lowValInt s))) ;;
      initPageId fuel
  end.

Definition moveToNextPage (node : LeafNodeInt) : M BTreeIndex unit :=
  s ← get ;
  onBufMgr (unPinPage (currentPageNum s) false) ;;
  modify (set_currentPageNum (Leaf.rightSibPageNo node)) ;;
  _ ← onBufMgr (getPageByPid (Leaf.rightSibPageNo node)) ;
  modify (set_currentPageData (Some (Leaf.rightSibPageNo node))) ;;
  modify (set_nextEntry 0).

(** [getLeafNodeFromPage(currentPageData)]: the leaf behind the page
    pointer of the scan. *)
Definition currentLeaf : M BTreeIndex LeafNodeInt :=
  s ← get ;
  pid ← defined (currentPageData s) ;
  page ← onBufMgr (deref pid) ;
  defined (getLeafNodeFromPage page).

Definition initEntryIndex : M BTreeIndex unit :=
  node ← currentLeaf ;
  s ← get ;
  match findScanIndexLeaf node (lowValInt s) (bool_decide (lowOp s = GTE)) with
  | None => moveToNextPage node
  | Some entryIndex => modify (set_nextEntry entryIndex)
  end.

Definition setNextEntry : M BTreeIndex unit :=
  modify (λ s, set_nextEntry (S (nextEntry s)) s) ;;
  node ← currentLeaf ;
  s ← get ;
  if bool_decide (INTARRAYLEAFSIZE ≤ nextEntry s)
     || bool_decide (page_number (Leaf.ridArray node !!! nextEntry s) = 0)
  then moveToNextPage node
  else mret tt.

(** [startScan], with [*(int * )lowValParm] and [*(int * )highValParm]
    passed as integers. *)
Definition startScan (fuel : nat) (lowValParm : Z) (lowOpParm : Operator)
    (highValParm : Z) (highOpParm : Operator) : M BTreeIndex unit :=
  if bool_decide (lowOpParm ≠ GT) && bool_decide (lowOpParm ≠ GTE)
  then throw BadOpcodesException
  else if bool_decide (highOpParm ≠ LT) && bool_decide (highOpParm ≠ LTE)
  then throw BadOpcodesException
  else
    modify (set_lowValInt lowValParm) ;;
    modify (set_highValInt highValParm) ;;
    s ← get ;
    if (lowValInt s >? highValInt s)%Z then throw BadScanrangeException
    else
      modify (set_lowOp lowOpParm) ;;
      modify (set_highOp highOpParm) ;;
      modify (set_scanExecuting true) ;;
      s ← get ;
      modify (set_currentPageNum (Meta.rootPageNo (indexMetaInfo s))) ;;
      initPageId fuel ;;
      initEntryIndex.

(** [scanNext(outRid)].  The reference parameter is the caller's
    variable: the state of the computation is the index together with
    that variable, so what it holds after a throw can be observed. *)
Definition onIndex {A} (m : M BTreeIndex A) : M (BTreeIndex * RecordId) A :=
  zoom fst (λ s p, (s, p.2)) m.

Definition scanNext : M (BTreeIndex * RecordId) unit :=
  s ← onIndex get ;
  if negb (scanExecuting s) then throw ScanNotInitializedException
  else
    node ← onIndex currentLeaf ;
    rid ← defined (Leaf.ridArray node !! nextEntry s) ;
    modify (λ p, (p.1, rid)) ;;
    if decide (rid = emptyRid) then throw IndexScanCompletedException
    else
      val ← defined (Leaf.keyArray node !! nextEntry s) ;
      if (val >? highValInt s)%Z then throw IndexScanCompletedException
      else if (val =? highValInt s)%Z && bool_decide (highOp s = LT)
      then throw IndexScanCompletedException
      else onIndex setNextEntry.

Definition endScan : M BTreeIndex unit :=
  s ← get ;
  if negb (scanExecuting s) then throw ScanNotInitializedException
  else
    modify (set_scanExecuting false) ;;
    onBufMgr (unPinPage (currentPageNum s) false).

(** *** Constructor *)

Definition getIndexName (relationName : string) (attrByteOffset : nat)
    : string :=
  relationName +:+ "," +:+ pretty attrByteOffset.

(** [*((int * )(record + attrByteOffset))] on the bytes of a record: the
    four bytes in the byte order of the host, taken to be little-endian,
    as a signed 32-bit integer.  A record too short for the read has no
    value here (the source reads past the string). *)
Definition readInt (record : list byte) (offset : nat) : option Z :=
  match take 4 (drop offset record) with
  | [b0; b1; b2; b3] =>
      let u := (Z.of_N (Byte.to_N b0)
                + Z.shiftl (Z.of_N (Byte.to_N b1)) 8
                + Z.shiftl (Z.of_N (Byte.to_N b2)) 16
                + Z.shiftl (Z.of_N (Byte.to_N b3)) 24)%Z in
      Some (if (u <? 2 ^ 31)%Z then u else (u - 2 ^ 32)%Z)
  | _ => None
  end.

(** [new BlobFile(outIndexName, true)]: an empty file whose first page
    will be page 1, served by the buffer manager passed in. *)
Definition newBlobFile (bufMgrIn : BufMgr) : BufMgr :=
  mkBufMgr ∅ 1 (pinCnt bufMgrIn) (faults bufMgrIn).

(** The loop over [FileScan]: the relation is the list of its records,
    each with its record id, and running off its end is the
    [EndOfFileException] that the constructor catches. *)
Fixpoint bulkLoad (fuel : nat) (attrByteOffset : nat)
    (relation : list (RecordId * list byte)) : M BTreeIndex unit :=
  match relation with
  | [] => mret tt
  | (scanRid, record) :: rest =>
      key ← defined (readInt record attrByteOffset) ;
      insertEntry fuel key scanRid ;;
      bulkLoad fuel attrByteOffset rest
  end.

(** The constructor, run on the raw object: members it does not assign
    (the scan state) keep whatever the object held.  It returns
    [outIndexName]. *)
Definition BTreeIndex_new (fuel : nat) (relationName : string)
    (bufMgrIn : BufMgr) (attrByteOffset : nat) (attrType : Datatype)
    (relation : list (RecordId * list byte)) : M BTreeIndex string :=
  modify (set_attrByteOffset attrByteOffset) ;;
  modify (set_bufMgr bufMgrIn) ;;
  modify (set_attributeType attrType) ;;
  let outIndexName := getIndexName relationName attrByteOffset in
  modify (λ s, set_indexMetaInfo
                 (Meta.mk (String.substring 0 20 relationName) attrByteOffset
                          attrType (Meta.rootPageNo (indexMetaInfo s))) s) ;;
  modify (λ s, set_bufMgr (newBlobFile (bufMgr s)) s) ;;
  rootPageNo ← onBufMgr allocPage ;
  modify (set_rootPageNo rootPageNo) ;;
  onBufMgr (setNode rootPageNo (LeafPage newLeafNodeInt)) ;;
  onBufMgr (unPinPage rootPageNo true) ;;
  bulkLoad fuel attrByteOffset relation ;;
  mret outIndexName.

End Index.

(** ** Observations used by the properties *)

Section Observers.

(** The occupied [(key, rid)] entries of a leaf, in slot order. *)
Definition occupied (node : LeafNodeInt) : list (Z * RecordId) :=
  filter (λ e, e.2 ≠ emptyRid) (zip (Leaf.keyArray node) (Leaf.ridArray node)).

(** The leaf reached from page [pid] through first children. *)
Fixpoint leftmostLeaf (fuel : nat) (bm : BufMgr) (pid : PageId)
    : option PageId :=
  match fuel with
  | 0 => None
  | S fuel =>
      match fetch bm pid with
      | LeafPage _ => Some pid
      | NonLeafPage node =>
          leftmostLeaf fuel bm (NonLeaf.pageNoArray node !!! 0)
      | BlankPage => None
      end
  end.

(** The occupied entries of the leaves from page [pid] on, following
    [rightSibPageNo] until it is 0. *)
Fixpoint leafChainFrom (fuel : nat) (bm : BufMgr) (pid : PageId)
    : list (Z * RecordId) :=
  match fuel with
  | 0 => []
  | S fuel =>
      if decide (pid = 0) then []
      else match fetch bm pid with
           | LeafPage node =>
               occupied node ++ leafChainFrom fuel bm (Leaf.rightSibPageNo node)
           | _ => []
           end
  end.

Definition leafChain (fuel : nat) (s : BTreeIndex) : list (Z * RecordId) :=
  match leftmostLeaf fuel (bufMgr s) (Meta.rootPageNo (indexMetaInfo s)) with
  | Some pid => leafChainFrom fuel (bufMgr s) pid
  | None => []
  end.

(** A sequence of [insertEntry] calls. *)
Fixpoint insertEntries {cap : NodeCapacity} (fuel : nat)
    (entries : list (Z * RecordId)) : M BTreeIndex unit :=
  match entries with
  | [] => mret tt
  | (key, rid) :: rest =>
      insertEntry fuel key rid ;; insertEntries fuel rest
  end.

End Observers.

Definition nonDecreasing (keys : list Z) : Prop :=
  ∀ i j a b, i ≤ j → keys !! i = Some a → keys !! j = Some b → (a ≤ b)%Z.

(** The capacities of the scenarios of the design document. *)
Definition cap4 : NodeCapacity :=
  {| INTARRAYLEAFSIZE := 4; INTARRAYNONLEAFSIZE := 4 |}.

(** A buffer manager that never fails, and the memory of an index object
    before its constructor runs (all members zero). *)
Definition reliableBufMgr : BufMgr := mkBufMgr ∅ 0 ∅ [].

Definition rawIndex : BTreeIndex :=
  mkBTreeIndex reliableBufMgr (Meta.mk "" 0 INTEGER 0) INTEGER 0
    false 0 0 None 0%Z 0%Z LT LT.

(** The index over an empty relation "rel", with capacities 4 and 4. *)
Definition freshIndex4 : BTreeIndex :=
  (BTreeIndex_new (cap := cap4) 1 "rel" reliableBufMgr 0 INTEGER [] rawIndex).2.

(** Eleven distinct keys, the record of the i-th insertion being slot i of
    page 1 of the relation. *)
Definition elevenEntries : list (Z * RecordId) :=
  [(60, mkRecordId 1 1); (100, mkRecordId 1 2); (110, mkRecordId 1 3);
   (30, mkRecordId 1 4); (20, mkRecordId 1 5); (10, mkRecordId 1 6);
   (50, mkRecordId 1 7); (90, mkRecordId 1 8); (40, mkRecordId 1 9);
   (80, mkRecordId 1 10); (70, mkRecordId 1 11)]%Z.

(** The leaf of four keys that is full with capacities 4 and 4, and the
    index in which it is the root. *)
Definition fourEntries : list (Z * RecordId) :=
  [(10, mkRecordId 1 1); (20, mkRecordId 1 2); (30, mkRecordId 1 3);
   (40, mkRecordId 1 4)]%Z.

Definition fullLeaf4 : BTreeIndex :=
  (insertEntries (cap := cap4) 1 fourEntries freshIndex4).2.

(** The index after the first nine of the eleven insertions: its root, page
    3, is a full non-leaf over five leaves. *)
Definition nineInserted4 : BTreeIndex :=
  (insertEntries (cap := cap4) 2 (take 9 elevenEntries) freshIndex4).2.

(** The root leaf of [fullLeaf4] and the root non-leaf of [nineInserted4]. *)
Definition fullLeafNode4 : LeafNodeInt :=
  Leaf.mk [10; 20; 30; 40]%Z
          [mkRecordId 1 1; mkRecordId 1 2; mkRecordId 1 3; mkRecordId 1 4] 0.

Definition fullRootNode4 : NonLeafNodeInt :=
  NonLeaf.mk [30; 90; 100; 110]%Z [1; 5; 6; 4; 2].

(** The buffer manager of [nineInserted4] once the tenth insertion, of key
    80, has split leaf page 5 below the pinned root. *)
Definition afterLeafSplit4 : BufMgr :=
  (insertHelper (cap := cap4) 1 5 80 (mkRecordId 1 10) 0
     (pin 3 (bufMgr nineInserted4))).2.

(** The index holding the single entry (42, (5, 7)), idle and with the scan
    of [0, 100] started. *)
Definition oneEntry4 : BTreeIndex :=
  (insertEntry (cap := cap4) 1 42 (mkRecordId 5 7) freshIndex4).2.

Definition oneEntryScan4 : BTreeIndex :=
  (startScan (cap := cap4) 1 0 GTE 100 LTE oneEntry4).2.

(** The leaf of [oneEntryScan4]. *)
Definition oneEntryLeaf4 : LeafNodeInt :=
  Leaf.mk [42; 0; 0; 0]%Z
          [mkRecordId 5 7; emptyRid; emptyRid; emptyRid] 0.

(** The fresh index behind a buffer manager whose next call fails. *)
Definition faultyIndex4 : BTreeIndex :=
  let bm := bufMgr freshIndex4 in
  set_bufMgr (mkBufMgr (pages bm) (numPages bm) (pinCnt bm) [true]) freshIndex4.

(** The index holding the entries (42, (5, 7)) and (50, (5, 8)), with the
    scan of [0, 100] started. *)
Definition twoEntriesScan4 : BTreeIndex :=
  (startScan (cap := cap4) 1 0 GTE 100 LTE
     (insertEntry (cap := cap4) 1 50 (mkRecordId 5 8) oneEntry4).2).2.


(** ** Vocabulary of the properties *)

(** The three conditions under which [scanNext] ends the scan, for the
    record id [r] and key [k] of the current entry. *)
Definition scanDone (s : BTreeIndex) (r : RecordId) (k : Z) : Prop :=
  r = emptyRid ∨ (k > highValInt s)%Z ∨ (k = highValInt s ∧ highOp s = LT).

(** The index once [startScan] has stored its arguments, set
    [scanExecuting] and pointed [currentPageNum] at the root. *)
Definition scanArgs (lv : Z) (lo : Operator) (hv : Z) (ho : Operator)
    (s : BTreeIndex) : BTreeIndex :=
  set_currentPageNum (Meta.rootPageNo (indexMetaInfo s))
    (set_scanExecuting true
       (set_highOp ho (set_lowOp lo (set_highValInt hv (set_lowValInt lv s))))).

(** The buffer manager after one successful consultation of its failure
    schedule, and the condition for the next consultation to succeed. *)
Definition consumed (bm : BufMgr) : BufMgr :=
  mkBufMgr (pages bm) (numPages bm) (pinCnt bm) (tail (faults bm)).

Definition willSucceed (bm : BufMgr) : Prop := head (faults bm) ≠ Some true.

(** A buffer manager with no failure scheduled. *)
Definition reliable (bm : BufMgr) : Prop := faults bm = [].

(** The buffer manager after [createPageForNode node] succeeded. *)
Definition withNewPage (node : Page) (bm : BufMgr) : BufMgr :=
  unpin (numPages bm)
    (store (numPages bm) node
       (pin (numPages bm)
          (mkBufMgr (<[numPages bm := BlankPage]> (pages bm)) (S (numPages bm))
                    (pinCnt bm) (faults bm)))).

(** The page numbers in use lie between 1 and [numPages], and no page in
    use holds the zero-filled image. *)
Definition consistent (bm : BufMgr) : Prop :=
  0 < numPages bm
  ∧ ∀ pid page, pages bm !! pid = Some page →
                0 < pid < numPages bm ∧ page ≠ BlankPage.

(** [covers D bm]: [bm] is consistent and the pages of [D] are in use. *)
Definition covers (D : gset PageId) (bm : BufMgr) : Prop :=
  consistent bm ∧ ∀ pid, pid ∈ D → is_Some (pages bm !! pid).

(** One array under the shifting loop
    [for (i = ..; i > index; i--) a[i] = a[i - 1]], entered with counter
    [i]. *)
Fixpoint shiftRight {A} `{Inhabited A} (i index : nat) (a : list A) : list A :=
  match i with
  | 0 => a
  | S i' =>
      if decide (index < i) then shiftRight i' index (<[i := a !!! i']> a)
      else a
  end.

(** [triple P m Q E]: from a state satisfying [P], [m] either returns [a]
    in a state satisfying [Q a], or ends otherwise in a state satisfying
    [E]. *)
Definition triple {S A} (P : S → Prop) (m : M S A) (Q : A → S → Prop)
    (E : S → Prop) : Prop :=
  ∀ s, P s → match m s with
             | (Ok a, s') => Q a s'
             | (_, s') => E s'
             end.

(** [preserves P m]: whatever way [m] ends, [P] still holds afterwards. *)
Definition preserves {S A} (P : S → Prop) (m : M S A) : Prop :=
  ∀ s, P s → P (m s).2.

Definition executing (s : BTreeIndex) : Prop := scanExecuting s = true.




(** The calls a client can make on a constructed index. *)
Inductive Call :=
| CallInsertEntry (key : Z) (rid : RecordId)
| CallStartScan (lowVal : Z) (lowOp : Operator) (highVal : Z) (highOp : Operator)
| CallScanNext
| CallEndScan.

Section Calls.
Context {cap : NodeCapacity}.

Definition call (fuel : nat) (c : Call) : M (BTreeIndex * RecordId) unit :=
  match c with
  | CallInsertEntry key rid => onIndex (insertEntry fuel key rid)
  | CallStartScan lv lo hv ho => onIndex (startScan fuel lv lo hv ho)
  | CallScanNext => scanNext
  | CallEndScan => onIndex endScan
  end.

(** A client that makes the calls one after the other, whatever each of
    them answers, and records the answer and the content of its [outRid]
    variable after each. *)
Fixpoint calls (fuel : nat) (cs : list Call) (p : BTreeIndex * RecordId)
    : list (Outcome unit * RecordId) * (BTreeIndex * RecordId) :=
  match cs with
  | [] => ([], p)
  | c :: cs =>
      let '(r, p') := call fuel c p in
      let '(trace, p'') := calls fuel cs p' in
      ((r, p'.2) :: trace, p'')
  end.

End Calls.

(** ** Vocabulary of the further properties *)

(** The number of pins held on a page. *)
Definition pinned (bm : BufMgr) (pid : PageId) : nat :=
  default 0 (pinCnt bm !! pid).

(** The test of [findArrayIndex] on one array element. *)
Definition hit (includeCurrentKey : bool) (key v : Z) : bool :=
  if includeCurrentKey then (v >=? key)%Z else (v >? key)%Z.

(** The position of the first element of [keys] that passes [test], the
    length of [keys] when none does. *)
Fixpoint firstIndex (test : Z → bool) (keys : list Z) : nat :=
  match keys with
  | [] => 0
  | k :: keys => if test k then 0 else S (firstIndex test keys)
  end.

Definition insertAt {A} (i : nat) (x : A) (l : list A) : list A :=
  take i l ++ x :: drop i l.

(** The entries of a leaf once [(key, rid)] is put in front of the first
    entry whose key is not below [key]. *)
Definition placed (key : Z) (rid : RecordId) (entries : list (Z * RecordId))
    : list (Z * RecordId) :=
  insertAt (firstIndex (hit true key) entries.*1) (key, rid) entries.

Section Representation.
Context {cap : NodeCapacity}.

(** The leaf that holds [entries] in its first slots, the other slots
    being zero, and the non-leaf that holds [keys] and [children]. *)
Definition leafOf (entries : list (Z * RecordId)) (sib : PageId)
    : LeafNodeInt :=
  Leaf.mk (entries.*1 ++ replicate (INTARRAYLEAFSIZE - length entries) 0%Z)
          (entries.*2 ++ replicate (INTARRAYLEAFSIZE - length entries) emptyRid)
          sib.

Definition nonLeafOf (keys : list Z) (children : list PageId)
    : NonLeafNodeInt :=
  NonLeaf.mk (keys ++ replicate (INTARRAYNONLEAFSIZE - length keys) 0%Z)
             (children
              ++ replicate (S INTARRAYNONLEAFSIZE - length children) 0).

End Representation.

(** [pins f bm]: the pin counts of [bm] are given by [f]; [bump] and
    [unbump] are one more and one less pin on a page. *)
Definition pins (f : PageId → nat) (bm : BufMgr) : Prop :=
  ∀ pid, pinned bm pid = f pid.

Definition bump (p : PageId) (f : PageId → nat) : PageId → nat :=
  λ q, if decide (q = p) then S (f q) else f q.

Definition unbump (p : PageId) (f : PageId → nat) : PageId → nat :=
  λ q, if decide (q = p) then pred (f q) else f q.

(** [positioned f s]: over the pin counts [f], the scan of [s] holds one
    pin, on its current page, which [currentPageData] points at.
    [scanPins f s]: moreover the scan is marked as executing. *)
Definition positioned (f : PageId → nat) (s : BTreeIndex) : Prop :=
  pins (bump (currentPageNum s) f) (bufMgr s)
  ∧ currentPageData s = Some (currentPageNum s).

Definition scanPins (f : PageId → nat) (s : BTreeIndex) : Prop :=
  positioned f s ∧ scanExecuting s = true.

(** The answers a client accepts from a scan call without giving up. *)
Definition scanAnswer (r : Outcome unit) : Prop :=
  r = Ok tt ∨ r = Throw IndexScanCompletedException.

(** The test that ends a scan at an entry with key [k], and the entries a
    scan delivers from a sequence of entries: those before the first one
    at which the test holds. *)
Definition pastHigh (hv : Z) (ho : Operator) (k : Z) : bool :=
  (k >? hv)%Z || ((k =? hv)%Z && bool_decide (ho = LT)).

Fixpoint untilHigh (hv : Z) (ho : Operator) (entries : list (Z * RecordId))
    : list (Z * RecordId) :=
  match entries with
  | [] => []
  | e :: entries =>
      if pastHigh hv ho e.1 then [] else e :: untilHigh hv ho entries
  end.

(** The keys a scan with the given bounds asks for. *)
Definition inRange (lv : Z) (lo : Operator) (hv : Z) (ho : Operator) (k : Z)
    : bool :=
  hit (bool_decide (lo = GTE)) lv k && negb (pastHigh hv ho k).

Section Clients.
Context {cap : NodeCapacity}.

(** A client that calls [scanNext] until it reports the end of the scan,
    and collects the record ids delivered. *)
Fixpoint scanAll (fuel : nat) : M (BTreeIndex * RecordId) (list RecordId) :=
  match fuel with
  | 0 => outOfFuel
  | S fuel =>
      λ p, match scanNext p with
           | (Ok _, p') =>
               match scanAll fuel p' with
               | (Ok rids, p'') => (Ok (p'.2 :: rids), p'')
               | other => other
               end
           | (Throw IndexScanCompletedException, p') => (Ok [], p')
           | (Throw e, p') => (Throw e, p')
           | (Undefined, p') => (Undefined, p')
           | (OutOfFuel, p') => (OutOfFuel, p')
           end
  end.

(** [leafChainIs pages pid leaves]: from page [pid] on, the chain of right
    siblings consists of the leaves that hold the entry lists [leaves], and
    ends with the page number 0. *)
Fixpoint leafChainIs (pages : gmap PageId Page) (pid : PageId)
    (leaves : list (list (Z * RecordId))) : Prop :=
  match leaves with
  | [] => pid = 0
  | entries :: rest =>
      ∃ sib, pages !! pid = Some (LeafPage (leafOf entries sib))
             ∧ leafChainIs pages sib rest
  end.

(** The entries of a leaf as the scan needs them: at least one, no more
    than the capacity, and no record id with page number 0. *)
Definition scannable (entries : list (Z * RecordId)) : Prop :=
  entries ≠ [] ∧ length entries ≤ INTARRAYLEAFSIZE
  ∧ Forall (λ e, page_number e.2 ≠ 0) entries.

End Clients.

(** [scanAt pages hv ho pid i s]: a scan with high bound [hv], [ho] is in
    progress on [s] and stands at slot [i] of page [pid]; the file holds
    [pages] and the buffer manager has no failure scheduled. *)
Definition scanAt (pages0 : gmap PageId Page) (hv : Z) (ho : Operator)
    (pid : PageId) (i : nat) (s : BTreeIndex) : Prop :=
  scanExecuting s = true ∧ currentPageData s = Some pid ∧ nextEntry s = i
  ∧ highValInt s = hv ∧ highOp s = ho
  ∧ faults (bufMgr s) = [] ∧ pages (bufMgr s) = pages0.

Section Descent.
Context {cap : NodeCapacity}.

(** [descends pages lv n pid leaf]: in the file [pages], the descent for
    the low value [lv] that starts at page [pid] passes [n] non-leaf pages
    and ends at the leaf page [leaf]. *)
Inductive descends (pages : gmap PageId Page) (lv : Z)
    : nat → PageId → PageId → Prop :=
| descends_leaf pid node :
    pages !! pid = Some (LeafPage node) → descends pages lv 0 pid pid
| descends_child n pid keys children child leaf :
    pages !! pid = Some (NonLeafPage (nonLeafOf keys children)) →
    length children = S (length keys) →
    length keys ≤ INTARRAYNONLEAFSIZE →
    Forall (λ c, c ≠ 0) (drop 1 children) →
    children !! firstIndex (hit true lv) keys = Some child →
    descends pages lv n child leaf →
    descends pages lv (S n) pid leaf.

(** The index whose root is the leaf that holds [entries]: no failure is
    scheduled and page 0 is not in use. *)
Definition leafRoot (entries : list (Z * RecordId)) (root : PageId)
    (s : BTreeIndex) : Prop :=
  Meta.rootPageNo (indexMetaInfo s) = root
  ∧ faults (bufMgr s) = []
  ∧ pages (bufMgr s) !! 0 = None
  ∧ pages (bufMgr s) !! root = Some (LeafPage (leafOf entries 0)).

End Descent.

(** [arrived s leaf s']: [s'] is [s] with the scan standing on the pinned
    page [leaf]; the file and all other members are those of [s], and no
    failure is scheduled. *)
Definition arrived (s : BTreeIndex) (leaf : PageId) (s' : BTreeIndex) : Prop :=
  currentPageNum s' = leaf ∧ currentPageData s' = Some leaf
  ∧ pages (bufMgr s') = pages (bufMgr s) ∧ faults (bufMgr s') = []
  ∧ indexMetaInfo s' = indexMetaInfo s
  ∧ scanExecuting s' = scanExecuting s ∧ nextEntry s' = nextEntry s
  ∧ lowValInt s' = lowValInt s ∧ highValInt s' = highValInt s
  ∧ lowOp s' = lowOp s ∧ highOp s' = highOp s.

(** [fileIs pages0 n meta s]: the index file of [s] holds [pages0], its
    next page number is [n], and the meta record is [meta]. *)
Definition fileIs (pages0 : gmap PageId Page) (n : PageId)
    (meta : IndexMetaInfo) (s : BTreeIndex) : Prop :=
  pages (bufMgr s) = pages0 ∧ numPages (bufMgr s) = n ∧ indexMetaInfo s = meta.

(** The members of the index that describe the scan. *)
Definition scanState (s : BTreeIndex)
    : bool * nat * PageId * option PageId * Z * Z * Operator * Operator :=
  (scanExecuting s, nextEntry s, currentPageNum s, currentPageData s,
   lowValInt s, highValInt s, lowOp s, highOp s).

(** No character of the string is a comma. *)
Fixpoint commaFree (s : string) : bool :=
  match s with
  | EmptyString => true
  | String c s => negb (Ascii.eqb c ","%char) && commaFree s
  end.

(** ** Trees of height at most two *)

Section SmallTrees.
Context {cap : NodeCapacity}.

(** The first key of a leaf, and the keys of a root over the leaves
    [leaves]: the first key of each leaf but the first. *)
Definition firstKey (entries : list (Z * RecordId)) : Z := entries.*1 !!! 0.

Definition separators (leaves : list (list (Z * RecordId))) : list Z :=
  drop 1 (firstKey <$> leaves).

(** What an insertion makes of the leaf it reaches: the leaf with the new
    entry in place when it had a free slot, the two halves of
    [insertToLeafPage] when it was full. *)
Definition leafHalves (key : Z) (rid : RecordId)
    (entries : list (Z * RecordId)) : list (list (Z * RecordId)) :=
  if decide (length entries < INTARRAYLEAFSIZE) then [placed key rid entries]
  else
    let index := firstIndex (hit true key) entries.*1 in
    let middleIndex := INTARRAYLEAFSIZE / 2 in
    let cut := if decide (index < middleIndex)
               then middleIndex + 2 else middleIndex in
    [take cut (placed key rid entries); drop cut (placed key rid entries)].

(** The leaves after the insertion of [(key, rid)]: the leaf in front of
    the first separator that is not below [key] is replaced by what the
    insertion makes of it. *)
Definition treeInsert (leaves : list (list (Z * RecordId))) (key : Z)
    (rid : RecordId) : list (list (Z * RecordId)) :=
  let c := firstIndex (hit true key) (separators leaves) in
  take c leaves ++ leafHalves key rid (leaves !!! c) ++ drop (S c) leaves.

(** The leaves after the insertions [new] into the empty index. *)
Definition grow (new : list (Z * RecordId)) : list (list (Z * RecordId)) :=
  foldl (λ leaves e, treeInsert leaves e.1 e.2) [[]] new.

(** [leafRun pages children leaves last]: the pages [children] are the
    leaves that hold [leaves], each with the next page of [children] as
    its right sibling, and the last one with [last]. *)
Fixpoint leafRun (pages : gmap PageId Page) (children : list PageId)
    (leaves : list (list (Z * RecordId))) (last : PageId) : Prop :=
  match children, leaves with
  | [], [] => True
  | p :: children, entries :: leaves =>
      pages !! p = Some (LeafPage (leafOf entries (hd last children)))
      ∧ leafRun pages children leaves last
  | _, _ => False
  end.

(** [smallTree leaves s]: the index [s] is a tree of height at most two
    whose leaves hold, from left to right, the entry lists [leaves].  The
    keys are strictly increasing along the leaves and no record id is on
    page 0.  A single leaf is the root itself.  Otherwise no leaf is
    empty and the root is a non-leaf that holds the first keys of the
    leaves but the first, over the leaf pages. *)
Definition smallTree (leaves : list (list (Z * RecordId))) (s : BTreeIndex)
    : Prop :=
  let bm := bufMgr s in
  let root := Meta.rootPageNo (indexMetaInfo s) in
  faults bm = [] ∧ consistent bm
  ∧ Forall (λ entries, length entries ≤ INTARRAYLEAFSIZE
                       ∧ Forall (λ e, page_number e.2 ≠ 0) entries) leaves
  ∧ StronglySorted Z.lt (concat leaves).*1
  ∧ match leaves with
    | [] => False
    | [entries] => pages bm !! root = Some (LeafPage (leafOf entries 0))
    | _ =>
        Forall (λ entries, entries ≠ []) leaves
        ∧ length leaves ≤ S INTARRAYNONLEAFSIZE
        ∧ ∃ children,
            NoDup (root :: children)
            ∧ pages bm !! root
              = Some (NonLeafPage (nonLeafOf (separators leaves) children))
            ∧ leafRun (pages bm) children leaves 0
    end.

End SmallTrees.

(** ** Further scenarios with capacities 4 and 4 *)

(** The index after the keys 10 to 50 have been inserted in this order:
    the root, page 3, is a non-leaf with the key 30 over the leaf pages 1,
    with the keys 10 and 20, and 2, with the keys 30, 40 and 50.  After
    one more key, 60, page 2 is full. *)
Definition fiveEntries : list (Z * RecordId) :=
  fourEntries ++ [(50, mkRecordId 1 5)]%Z.

Definition twoLeaves4 : BTreeIndex :=
  (insertEntries (cap := cap4) 2 fiveEntries freshIndex4).2.

Definition fullChild4 : BTreeIndex :=
  (insertEntry (cap := cap4) 2 60 (mkRecordId 1 6) twoLeaves4).2.

(** [nineInserted4] once the keys 91, 92 and 93 have filled leaf page 6,
    the third child of the full root. *)
Definition fullThirdChild4 : BTreeIndex :=
  (insertEntries (cap := cap4) 2
     [(91, mkRecordId 2 1); (92, mkRecordId 2 2); (93, mkRecordId 2 3)]%Z
     nineInserted4).2.

(** [nineInserted4] once the keys 111, 112 and 113 have filled leaf page 2,
    the last child of the full root. *)
Definition fullLastChild4 : BTreeIndex :=
  (insertEntries (cap := cap4) 2
     [(111, mkRecordId 2 1); (112, mkRecordId 2 2); (113, mkRecordId 2 3)]%Z
     nineInserted4).2.

(** Three entries in the order of their insertion. *)
Definition threeEntries : list (Z * RecordId) :=
  [(30, mkRecordId 1 1); (10, mkRecordId 1 2); (20, mkRecordId 1 3)]%Z.

(** The index that holds the first three of [fourEntries] in its root
    leaf, with the scan of [10, 100] started. *)
Definition threeInLeafScan4 : BTreeIndex :=
  (startScan (cap := cap4) 1 10 GTE 100 LTE
     (insertEntries (cap := cap4) 1 (take 3 fourEntries) freshIndex4).2).2.

(** Three entries of which the second has a record id on page 0, and the
    index that holds them in its root leaf, with the scan of [10, 100]
    started. *)
Definition pageZeroEntries : list (Z * RecordId) :=
  [(10, mkRecordId 1 1); (20, mkRecordId 0 5); (30, mkRecordId 1 3)]%Z.

Definition pageZeroScan4 : BTreeIndex :=
  (startScan (cap := cap4) 1 10 GTE 100 LTE
     (insertEntries (cap := cap4) 1 pageZeroEntries freshIndex4).2).2.

(** A relation of five records of five bytes: the first four bytes of
    each are its key, 10, 20, 30, 40 and 50 in turn. *)
Definition fiveRecords : list (RecordId * list byte) :=
  [(mkRecordId 1 1, [x0a; x00; x00; x00; x61]);
   (mkRecordId 1 2, [x14; x00; x00; x00; x62]);
   (mkRecordId 1 3, [x1e; x00; x00; x00; x63]);
   (mkRecordId 1 4, [x28; x00; x00; x00; x64]);
   (mkRecordId 1 5, [x32; x00; x00; x00; x65])].

(** The buffer manager of [fullLeaf4] when its next read succeeds and the
    allocation after it fails. *)
Definition allocFails4 : BufMgr :=
  let bm := bufMgr fullLeaf4 in
  mkBufMgr (pages bm) (numPages bm) (pinCnt bm) [false; true].

(** * Properties *)

(** ** Leaf chain ordering *)

(** C1 (refuted on the code).  The design document states that after any
    sequence of insertions into a fresh index the occupied entries of the
    leaves, read in [rightSibPageNo] order, have non-decreasing keys.  With
    capacities 4 and 4, inserting the keys 60, 100, 110, 30, 20, 10, 50, 90,
    40, 80, 70 into the fresh index completes normally and leaves the chain
    10, 20, 30, 40, 50, 60, 80, 70, 90, 100, 110: the tenth insertion splits
    the full root with [moveKeyUp], [splitNonLeafNode] drops the page of the
    new leaf (50, 60, 80), and the eleventh key is routed past it. *)
Theorem leaf_chain_order_violated :
  let r := insertEntries (cap := cap4) 3 elevenEntries freshIndex4 in
  r.1 = Ok tt
  ∧ (leafChain 9 r.2).*1
    = [10; 20; 30; 40; 50; 60; 80; 70; 90; 100; 110]%Z
  ∧ ¬ nonDecreasing (leafChain 9 r.2).*1.
Proof.
  assert (Hchain :
    (leafChain 9
       (insertEntries (cap := cap4) 3 elevenEntries freshIndex4).2).*1
    = [10; 20; 30; 40; 50; 60; 80; 70; 90; 100; 110]%Z) by (vm_compute; reflexivity).
  cbv zeta. split; [vm_compute; reflexivity|]. split; [exact Hchain|].
  rewrite Hchain. intros Hsorted.
  specialize (Hsorted 6 7 80%Z 70%Z). 
  assert (80 ≤ 70)%Z by (apply Hsorted; [lia | reflexivity | reflexivity]).
  lia.
Qed.

(** ** Reasoning about computations *)

Ltac munfold :=
  repeat progress
    (unfold onIndex, onBufMgr, defined, mbind, mret, M_bind, M_ret, bind, ret,
       throw, undefined, outOfFuel, get, modify, zoom in * );
  cbv beta iota.

Lemma set_bufMgr_id s : set_bufMgr (bufMgr s) s = s.
Proof. by destruct s. Qed.

Section Preserves.
Context {S : Type} (P : S → Prop).

Lemma preserves_bind {A B} (m : M S A) (k : A → M S B) :
  preserves P m → (∀ a, preserves P (k a)) → preserves P (m ≫= k).
Proof.
  intros Hm Hk s Hs. munfold. specialize (Hm s Hs).
  destruct (m s) as [[a| | |] s']; simpl in *; try done. by apply Hk.
Qed.

Lemma preserves_mret {A} (a : A) : preserves P (mret a).
Proof. by intros s Hs. Qed.

Lemma preserves_throw {A} e : preserves P (throw (A := A) e).
Proof. by intros s Hs. Qed.

Lemma preserves_undefined {A} : preserves P (undefined (A := A)).
Proof. by intros s Hs. Qed.

Lemma preserves_outOfFuel {A} : preserves P (outOfFuel (A := A)).
Proof. by intros s Hs. Qed.

Lemma preserves_defined {A} (o : option A) : preserves P (defined o).
Proof. destruct o; by intros s Hs. Qed.

Lemma preserves_get : preserves P get.
Proof. by intros s Hs. Qed.

Lemma preserves_modify f : (∀ s, P s → P (f s)) → preserves P (modify f).
Proof. intros Hf s Hs. by apply Hf. Qed.

Lemma preserves_zoom {T A} (proj : S → T) upd (m : M T A) :
  (∀ t s, P s → P (upd t s)) → preserves P (zoom proj upd m).
Proof.
  intros Hupd s Hs. unfold zoom. destruct (m (proj s)) as [r t]. by apply Hupd.
Qed.

End Preserves.

Ltac preserves_step :=
  lazymatch goal with
  | |- preserves _ (mret _) => apply preserves_mret
  | |- preserves _ (ret _) => apply preserves_mret
  | |- preserves _ (throw _) => apply preserves_throw
  | |- preserves _ undefined => apply preserves_undefined
  | |- preserves _ outOfFuel => apply preserves_outOfFuel
  | |- preserves _ (defined _) => apply preserves_defined
  | |- preserves _ get => apply preserves_get
  | |- preserves _ (modify _) => apply preserves_modify; intros ? ?
  | |- preserves _ (zoom _ _ _) => apply preserves_zoom; intros ? ? ?
  | |- preserves _ (onBufMgr _) => apply preserves_zoom; intros ? ? ?
  | |- preserves _ (_ ≫= _) => apply preserves_bind; [| intros ?]
  | |- preserves _ (if _ then _ else _) => case_match
  | |- preserves _ (match ?x with _ => _ end) => destruct x
  | |- preserves _ (let '(_, _) := ?x in _) => destruct x
  end.

(** ** The buffer manager when the next call succeeds *)

Lemma mayFail_ok bm : willSucceed bm → mayFail bm = (Ok tt, consumed bm).
Proof.
  unfold willSucceed, mayFail, consumed.
  destruct bm as [p n c [|[] f]]; simpl; done.
Qed.

Lemma readPage_ok pid bm :
  willSucceed bm →
  readPage pid bm = (Ok (fetch bm pid), pin pid (consumed bm)).
Proof. intros Hok. unfold readPage. munfold. by rewrite mayFail_ok. Qed.

(** ** Range scan *)

Section Scan.
Context {cap : NodeCapacity}.

Lemma currentLeaf_run s :
  currentLeaf s
  = (match currentPageData s with
     | Some pid =>
         match getLeafNodeFromPage (fetch (bufMgr s) pid) with
         | Some node => Ok node
         | None => Undefined
         end
     | None => Undefined
     end, s).
Proof.
  unfold currentLeaf, deref. munfold.
  destruct (currentPageData s) as [pid|]; simpl; [|done].
  rewrite set_bufMgr_id.
  by destruct (getLeafNodeFromPage (fetch (bufMgr s) pid)).
Qed.

Lemma currentLeaf_set_nextEntry s n node :
  currentLeaf s = (Ok node, s) →
  currentLeaf (set_nextEntry n s) = (Ok node, set_nextEntry n s).
Proof.
  rewrite !currentLeaf_run. simpl. intros Hleaf.
  injection Hleaf as Hleaf. by rewrite Hleaf.
Qed.

Lemma moveToNextPage_not_completed node s :
  (moveToNextPage node s).1 ≠ Throw IndexScanCompletedException.
Proof.
  unfold moveToNextPage, getPageByPid, readPage, unPinPage, mayFail.
  munfold. simpl.
  destruct (faults (bufMgr s)) as [|[] rest]; simpl; done.
Qed.

Lemma setNextEntry_not_completed s node :
  currentLeaf s = (Ok node, s) →
  (setNextEntry s).1 ≠ Throw IndexScanCompletedException.
Proof.
  intros Hleaf. unfold setNextEntry. munfold.
  rewrite (currentLeaf_set_nextEntry _ _ _ Hleaf).
  case_match; [apply moveToNextPage_not_completed | done].
Qed.

(** Within a leaf the scan advances by one slot. *)
Lemma setNextEntry_within_leaf s node :
  currentLeaf s = (Ok node, s) →
  S (nextEntry s) < INTARRAYLEAFSIZE →
  page_number (Leaf.ridArray node !!! S (nextEntry s)) ≠ 0 →
  setNextEntry s = (Ok tt, set_nextEntry (S (nextEntry s)) s).
Proof.
  intros Hleaf Hlt Hocc. unfold setNextEntry. munfold.
  rewrite (currentLeaf_set_nextEntry _ _ _ Hleaf). simpl.
  rewrite bool_decide_eq_false_2 by lia.
  by rewrite bool_decide_eq_false_2.
Qed.

Lemma scanNext_run s out node r k :
  scanExecuting s = true →
  currentLeaf s = (Ok node, s) →
  Leaf.ridArray node !! nextEntry s = Some r →
  Leaf.keyArray node !! nextEntry s = Some k →
  scanNext (s, out)
  = if bool_decide (scanDone s r k)
    then (Throw IndexScanCompletedException, (s, r))
    else let '(res, s') := setNextEntry s in (res, (s', r)).
Proof.
  intros Hexec Hleaf Hr Hk. unfold scanNext. munfold. simpl.
  rewrite Hexec. simpl. rewrite Hleaf, Hr. simpl.
  unfold scanDone.
  destruct (decide (r = emptyRid)) as [->|Hne].
  { rewrite bool_decide_eq_true_2; [done | by left]. }
  rewrite Hk. simpl.
  destruct (k >? highValInt s)%Z eqn:Hgt.
  { rewrite bool_decide_eq_true_2; [done | right; left; lia]. }
  destruct (k =? highValInt s)%Z eqn:Heq; simpl.
  - case_bool_decide as Hop.
    + rewrite bool_decide_eq_true_2; [done | right; right; split; [lia | done]].
    + rewrite bool_decide_eq_false_2; [simpl; by destruct (setNextEntry s) | ].
      intros [?|[?|[? ?]]]; [done | lia | done].
  - rewrite bool_decide_eq_false_2; [simpl; by destruct (setNextEntry s) | ].
    intros [?|[?|[? ?]]]; [done | lia | lia].
Qed.

Lemma endScan_run s :
  endScan s
  = if scanExecuting s
    then (Ok tt, set_bufMgr (unpin (currentPageNum s) (bufMgr s))
                   (set_scanExecuting false s))
    else (Throw ScanNotInitializedException, s).
Proof. unfold endScan, unPinPage. munfold. by destruct (scanExecuting s). Qed.

Lemma scanNext_writes s out node r :
  scanExecuting s = true →
  currentLeaf s = (Ok node, s) →
  Leaf.ridArray node !! nextEntry s = Some r →
  (scanNext (s, out)).2.2 = r
  ∧ (r = emptyRid →
     scanNext (s, out) = (Throw IndexScanCompletedException, (s, emptyRid))).
Proof.
  intros Hexec Hleaf Hr. unfold scanNext. munfold. simpl.
  rewrite Hexec. simpl. rewrite Hleaf, Hr. simpl. split.
  - destruct (decide (r = emptyRid)); [done|].
    destruct (Leaf.keyArray node !! nextEntry s) as [k|]; simpl; [|done].
    destruct (k >? highValInt s)%Z; [done|].
    destruct ((k =? highValInt s)%Z && bool_decide (highOp s = LT)); [done|].
    simpl. by destruct (setNextEntry s).
  - intros ->. by rewrite decide_True.
Qed.

Lemma moveToNextPage_ok node s :
  willSucceed (bufMgr s) →
  moveToNextPage node s
  = (Ok tt,
     set_nextEntry 0
       (set_currentPageData (Some (Leaf.rightSibPageNo node))
          (set_bufMgr
             (pin (Leaf.rightSibPageNo node)
                (consumed (unpin (currentPageNum s) (bufMgr s))))
             (set_currentPageNum (Leaf.rightSibPageNo node) s)))).
Proof.
  intros Hok. unfold moveToNextPage, getPageByPid, unPinPage. munfold. simpl.
  by rewrite readPage_ok.
Qed.

Lemma moveToNextPage_refused node s :
  ¬ willSucceed (bufMgr s) →
  (moveToNextPage node s).1 = Throw BufMgrException.
Proof.
  intros Hno. unfold moveToNextPage, getPageByPid, readPage, unPinPage, mayFail.
  munfold. simpl. unfold willSucceed in Hno.
  destruct (faults (bufMgr s)) as [|[] rest]; simpl in *;
    [by destruct Hno | done | by destruct Hno].
Qed.

(** Past the end of the leaf, or in front of a record id whose page number
    is 0, the scan advances to the right sibling. *)
Lemma setNextEntry_to_sibling s node :
  currentLeaf s = (Ok node, s) →
  INTARRAYLEAFSIZE ≤ S (nextEntry s)
  ∨ page_number (Leaf.ridArray node !!! S (nextEntry s)) = 0 →
  setNextEntry s = moveToNextPage node (set_nextEntry (S (nextEntry s)) s).
Proof.
  intros Hleaf Hend. unfold setNextEntry. munfold.
  rewrite (currentLeaf_set_nextEntry _ _ _ Hleaf). simpl.
  destruct Hend as [Hend|Hend].
  - by rewrite bool_decide_eq_true_2 by lia.
  - rewrite (bool_decide_eq_true_2 (page_number _ = 0)) by done.
    by rewrite orb_true_r.
Qed.

(** C5.  [scanNext] on an active scan whose current entry has record id [r]
    and key [k] throws [IndexScanCompletedException] exactly when [r] is the
    empty record id, or [k] exceeds [highValInt], or [k] equals [highValInt]
    and [highOp] is [LT].  In that case the index is left as it was, so the
    scan is still active and a following [endScan] returns normally.
    Otherwise [outRid] receives [r] and the scan advances.  When the next
    slot lies inside the leaf and holds a record id whose page number is
    not 0, [nextEntry] is one more and nothing else changes.  Else the scan
    goes to the right sibling: the leaf is unpinned, the sibling is read
    and pinned, [currentPageNum] and [currentPageData] are the sibling and
    [nextEntry] is 0; when the buffer manager fails that read, [scanNext]
    throws its exception, with [r] in [outRid].  Without an active scan both
    [scanNext] and [endScan] throw [ScanNotInitializedException]. *)
Theorem scanNext_completion s out :
  (scanExecuting s = false →
     scanNext (s, out) = (Throw ScanNotInitializedException, (s, out))
     ∧ endScan s = (Throw ScanNotInitializedException, s))
  ∧ (scanExecuting s = true →
     ∀ node r k,
       currentLeaf s = (Ok node, s) →
       Leaf.ridArray node !! nextEntry s = Some r →
       Leaf.keyArray node !! nextEntry s = Some k →
       ((scanNext (s, out)).1 = Throw IndexScanCompletedException
          ↔ scanDone s r k)
       ∧ (scanDone s r k →
            scanNext (s, out) = (Throw IndexScanCompletedException, (s, r))
            ∧ (endScan s).1 = Ok tt
            ∧ scanExecuting (endScan s).2 = false)
       ∧ (¬ scanDone s r k →
            let next := S (nextEntry s) in
            let sib := Leaf.rightSibPageNo node in
            (next < INTARRAYLEAFSIZE
             ∧ page_number (Leaf.ridArray node !!! next) ≠ 0 →
               scanNext (s, out) = (Ok tt, (set_nextEntry next s, r)))
            ∧ (INTARRAYLEAFSIZE ≤ next
               ∨ page_number (Leaf.ridArray node !!! next) = 0 →
                 (willSucceed (bufMgr s) →
                    scanNext (s, out)
                    = (Ok tt,
                       (set_nextEntry 0
                          (set_currentPageData (Some sib)
                             (set_bufMgr
                                (pin sib
                                   (consumed
                                      (unpin (currentPageNum s) (bufMgr s))))
                                (set_currentPageNum sib s))),
                        r)))
                 ∧ (¬ willSucceed (bufMgr s) →
                      (scanNext (s, out)).1 = Throw BufMgrException
                      ∧ (scanNext (s, out)).2.2 = r)))).
Proof.
  split.
  - intros Hidle. split.
    + unfold scanNext. munfold. simpl. by rewrite Hidle.
    + by rewrite endScan_run, Hidle.
  - intros Hexec node r k Hleaf Hr Hk.
    rewrite (scanNext_run s out node r k Hexec Hleaf Hr Hk).
    rewrite endScan_run, Hexec. simpl.
    case_bool_decide as Hdone; split_and!; try done.
    + split; [|done]. intros Hthrow. exfalso.
      apply (setNextEntry_not_completed s node Hleaf).
      by destruct (setNextEntry s).
    + intros _. split.
      * intros [Hin Hocc].
        by rewrite (setNextEntry_within_leaf s node Hleaf Hin Hocc).
      * intros Hend. rewrite (setNextEntry_to_sibling s node Hleaf Hend).
        split.
        -- intros Hok. rewrite moveToNextPage_ok by done. by destruct s.
        -- intros Hno.
           pose proof (moveToNextPage_refused node
                         (set_nextEntry (S (nextEntry s)) s) Hno) as Hthrow.
           destruct (moveToNextPage node (set_nextEntry (S (nextEntry s)) s))
             as [res s']. simpl in *. by subst res.
Qed.

(** C8.  On an active scan [scanNext] stores the record id of the current
    entry into [outRid] before any of its termination tests: whatever way
    the call ends, [outRid] holds that record id afterwards, and when the
    slot is empty the call throws [IndexScanCompletedException] with the
    empty record id in [outRid]. *)
Theorem scanNext_outRid_before_checks s out node r :
  scanExecuting s = true →
  currentLeaf s = (Ok node, s) →
  Leaf.ridArray node !! nextEntry s = Some r →
  (scanNext (s, out)).2.2 = r
  ∧ (r = emptyRid →
     scanNext (s, out) = (Throw IndexScanCompletedException, (s, emptyRid))).
Proof. apply scanNext_writes. Qed.

Lemma startScan_bad_operators fuel s lv lo hv ho :
  (lo ≠ GT ∧ lo ≠ GTE) ∨ (ho ≠ LT ∧ ho ≠ LTE) →
  startScan fuel lv lo hv ho s = (Throw BadOpcodesException, s).
Proof.
  intros Hbad. unfold startScan. munfold.
  destruct lo, ho; simpl; try done; exfalso;
    destruct Hbad as [[? ?]|[? ?]]; done.
Qed.

Lemma startScan_bad_range fuel s lv lo hv ho :
  lo = GT ∨ lo = GTE → ho = LT ∨ ho = LTE → (lv > hv)%Z →
  startScan fuel lv lo hv ho s
  = (Throw BadScanrangeException, set_highValInt hv (set_lowValInt lv s)).
Proof.
  intros Hlo Hho Hrange. unfold startScan. munfold.
  assert ((lv >? hv)%Z = true) as Hgt by lia.
  destruct Hlo as [-> | ->], Hho as [-> | ->]; simpl; by rewrite Hgt.
Qed.

Lemma startScan_valid fuel s lv lo hv ho :
  lo = GT ∨ lo = GTE → ho = LT ∨ ho = LTE → (lv ≤ hv)%Z →
  startScan fuel lv lo hv ho s
  = (initPageId fuel ≫= λ _, initEntryIndex) (scanArgs lv lo hv ho s).
Proof.
  intros Hlo Hho Hrange. unfold startScan. munfold.
  assert ((lv >? hv)%Z = false) as Hgt by lia.
  destruct Hlo as [-> | ->], Hho as [-> | ->]; simpl; by rewrite Hgt.
Qed.

Lemma initPageId_executing fuel : preserves executing (initPageId fuel).
Proof.
  induction fuel as [|fuel IH]; simpl; [apply preserves_outOfFuel|].
  repeat (preserves_step; try done).
Qed.

Lemma moveToNextPage_executing node : preserves executing (moveToNextPage node).
Proof. unfold moveToNextPage. repeat (preserves_step; try done). Qed.

Lemma initEntryIndex_executing : preserves executing initEntryIndex.
Proof.
  unfold initEntryIndex, currentLeaf.
  repeat (preserves_step; try done). apply moveToNextPage_executing.
Qed.

(** C9.  [startScan] sets [scanExecuting] before it descends the tree and
    positions the scan in a leaf.  So after any call that passed the
    operator and range validation, whether it returned or threw from the
    descent or the positioning, [scanExecuting] is set and a following
    [endScan] does not throw [ScanNotInitializedException]. *)
Theorem startScan_marks_executing fuel s lv lo hv ho :
  lo = GT ∨ lo = GTE → ho = LT ∨ ho = LTE → (lv ≤ hv)%Z →
  scanExecuting (startScan fuel lv lo hv ho s).2 = true
  ∧ (endScan (startScan fuel lv lo hv ho s).2).1
    ≠ Throw ScanNotInitializedException.
Proof.
  intros Hlo Hho Hrange.
  assert (executing (startScan fuel lv lo hv ho s).2) as Hexec.
  { rewrite startScan_valid by done.
    apply (preserves_bind executing); [apply initPageId_executing | |done].
    intros _. apply initEntryIndex_executing. }
  split; [done|]. rewrite endScan_run, Hexec. done.
Qed.


Lemma getLeafLen_new : getLeafLen newLeafNodeInt = 0.
Proof.
  unfold getLeafLen, newLeafNodeInt. simpl.
  by destruct INTARRAYLEAFSIZE as [|n].
Qed.

Lemma findScanIndexLeaf_new key incl :
  findScanIndexLeaf newLeafNodeInt key incl = None.
Proof. unfold findScanIndexLeaf. by rewrite getLeafLen_new. Qed.

Lemma BTreeIndex_new_empty fuel name bufMgrIn offset type raw :
  faults bufMgrIn = [] →
  ∃ s, BTreeIndex_new fuel name bufMgrIn offset type [] raw
       = (Ok (getIndexName name offset), s)
       ∧ Meta.rootPageNo (indexMetaInfo s) = 1
       ∧ pages (bufMgr s) = <[1 := LeafPage newLeafNodeInt]> (<[1 := BlankPage]> ∅)
       ∧ faults (bufMgr s) = [].
Proof.
  intros Hfaults. eexists. split.
  - unfold BTreeIndex_new, allocPage, setNode, unPinPage, mayFail.
    munfold. simpl. rewrite Hfaults. simpl. reflexivity.
  - done.
Qed.




End Scan.

(** *** The scan properties on concrete indexes *)

Lemma scanNext_completion_witness :
  scanNext (cap := cap4) (twoEntriesScan4, emptyRid)
  = (Ok tt, (set_nextEntry 1 twoEntriesScan4, mkRecordId 5 7))
  ∧ scanNext (cap := cap4) (oneEntryScan4, emptyRid)
    = (Ok tt,
       (set_nextEntry 0
          (set_currentPageData (Some 0)
             (set_bufMgr
                (pin 0 (consumed (unpin 1 (bufMgr oneEntryScan4))))
                (set_currentPageNum 0 oneEntryScan4))),
        mkRecordId 5 7)).
Proof.
  split.
  - destruct (scanNext_completion (cap := cap4) twoEntriesScan4 emptyRid)
      as [_ Hactive].
    destruct (Hactive eq_refl
                (Leaf.mk [42; 50; 0; 0]%Z
                   [mkRecordId 5 7; mkRecordId 5 8; emptyRid; emptyRid] 0)
                (mkRecordId 5 7) 42%Z)
      as (_ & _ & Hadvance);
      [vm_compute; reflexivity | reflexivity | reflexivity |].
    destruct Hadvance as [Hwithin _].
    + unfold scanDone. vm_compute. intros [H|[H|[H _]]]; discriminate H.
    + apply Hwithin. split; [vm_compute; lia | vm_compute; lia].
  - destruct (scanNext_completion (cap := cap4) oneEntryScan4 emptyRid)
      as [_ Hactive].
    destruct (Hactive eq_refl oneEntryLeaf4 (mkRecordId 5 7) 42%Z)
      as (_ & _ & Hadvance);
      [vm_compute; reflexivity | reflexivity | reflexivity |].
    destruct Hadvance as [_ Hsibling].
    + unfold scanDone. vm_compute. intros [H|[H|[H _]]]; discriminate H.
    + destruct Hsibling as [Hserved _]; [right; reflexivity|].
      apply Hserved. vm_compute. discriminate.
Defined.

Lemma scanNext_outRid_before_checks_witness :
  (scanNext (cap := cap4) (oneEntryScan4, emptyRid)).2.2 = mkRecordId 5 7.
Proof.
  apply (scanNext_outRid_before_checks (cap := cap4) oneEntryScan4 emptyRid
           oneEntryLeaf4 (mkRecordId 5 7));
    [reflexivity | vm_compute; reflexivity | reflexivity].
Defined.

(** C6.  [startScan] throws [BadOpcodesException] when [lowOp] is neither
    [GT] nor [GTE] or [highOp] is neither [LT] nor [LTE], and the index is
    then exactly as before the call.  The range is validated too late: with
    valid operators and a low value above the high value [startScan] throws
    [BadScanrangeException] after it has stored the two values into
    [lowValInt] and [highValInt].  The other members, [scanExecuting] among
    them, are as before the call, so a scan that was active goes on under
    the bounds of the rejected call.  On the leaf with the keys 10, 20, 30
    and 40 the scan of [10, 40] delivers the record ids of 10, 20 and 30 in
    three calls of [scanNext]; when [startScan(50, GTE, 20, LTE)] is
    rejected after the second, the third throws
    [IndexScanCompletedException], and the entries 30 and 40 are not
    delivered. *)
Theorem startScan_validates_range_late :
  (∀ (cap : NodeCapacity) fuel s lv lo hv ho,
     (lo ≠ GT ∧ lo ≠ GTE) ∨ (ho ≠ LT ∧ ho ≠ LTE) →
     startScan fuel lv lo hv ho s = (Throw BadOpcodesException, s))
  ∧ (∀ (cap : NodeCapacity) fuel s lv lo hv ho,
       lo = GT ∨ lo = GTE → ho = LT ∨ ho = LTE → (lv > hv)%Z →
       startScan fuel lv lo hv ho s
       = (Throw BadScanrangeException,
          set_highValInt hv (set_lowValInt lv s))
       ∧ scanExecuting (startScan fuel lv lo hv ho s).2 = scanExecuting s)
  ∧ (let r := startScan (cap := cap4) 1 5 GTE 3 LTE freshIndex4 in
     r.1 = Throw BadScanrangeException
     ∧ (lowValInt freshIndex4, highValInt freshIndex4) = (0, 0)%Z
     ∧ (lowValInt r.2, highValInt r.2) = (5, 3)%Z)
  ∧ (calls (cap := cap4) 1
       [CallStartScan 10 GTE 40 LTE; CallScanNext; CallScanNext; CallScanNext]
       (fullLeaf4, emptyRid)).1
    = [(Ok tt, emptyRid); (Ok tt, mkRecordId 1 1); (Ok tt, mkRecordId 1 2);
       (Ok tt, mkRecordId 1 3)]
  ∧ (calls (cap := cap4) 1
       [CallStartScan 10 GTE 40 LTE; CallScanNext; CallScanNext;
        CallStartScan 50 GTE 20 LTE; CallScanNext]
       (fullLeaf4, emptyRid)).1
    = [(Ok tt, emptyRid); (Ok tt, mkRecordId 1 1); (Ok tt, mkRecordId 1 2);
       (Throw BadScanrangeException, mkRecordId 1 2);
       (Throw IndexScanCompletedException, mkRecordId 1 3)].
Proof.
  split_and!.
  - intros cap. apply startScan_bad_operators.
  - intros cap fuel s lv lo hv ho Hlo Hho Hrange.
    by rewrite startScan_bad_range.
  - vm_compute. by split_and!.
  - vm_compute. reflexivity.
  - vm_compute. reflexivity.
Qed.

Lemma startScan_validates_range_late_witness :
  startScan (cap := cap4) 1 0 LT 100 LTE freshIndex4
  = (Throw BadOpcodesException, freshIndex4)
  ∧ startScan (cap := cap4) 1 5 GTE 3 LTE freshIndex4
    = (Throw BadScanrangeException,
       set_highValInt 3 (set_lowValInt 5 freshIndex4)).
Proof.
  destruct startScan_validates_range_late as (Hops & Hrange & _).
  split.
  - apply Hops. left. by split.
  - apply Hrange; [by right | by right | lia].
Defined.

Lemma startScan_marks_executing_witness :
  (startScan (cap := cap4) 1 0 GTE 100 LTE faultyIndex4).1
  = Throw BufMgrException
  ∧ scanExecuting (startScan (cap := cap4) 1 0 GTE 100 LTE faultyIndex4).2
    = true
  ∧ (endScan (startScan (cap := cap4) 1 0 GTE 100 LTE faultyIndex4).2).1
    ≠ Throw ScanNotInitializedException.
Proof.
  split; [vm_compute; reflexivity|].
  apply (startScan_marks_executing (cap := cap4) 1 faultyIndex4 0 GTE 100 LTE);
    [by right | by right | lia].
Defined.



(** ** The attribute type *)



Section Oblivious.
Context {cap : NodeCapacity}.

















End Oblivious.

(** ** Arrays and node operations *)

Section Arrays.
Context {A : Type} `{Inhabited A}.
Implicit Types a : list A.

Lemma shiftRight_length i index a : length (shiftRight i index a) = length a.
Proof.
  revert a. induction i as [|i IH]; intros a; cbn [shiftRight]; [done|].
  case_decide; [|done]. by rewrite IH, length_insert.
Qed.

Lemma shiftRight_lookup i index a j :
  i < length a →
  shiftRight i index a !! j
  = if decide (index < j ≤ i) then a !! (j - 1) else a !! j.
Proof.
  revert a. induction i as [|i IH]; intros a Hi; cbn [shiftRight].
  { by rewrite decide_False by lia. }
  destruct (decide (index < S i)) as [Hidx|Hidx].
  - rewrite IH by (rewrite length_insert; lia).
    destruct (decide (j = S i)) as [->|Hj].
    + rewrite decide_False by lia. rewrite decide_True by lia.
      rewrite list_lookup_insert_eq by lia. simpl. rewrite Nat.sub_0_r.
      symmetry. apply list_lookup_lookup_total_lt. lia.
    + destruct (decide (index < j ≤ i)).
      * rewrite decide_True by lia. by rewrite list_lookup_insert_ne by lia.
      * rewrite decide_False by lia. by rewrite list_lookup_insert_ne by lia.
  - by rewrite decide_False by lia.
Qed.

(** The array after the loop and the store [a[index] = x]. *)
Lemma shiftRight_insert i index a x :
  index ≤ i → i < length a →
  <[index := x]> (shiftRight i index a)
  = take index a ++ x :: take (i - index) (drop index a) ++ drop (S i) a.
Proof.
  intros Hidx Hi. apply list_eq. intros j.
  destruct (decide (j = index)) as [->|Hj].
  - rewrite list_lookup_insert_eq by (rewrite shiftRight_length; lia).
    rewrite lookup_app_r by (rewrite length_take; lia).
    rewrite length_take. by replace (index - index `min` length a) with 0 by lia.
  - rewrite list_lookup_insert_ne by done. rewrite shiftRight_lookup by done.
    destruct (decide (j < index)).
    + rewrite decide_False by lia. rewrite lookup_app_l by (rewrite length_take; lia).
      by rewrite lookup_take_lt.
    + rewrite lookup_app_r by (rewrite length_take; lia).
      rewrite length_take. replace (j - index `min` length a) with (S (j - index - 1)) by lia.
      simpl. case_decide.
      * rewrite lookup_app_l by (rewrite length_take, length_drop; lia).
        rewrite lookup_take_lt by lia. rewrite lookup_drop. f_equal. lia.
      * rewrite lookup_app_r by (rewrite length_take, length_drop; lia).
        rewrite length_take, length_drop. rewrite lookup_drop. f_equal. lia.
Qed.

Lemma memcpy_length (dst src : list A) from count :
  from + count ≤ length src → count ≤ length dst →
  length (memcpy dst src from count) = length dst.
Proof.
  intros Hsrc Hdst. unfold memcpy.
  rewrite length_app, length_take, !length_drop. lia.
Qed.

Lemma memset_length zero a from count :
  from + count ≤ length a → length (memset zero a from count) = length a.
Proof.
  intros Ha. unfold memset.
  rewrite !length_app, length_take, length_replicate, length_drop. lia.
Qed.

(** Splitting a full array of [n] slots at [index]: what stays and what
    moves into the zero-filled array of the new node. *)
Lemma memset_tail zero a n index :
  length a = n → index ≤ n →
  memset zero a index (n - index) = take index a ++ replicate (n - index) zero.
Proof.
  intros Hn Hidx. unfold memset.
  rewrite drop_ge by lia. by rewrite app_nil_r.
Qed.

Lemma memcpy_tail zero a n index :
  length a = n → index ≤ n →
  memcpy (replicate n zero) a index (n - index)
  = drop index a ++ replicate index zero.
Proof.
  intros Hn Hidx. unfold memcpy.
  rewrite take_ge by (rewrite length_drop; lia).
  rewrite drop_replicate. f_equal. f_equal. lia.
Qed.

End Arrays.

Section NodeArrays.
Context {cap : NodeCapacity}.

Lemma insertToLeafNode_loop_sib i index node :
  Leaf.rightSibPageNo (insertToLeafNode_loop i index node)
  = Leaf.rightSibPageNo node.
Proof.
  revert node. induction i as [|i IH]; intros node; simpl; [done|].
  case_decide; [by rewrite IH | done].
Qed.

Lemma insertToLeafNode_loop_arrays i index node :
  Leaf.keyArray (insertToLeafNode_loop i index node)
  = shiftRight i index (Leaf.keyArray node)
  ∧ Leaf.ridArray (insertToLeafNode_loop i index node)
    = shiftRight i index (Leaf.ridArray node).
Proof.
  revert node. induction i as [|i IH]; intros node;
    cbn [insertToLeafNode_loop shiftRight]; [done|].
  destruct (decide (index < S i)); [|done]. apply IH.
Qed.

(** [insertToLeafNode] on a leaf whose arrays have their declared length:
    the slots before [index] keep their content, slot [index] receives the
    new pair, the slots after it receive the content of their left
    neighbour, and what was in the last slot is dropped. *)
Lemma insertToLeafNode_arrays node index key rid :
  length (Leaf.keyArray node) = INTARRAYLEAFSIZE →
  length (Leaf.ridArray node) = INTARRAYLEAFSIZE →
  index < INTARRAYLEAFSIZE →
  insertToLeafNode node index key rid
  = Leaf.mk
      (take index (Leaf.keyArray node)
       ++ key :: take (INTARRAYLEAFSIZE - 1 - index)
                   (drop index (Leaf.keyArray node)))
      (take index (Leaf.ridArray node)
       ++ rid :: take (INTARRAYLEAFSIZE - 1 - index)
                   (drop index (Leaf.ridArray node)))
      (Leaf.rightSibPageNo node).
Proof.
  intros Hkeys Hrids Hidx. unfold insertToLeafNode.
  destruct (insertToLeafNode_loop_arrays (INTARRAYLEAFSIZE - 1) index node)
    as [-> ->].
  rewrite !shiftRight_insert by lia.
  rewrite (drop_ge (Leaf.keyArray node) (S (INTARRAYLEAFSIZE - 1))) by lia.
  rewrite (drop_ge (Leaf.ridArray node) (S (INTARRAYLEAFSIZE - 1))) by lia.
  rewrite !app_nil_r. f_equal. apply insertToLeafNode_loop_sib.
Qed.

(** [splitLeafNode] on such a leaf: the original keeps the slots before
    [index], the new leaf starts with the slots from [index] on, and both
    are filled up with zeros. *)
Lemma splitLeafNode_arrays node index :
  length (Leaf.keyArray node) = INTARRAYLEAFSIZE →
  length (Leaf.ridArray node) = INTARRAYLEAFSIZE →
  index ≤ INTARRAYLEAFSIZE →
  splitLeafNode node index
  = (Leaf.mk (take index (Leaf.keyArray node)
              ++ replicate (INTARRAYLEAFSIZE - index) 0%Z)
             (take index (Leaf.ridArray node)
              ++ replicate (INTARRAYLEAFSIZE - index) emptyRid)
             (Leaf.rightSibPageNo node),
     Leaf.mk (drop index (Leaf.keyArray node) ++ replicate index 0%Z)
             (drop index (Leaf.ridArray node) ++ replicate index emptyRid)
             0).
Proof.
  intros Hkeys Hrids Hidx. unfold splitLeafNode, newLeafNodeInt.
  cbn [Leaf.keyArray Leaf.ridArray Leaf.rightSibPageNo].
  by rewrite !memset_tail, !memcpy_tail.
Qed.

Lemma insertToNonLeafNode_loop_arrays i index node :
  NonLeaf.keyArray (insertToNonLeafNode_loop i index node)
  = shiftRight i index (NonLeaf.keyArray node)
  ∧ NonLeaf.pageNoArray (insertToNonLeafNode_loop i index node)
    = shiftRight (S i) (S index) (NonLeaf.pageNoArray node).
Proof.
  revert node. induction i as [|i IH]; intros node.
  { cbn [insertToNonLeafNode_loop shiftRight].
    by rewrite decide_False by lia. }
  cbn [insertToNonLeafNode_loop].
  destruct (decide (index < S i)) as [Hlt|Hge].
  - destruct (IH (NonLeaf.mk
                    (<[S i := NonLeaf.keyArray node !!! i]> (NonLeaf.keyArray node))
                    (<[S (S i) := NonLeaf.pageNoArray node !!! S i]>
                       (NonLeaf.pageNoArray node)))) as [-> ->].
    cbn [NonLeaf.keyArray NonLeaf.pageNoArray shiftRight].
    rewrite decide_True by lia. by rewrite (decide_True (P := S index < S (S i))) by lia.
  - cbn [shiftRight]. rewrite decide_False by lia.
    by rewrite (decide_False (P := S index < S (S i))) by lia.
Qed.

Lemma insertToNonLeafNode_arrays node index key pageID :
  length (NonLeaf.keyArray node) = INTARRAYNONLEAFSIZE →
  length (NonLeaf.pageNoArray node) = S INTARRAYNONLEAFSIZE →
  index < INTARRAYNONLEAFSIZE →
  insertToNonLeafNode node index key pageID
  = NonLeaf.mk
      (take index (NonLeaf.keyArray node)
       ++ key :: take (INTARRAYNONLEAFSIZE - 1 - index)
                   (drop index (NonLeaf.keyArray node)))
      (take (S index) (NonLeaf.pageNoArray node)
       ++ pageID :: take (INTARRAYNONLEAFSIZE - 1 - index)
                      (drop (S index) (NonLeaf.pageNoArray node))).
Proof.
  intros Hkeys Hpages Hidx. unfold insertToNonLeafNode.
  destruct (insertToNonLeafNode_loop_arrays (INTARRAYNONLEAFSIZE - 1) index node)
    as [-> ->].
  rewrite !shiftRight_insert by lia.
  rewrite (drop_ge (NonLeaf.keyArray node) (S (INTARRAYNONLEAFSIZE - 1))) by lia.
  rewrite (drop_ge (NonLeaf.pageNoArray node) (S (S (INTARRAYNONLEAFSIZE - 1))))
    by lia.
  by rewrite !app_nil_r.
Qed.

Lemma splitNonLeafNode_arrays node index (moveKeyUp : bool) :
  length (NonLeaf.keyArray node) = INTARRAYNONLEAFSIZE →
  length (NonLeaf.pageNoArray node) = S INTARRAYNONLEAFSIZE →
  index < INTARRAYNONLEAFSIZE →
  let first := if moveKeyUp then index else S index in
  splitNonLeafNode node index moveKeyUp
  = (NonLeaf.mk (take index (NonLeaf.keyArray node)
                 ++ replicate (INTARRAYNONLEAFSIZE - index) 0%Z)
                (take (S index) (NonLeaf.pageNoArray node)
                 ++ replicate (INTARRAYNONLEAFSIZE - index) 0),
     NonLeaf.mk (drop first (NonLeaf.keyArray node) ++ replicate first 0%Z)
                (drop (S index) (NonLeaf.pageNoArray node)
                 ++ replicate (S index) 0)).
Proof.
  intros Hkeys Hpages Hidx first. unfold splitNonLeafNode, newNonLeafNodeInt.
  cbn [NonLeaf.keyArray NonLeaf.pageNoArray].
  assert (memset 0%Z (NonLeaf.keyArray node) index (INTARRAYNONLEAFSIZE - index)
          = take index (NonLeaf.keyArray node)
            ++ replicate (INTARRAYNONLEAFSIZE - index) 0%Z) as ->.
  { apply memset_tail; [done | lia]. }
  assert (memset 0 (NonLeaf.pageNoArray node) (index + 1)
            (INTARRAYNONLEAFSIZE - index)
          = take (S index) (NonLeaf.pageNoArray node)
            ++ replicate (INTARRAYNONLEAFSIZE - index) 0) as ->.
  { rewrite Nat.add_1_r.
    apply (memset_tail 0 _ (S INTARRAYNONLEAFSIZE) (S index)); [done | lia]. }
  assert (memcpy (replicate (S INTARRAYNONLEAFSIZE) 0) (NonLeaf.pageNoArray node)
            (index + 1) (INTARRAYNONLEAFSIZE - index)
          = drop (S index) (NonLeaf.pageNoArray node) ++ replicate (S index) 0)
    as ->.
  { rewrite Nat.add_1_r.
    apply (memcpy_tail 0 _ (S INTARRAYNONLEAFSIZE) (S index)); [done | lia]. }
  f_equal. f_equal. subst first. destruct moveKeyUp.
  - apply memcpy_tail; [done | lia].
  - rewrite Nat.add_1_r, <- Nat.sub_add_distr, Nat.add_1_r.
    apply memcpy_tail; [done | lia].
Qed.

End NodeArrays.

Section Search.
Context {cap : NodeCapacity}.

Lemma findArrayIndex_loop_range arr key incl n i r :
  findArrayIndex_loop arr key incl n i = Some r → i ≤ r < i + n.
Proof.
  revert i. induction n as [|n IH]; intros i; cbn [findArrayIndex_loop]; [done|].
  case_match.
  - intros [= <-]. lia.
  - intros Hr. apply IH in Hr. lia.
Qed.

Lemma findArrayIndex_range arr len key incl r :
  findArrayIndex arr len key incl = Some r → r < len.
Proof. intros Hr. apply findArrayIndex_loop_range in Hr. lia. Qed.

Lemma getLeafLen_loop_range rids n i : i ≤ getLeafLen_loop rids n i ≤ i + n.
Proof.
  revert i. induction n as [|n IH]; intros i; cbn [getLeafLen_loop]; [lia|].
  case_decide; [lia|]. specialize (IH (S i)). lia.
Qed.

Lemma getLeafLen_le node : getLeafLen node ≤ INTARRAYLEAFSIZE.
Proof.
  unfold getLeafLen.
  pose proof (getLeafLen_loop_range (Leaf.ridArray node) INTARRAYLEAFSIZE 0). lia.
Qed.

Lemma getNonLeafLen_loop_range pages n i :
  i ≤ getNonLeafLen_loop pages n i ≤ i + n.
Proof.
  revert i. induction n as [|n IH]; intros i; cbn [getNonLeafLen_loop]; [lia|].
  case_decide; [lia|]. specialize (IH (S i)). lia.
Qed.

Lemma getNonLeafLen_range node :
  1 ≤ getNonLeafLen node ≤ S INTARRAYNONLEAFSIZE.
Proof.
  unfold getNonLeafLen.
  pose proof (getNonLeafLen_loop_range (NonLeaf.pageNoArray node)
                INTARRAYNONLEAFSIZE 1). lia.
Qed.

Lemma findInsertionIndexLeaf_le node key :
  findInsertionIndexLeaf node key ≤ INTARRAYLEAFSIZE.
Proof.
  unfold findInsertionIndexLeaf. pose proof (getLeafLen_le node).
  destruct (findArrayIndex _ _ _ _) as [r|] eqn:Hr; [|done].
  apply findArrayIndex_range in Hr. lia.
Qed.

Lemma findIndexNonLeaf_le node key :
  findIndexNonLeaf node key ≤ INTARRAYNONLEAFSIZE.
Proof.
  unfold findIndexNonLeaf. pose proof (getNonLeafLen_range node).
  destruct (findArrayIndex _ _ _ _) as [r|] eqn:Hr; [|lia].
  apply findArrayIndex_range in Hr. lia.
Qed.

(** With at least two slots per leaf the indices of the leaf split stay
    inside the arrays. *)
Lemma leaf_split_in_range index :
  2 ≤ INTARRAYLEAFSIZE → index ≤ INTARRAYLEAFSIZE →
  let middleIndex := INTARRAYLEAFSIZE / 2 in
  let insertToLeft := bool_decide (index < middleIndex) in
  middleIndex + (if insertToLeft then 1 else 0) ≤ INTARRAYLEAFSIZE
  ∧ (if insertToLeft then index else index - middleIndex) < INTARRAYLEAFSIZE.
Proof.
  intros HL Hidx middleIndex insertToLeft.
  assert (1 ≤ middleIndex ∧ middleIndex + 1 ≤ INTARRAYLEAFSIZE) as [? ?].
  { subst middleIndex. split.
    - apply (Nat.div_le_lower_bound _ 2 1); lia.
    - pose proof (Nat.div_lt INTARRAYLEAFSIZE 2). lia. }
  subst insertToLeft. case_bool_decide; lia.
Qed.

(** With at least three key slots per non-leaf the indices of the non-leaf
    split stay inside the arrays. *)
Lemma non_leaf_split_in_range index :
  3 ≤ INTARRAYNONLEAFSIZE → index ≤ INTARRAYNONLEAFSIZE →
  let middleIndex := (INTARRAYNONLEAFSIZE - 1) / 2 in
  let insertToLeft := bool_decide (index < middleIndex) in
  let insertIndex := if insertToLeft then index else index - middleIndex in
  middleIndex + (if insertToLeft then 1 else 0) < INTARRAYNONLEAFSIZE
  ∧ insertIndex < INTARRAYNONLEAFSIZE.
Proof.
  intros HN Hidx middleIndex insertToLeft insertIndex.
  assert (1 ≤ middleIndex ∧ middleIndex + 1 < INTARRAYNONLEAFSIZE) as [? ?].
  { subst middleIndex. split.
    - apply (Nat.div_le_lower_bound _ 2 1); lia.
    - pose proof (Nat.div_lt (INTARRAYNONLEAFSIZE - 1) 2). lia. }
  subst insertIndex insertToLeft. case_bool_decide; lia.
Qed.
End Search.

(** ** Insertion *)

Lemma fetch_store pid pid' page bm :
  fetch (store pid page bm) pid'
  = if decide (pid = pid') then page else fetch bm pid'.
Proof. unfold fetch, store. simpl. rewrite lookup_insert. by case_decide. Qed.

Lemma fetch_store_eq pid page bm : fetch (store pid page bm) pid = page.
Proof. rewrite fetch_store. by rewrite decide_True. Qed.

Lemma fetch_store_ne pid pid' page bm :
  pid ≠ pid' → fetch (store pid page bm) pid' = fetch bm pid'.
Proof. intros. rewrite fetch_store. by rewrite decide_False. Qed.

Lemma fetch_pin pid pid' bm : fetch (pin pid bm) pid' = fetch bm pid'.
Proof. done. Qed.

Lemma fetch_unpin pid pid' bm : fetch (unpin pid bm) pid' = fetch bm pid'.
Proof. done. Qed.

Lemma fetch_withNewPage page bm pid :
  fetch (withNewPage page bm) pid
  = if decide (numPages bm = pid) then page else fetch bm pid.
Proof.
  unfold withNewPage. rewrite fetch_unpin, fetch_store. case_decide; [done|].
  rewrite fetch_pin. unfold fetch. simpl. by rewrite lookup_insert_ne.
Qed.

Lemma faults_store pid page bm : faults (store pid page bm) = faults bm.
Proof. done. Qed.

Lemma faults_pin pid bm : faults (pin pid bm) = faults bm.
Proof. done. Qed.

Lemma faults_unpin pid bm : faults (unpin pid bm) = faults bm.
Proof. done. Qed.

Lemma faults_withNewPage page bm : faults (withNewPage page bm) = faults bm.
Proof. done. Qed.

Lemma numPages_store pid page bm : numPages (store pid page bm) = numPages bm.
Proof. done. Qed.

Lemma numPages_pin pid bm : numPages (pin pid bm) = numPages bm.
Proof. done. Qed.

Lemma numPages_unpin pid bm : numPages (unpin pid bm) = numPages bm.
Proof. done. Qed.

Lemma numPages_withNewPage page bm :
  numPages (withNewPage page bm) = S (numPages bm).
Proof. done. Qed.

Create Rewrite HintDb bufmgr.

#[global] Hint Rewrite fetch_store_eq fetch_pin fetch_unpin faults_store
  faults_pin faults_unpin faults_withNewPage numPages_store numPages_pin
  numPages_unpin numPages_withNewPage : bufmgr.

Lemma mayFail_reliable bm : faults bm = [] → mayFail bm = (Ok tt, bm).
Proof. intros Hf. unfold mayFail. by rewrite Hf. Qed.

Lemma readPage_reliable pid bm :
  faults bm = [] → readPage pid bm = (Ok (fetch bm pid), pin pid bm).
Proof. intros Hf. unfold readPage. munfold. by rewrite mayFail_reliable. Qed.

Lemma allocPage_reliable bm :
  faults bm = [] →
  allocPage bm
  = (Ok (numPages bm),
     pin (numPages bm)
       (mkBufMgr (<[numPages bm := BlankPage]> (pages bm)) (S (numPages bm))
                 (pinCnt bm) (faults bm))).
Proof. intros Hf. unfold allocPage. munfold. by rewrite mayFail_reliable. Qed.

Lemma readPage_keeps_reliable pid : preserves reliable (readPage pid).
Proof. intros bm Hf. by rewrite readPage_reliable. Qed.

(** *** Page numbers in use *)

Section Triples.
Context {S : Type}.
Implicit Types (P E : S → Prop).

Lemma triple_bind {A B} P (m : M S A) (k : A → M S B) Q1 Q E :
  triple P m Q1 E → (∀ a, triple (Q1 a) (k a) Q E) → triple P (m ≫= k) Q E.
Proof.
  intros Hm Hk s Hs. specialize (Hm s Hs).
  unfold mbind, M_bind, bind.
  destruct (m s) as [[a| | |] s']; try done. by apply Hk.
Qed.

Lemma triple_ret {A} P (a : A) (Q : A → S → Prop) E :
  (∀ s, P s → Q a s) → triple P (mret a) Q E.
Proof. intros HQ s Hs. by apply HQ. Qed.

Lemma triple_throw {A} P e (Q : A → S → Prop) E :
  (∀ s, P s → E s) → triple P (throw e) Q E.
Proof. intros HE s Hs. by apply HE. Qed.

Lemma triple_undefined {A} P (Q : A → S → Prop) E :
  (∀ s, P s → E s) → triple P undefined Q E.
Proof. intros HE s Hs. by apply HE. Qed.

Lemma triple_outOfFuel {A} P (Q : A → S → Prop) E :
  (∀ s, P s → E s) → triple P outOfFuel Q E.
Proof. intros HE s Hs. by apply HE. Qed.

Lemma triple_defined {A} P (o : option A) (Q : A → S → Prop) E :
  (∀ s, P s → E s) → (∀ a s, o = Some a → P s → Q a s) →
  triple P (defined o) Q E.
Proof. intros HE HQ s Hs. destruct o; simpl; [by apply HQ | by apply HE]. Qed.

Lemma triple_modify P f (Q : unit → S → Prop) E :
  (∀ s, P s → Q tt (f s)) → triple P (modify f) Q E.
Proof. intros HQ s Hs. by apply HQ. Qed.

Lemma triple_weaken {A} P P' (m : M S A) (Q Q' : A → S → Prop) E E' :
  triple P' m Q' E' →
  (∀ s, P s → P' s) → (∀ a s, Q' a s → Q a s) → (∀ s, E' s → E s) →
  triple P m Q E.
Proof.
  intros Hm HP HQ HE s Hs. specialize (Hm s (HP s Hs)).
  destruct (m s) as [[a| | |] s']; auto.
Qed.

Lemma triple_pure {A} (φ : Prop) P (m : M S A) (Q : A → S → Prop) E :
  (φ → triple P m Q E) → triple (λ s, φ ∧ P s) m Q E.
Proof. intros Hm s [Hφ Hs]. by apply Hm. Qed.

Lemma triple_ret_bind {A B} P (a : A) (k : A → M S B) Q E :
  triple P (k a) Q E → triple P (mret a ≫= k) Q E.
Proof. intros Hk s Hs. exact (Hk s Hs). Qed.

Lemma triple_false {A} (m : M S A) (Q : A → S → Prop) E :
  triple (λ _, False) m Q E.
Proof. by intros s Hs. Qed.
End Triples.

Lemma covers_mono D D' bm : D' ⊆ D → covers D bm → covers D' bm.
Proof.
  intros Hsub [Hc HD]. split; [done|]. intros pid Hpid. apply HD. set_solver.
Qed.

Lemma covers_store D pid page bm :
  pid ∈ D → page ≠ BlankPage → covers D bm → covers D (store pid page bm).
Proof.
  intros Hpid Hpage [[Hn Hc] HD]. destruct (HD pid Hpid) as [old Hold].
  split; [split; [done|]|].
  - intros p q. unfold store. simpl. rewrite lookup_insert.
    case_decide as Heq; [|apply Hc].
    intros [= <-]. subst p. split; [|done]. by apply (Hc pid old).
  - intros p Hp. unfold store. simpl. rewrite lookup_insert.
    case_decide; [done | by apply HD].
Qed.

Lemma covers_in_use D pid bm :
  covers D bm → is_Some (pages bm !! pid) → covers (D ∪ {[pid]}) bm.
Proof.
  intros [Hc HD] Hpid. split; [done|]. intros p Hp.
  apply elem_of_union in Hp as [Hp|Hp]; [by apply HD|].
  apply elem_of_singleton in Hp. by subst p.
Qed.

Lemma covers_withNewPage D page bm :
  page ≠ BlankPage → covers D bm →
  covers (D ∪ {[numPages bm]}) (withNewPage page bm).
Proof.
  intros Hpage [[Hn Hc] HD]. split; [split|].
  - simpl. lia.
  - intros p q. unfold withNewPage, unpin, store, pin. simpl.
    rewrite lookup_insert. case_decide as Heq.
    + intros [= <-]. subst p. split; [lia | done].
    + rewrite lookup_insert_ne by done. intros Hq.
      destruct (Hc p q Hq). split; [lia | done].
  - intros p Hp. unfold withNewPage, unpin, store, pin. simpl.
    rewrite lookup_insert. case_decide; [done|].
    rewrite lookup_insert_ne by done.
    apply elem_of_union in Hp as [Hp|Hp]; [by apply HD|].
    apply elem_of_singleton in Hp. by subst p.
Qed.

Lemma fetch_in_use bm pid :
  fetch bm pid ≠ BlankPage → is_Some (pages bm !! pid).
Proof.
  intros Hpage. unfold fetch in Hpage.
  by destruct (pages bm !! pid).
Qed.

Lemma fetch_not_in_use bm pid :
  consistent bm → fetch bm pid = BlankPage → pages bm !! pid = None.
Proof.
  intros [_ Hc] Hpage. unfold fetch in Hpage.
  destruct (pages bm !! pid) as [page|] eqn:Hp; [|done].
  simpl in Hpage. subst page. by destruct (Hc pid BlankPage Hp).
Qed.

Lemma readPage_triple D pid :
  triple (covers D) (readPage pid)
    (λ page bm, covers D bm ∧ page = fetch bm pid) (covers D).
Proof.
  intros bm Hbm. unfold readPage, mayFail. munfold.
  destruct (faults bm) as [|[] rest]; simpl; done.
Qed.

Section Consistency.
Context {cap : NodeCapacity}.

Lemma createPageForNode_triple D page :
  page ≠ BlankPage →
  triple (covers D) (createPageForNode page)
    (λ pid bm, covers (D ∪ {[pid]}) bm) (covers D).
Proof.
  intros Hpage bm Hbm.
  unfold createPageForNode, allocPage, setNode, unPinPage, mayFail. munfold.
  destruct (faults bm) as [|[] rest] eqn:Hf; simpl; try done.
  - pose proof (covers_withNewPage D page bm Hpage Hbm) as Hnew.
    unfold withNewPage in Hnew. by rewrite Hf in Hnew.
  - pose proof (covers_withNewPage D page (consumed bm) Hpage Hbm) as Hnew.
    unfold withNewPage, consumed in Hnew. simpl in Hnew. by rewrite Hf in Hnew.
Qed.

Lemma setNode_triple D pid page :
  pid ∈ D → page ≠ BlankPage →
  triple (covers D) (setNode pid page) (λ _, covers D) (covers D).
Proof.
  intros Hpid Hpage. apply triple_modify. intros s Hs. by apply covers_store.
Qed.

Lemma unPinPage_triple D pid dirty :
  triple (covers D) (unPinPage pid dirty) (λ _, covers D) (covers D).
Proof. by apply triple_modify. Qed.

Lemma readPage_covers D D' pid :
  D' ⊆ D →
  triple (covers D) (readPage pid) (λ _, covers D) (covers D').
Proof.
  intros Hsub. eapply triple_weaken; [apply (readPage_triple D pid) | done | |].
  - by intros ? ? [Hs _].
  - intros s. by apply covers_mono.
Qed.

Lemma triple_exit_mono {A} D D' (m : M BufMgr A) Q :
  D' ⊆ D → triple (covers D) m Q (covers D) → triple (covers D) m Q (covers D').
Proof.
  intros Hsub Hm. eapply triple_weaken; [exact Hm | done | done |].
  intros s. by apply covers_mono.
Qed.

Lemma insertToLeafPage_triple D node pid key rid midVal :
  pid ∈ D →
  triple (covers D) (insertToLeafPage (LeafPage node) pid key rid midVal)
    (λ _, covers D) (covers D).
Proof.
  intros Hpid. unfold insertToLeafPage, getPageByPid.
  apply (triple_bind _ _ _ (λ _, covers D));
    [apply triple_defined; [done|]; by intros a s _ Hs|].
  intros origNode. cbv beta.
  case_match.
  { apply (triple_bind _ _ _ (λ _, covers D)); [by apply setNode_triple|].
    intros _.
    apply (triple_bind _ _ _ (λ _, covers D)); [apply unPinPage_triple|].
    intros _. by apply triple_ret. }
  destruct (splitLeafNode _ _) as [left0 right0].
  case_match; cbv beta iota.
  all: apply (triple_bind _ _ _ (λ _, covers D)); [by apply setNode_triple|];
    intros _.
  all: apply (triple_bind _ _ _ (λ pid, covers (D ∪ {[pid]})));
    [by apply createPageForNode_triple|]; intros newPageId.
  all: apply (triple_weaken _ (covers (D ∪ {[newPageId]})) _ _
                (λ _, covers (D ∪ {[newPageId]})) _ (covers D));
    [| done | intros ? s; apply covers_mono; set_solver | done].
  all: apply (triple_bind _ _ _ (λ _, covers (D ∪ {[newPageId]})));
    [apply readPage_covers; set_solver|]; intros _.
  all: apply triple_exit_mono; [set_solver|].
  all: apply (triple_bind _ _ _ (λ _, covers (D ∪ {[newPageId]})));
    [apply setNode_triple; [set_solver | done]|]; intros _.
  all: apply (triple_bind _ _ _ (λ _, covers (D ∪ {[newPageId]})));
    [apply setNode_triple; [set_solver | done]|]; intros _.
  all: apply (triple_bind _ _ _ (λ _, covers (D ∪ {[newPageId]})));
    [apply unPinPage_triple|]; intros _.
  all: apply (triple_bind _ _ _ (λ _, covers (D ∪ {[newPageId]})));
    [apply unPinPage_triple|]; intros _.
  all: by apply triple_ret.
Qed.

Lemma zero_node_child index :
  NonLeaf.pageNoArray newNonLeafNodeInt !!! index = 0.
Proof.
  unfold newNonLeafNodeInt. cbn [NonLeaf.pageNoArray].
  destruct (decide (index < S INTARRAYNONLEAFSIZE)) as [Hlt|Hge].
  - by apply list_lookup_total_correct, lookup_replicate_2.
  - rewrite list_lookup_total_alt, lookup_ge_None_2; [done|].
    rewrite length_replicate. lia.
Qed.

Lemma consistent_zero_free bm : consistent bm → pages bm !! 0 = None.
Proof.
  intros [_ Hc]. destruct (pages bm !! 0) as [page|] eqn:Hp; [|done].
  destruct (Hc 0 page Hp). lia.
Qed.

(** From a page that is not in use the descent never comes back with a
    result: the zero-filled page is a non-leaf whose children are all page
    0, which is not in use either. *)
Lemma insertHelper_blank fuel D pid key rid midVal :
  triple (λ bm, covers D bm ∧ pages bm !! pid = None)
    (insertHelper fuel pid key rid midVal) (λ _ _, False) (covers D).
Proof.
  revert pid midVal. induction fuel as [|fuel IH]; intros pid midVal;
    cbn [insertHelper]; [by apply triple_outOfFuel; intros s [Hs _]|].
  unfold getPageByPid.
  apply (triple_bind _ _ _
           (λ page bm, covers D bm ∧ pages bm !! 0 = None ∧ page = BlankPage)).
  { intros bm [Hbm Hfree]. unfold readPage, mayFail. munfold.
    assert (fetch bm pid = BlankPage) as Hblank by (unfold fetch; by rewrite Hfree).
    pose proof (consistent_zero_free bm (proj1 Hbm)) as Hzero.
    destruct (faults bm) as [|[] rest]; simpl; try done. }
  intros page.
  apply (triple_weaken _ (λ bm, page = BlankPage
                                ∧ covers D bm ∧ pages bm !! 0 = None)
           _ _ (λ _ _, False) _ (covers D));
    [| by intros s (? & ? & ?) | done | done].
  apply triple_pure. intros ->. cbn [isLeaf getNonLeafNodeFromPage defined].
  apply triple_ret_bind. rewrite zero_node_child.
  apply (triple_bind _ _ _ (λ _ _, False)); [apply IH|].
  intros [newChildPageId newChildMidVal]. apply triple_false.
Qed.

Lemma deref_triple D pid :
  triple (covers D) (deref pid)
    (λ page bm, covers D bm ∧ page = fetch bm pid) (covers D).
Proof. by intros bm Hbm. Qed.

(** The descent keeps the buffer manager consistent and every page of [D]
    in use, however it ends. *)
Lemma insertHelper_triple fuel D pid key rid midVal :
  triple (covers D) (insertHelper fuel pid key rid midVal)
    (λ _, covers D) (covers D).
Proof.
  revert D pid midVal. induction fuel as [|fuel IH]; intros D pid midVal;
    cbn [insertHelper]; [by apply triple_outOfFuel|].
  unfold getPageByPid.
  apply (triple_bind _ _ _ (λ page bm, covers D bm ∧ page = fetch bm pid));
    [apply readPage_triple|].
  intros page. destruct page as [|node|node]; cbn [isLeaf].
  - (* the page is not in use *)
    cbn [getNonLeafNodeFromPage defined]. apply triple_ret_bind.
    rewrite zero_node_child.
    apply (triple_bind _ _ _ (λ _ _, False)).
    + eapply triple_weaken; [apply (insertHelper_blank fuel D 0) | | done | done].
      intros bm [Hbm _]. split; [done|]. apply consistent_zero_free, Hbm.
    + intros [newChildPageId newChildMidVal]. apply triple_false.
  - (* a leaf *)
    apply (triple_weaken _ (covers (D ∪ {[pid]})) _ _
             (λ _, covers (D ∪ {[pid]})) _ (covers (D ∪ {[pid]}))).
    + apply insertToLeafPage_triple. set_solver.
    + intros bm [Hbm Hpage]. apply covers_in_use; [done|].
      apply fetch_in_use. by rewrite <- Hpage.
    + intros _ bm. apply covers_mono. set_solver.
    + intros bm. apply covers_mono. set_solver.
  - (* a non-leaf *)
    apply (triple_weaken _ (covers (D ∪ {[pid]})) _ _
             (λ _, covers (D ∪ {[pid]})) _ (covers (D ∪ {[pid]})));
      [| intros bm [Hbm Hpage]; apply covers_in_use; [done|];
         apply fetch_in_use; by rewrite <- Hpage
       | intros _ bm; apply covers_mono; set_solver
       | intros bm; apply covers_mono; set_solver].
    assert (pid ∈ D ∪ {[pid]}) as Hpid by set_solver.
    generalize dependent (D ∪ {[pid]}). clear D. intros D Hpid.
    cbn [getNonLeafNodeFromPage defined]. apply triple_ret_bind.
    apply (triple_bind _ _ _ (λ _, covers D)); [apply IH|].
    intros [newChildPageId newChildMidVal]. cbv beta iota.
    case_decide.
    { apply (triple_bind _ _ _ (λ _, covers D)); [apply unPinPage_triple|].
      intros _. by apply triple_ret. }
    apply (triple_bind _ _ _ (λ _, covers D));
      [eapply triple_weaken; [apply (deref_triple D pid) | done | | done];
       by intros ? ? [? _]|].
    intros origPage.
    apply (triple_bind _ _ _ (λ _, covers D));
      [apply triple_defined; [done|]; by intros a s _ Hs|].
    intros origNode. cbv beta zeta.
    case_match.
    { apply (triple_bind _ _ _ (λ _, covers D)); [by apply setNode_triple|].
      intros _.
      apply (triple_bind _ _ _ (λ _, covers D)); [apply unPinPage_triple|].
      intros _. by apply triple_ret. }
    destruct (splitNonLeafNode _ _ _) as [left0 right0]. cbv beta iota.
    match goal with
    | |- context [let '(_, _) := ?pair in _] => destruct pair as [left right]
    end.
    cbv beta iota.
    apply (triple_bind _ _ _ (λ _, covers D)); [by apply setNode_triple|].
    intros _.
    apply (triple_bind _ _ _ (λ _, covers D)); [apply unPinPage_triple|].
    intros _.
    apply (triple_bind _ _ _ (λ pid, covers (D ∪ {[pid]})));
      [by apply createPageForNode_triple|].
    intros newPageId. apply triple_ret. intros bm. apply covers_mono. set_solver.
Qed.

Lemma insertHelper_consistent fuel pid key rid midVal bm :
  consistent bm → consistent (insertHelper fuel pid key rid midVal bm).2.
Proof.
  intros Hbm.
  pose proof (insertHelper_triple fuel ∅ pid key rid midVal bm) as Htriple.
  destruct (insertHelper fuel pid key rid midVal bm) as [[r| | |] bm'];
    apply Htriple; by split.
Qed.

(** The index built by the constructor and every index reached from it by
    insertions has a consistent buffer manager. *)
Lemma insertEntry_consistent fuel key rid :
  preserves (λ s, consistent (bufMgr s)) (insertEntry fuel key rid).
Proof.
  intros s Hs. unfold insertEntry, allocPage, setNode, unPinPage, mayFail.
  munfold.
  pose proof (insertHelper_consistent fuel
                (Meta.rootPageNo (indexMetaInfo s)) key rid 0 (bufMgr s) Hs)
    as Hhelper.
  destruct (insertHelper fuel _ key rid 0%Z (bufMgr s))
    as [[[newPageId midVal]| | |] bm1]; try done.
  cbn [snd] in Hhelper. cbv beta iota. case_decide; [done|].
  cbn [bufMgr set_bufMgr].
  match goal with
  | |- context [NonLeafPage ?node] =>
      pose proof (covers_withNewPage ∅ (NonLeafPage node)) as Hnew
  end.
  destruct (faults bm1) as [|[] rest] eqn:Hf; cbn; try done.
  - specialize (Hnew bm1). unfold withNewPage in Hnew. rewrite Hf in Hnew.
    by apply Hnew.
  - specialize (Hnew (consumed bm1)). unfold withNewPage, consumed in Hnew.
    cbn in Hnew. rewrite Hf in Hnew. by apply Hnew.
Qed.

Lemma insertEntries_consistent fuel entries :
  preserves (λ s, consistent (bufMgr s)) (insertEntries fuel entries).
Proof.
  induction entries as [|[key rid] rest IH]; cbn [insertEntries];
    [apply preserves_mret|].
  apply preserves_bind; [apply insertEntry_consistent | by intros _].
Qed.

Lemma bulkLoad_consistent fuel offset relation :
  preserves (λ s, consistent (bufMgr s)) (bulkLoad fuel offset relation).
Proof.
  induction relation as [|[rid record] rest IH]; cbn [bulkLoad];
    [apply preserves_mret|].
  apply preserves_bind; [apply preserves_defined|]. intros key.
  apply preserves_bind; [apply insertEntry_consistent | by intros _].
Qed.

Lemma BTreeIndex_new_consistent fuel name bufMgrIn offset type relation raw :
  consistent
    (bufMgr (BTreeIndex_new fuel name bufMgrIn offset type relation raw).2).
Proof.
  unfold BTreeIndex_new, allocPage, setNode, unPinPage, mayFail. munfold.
  cbn [bufMgr set_bufMgr set_attrByteOffset set_attributeType
         set_indexMetaInfo].
  assert (consistent (newBlobFile bufMgrIn)) as Hnew.
  { split; [cbn; lia|]. intros pid page. cbn. by rewrite lookup_empty. }
  pose proof (covers_withNewPage ∅ (LeafPage newLeafNodeInt)) as Hroot.
  destruct (faults (newBlobFile bufMgrIn)) as [|[] rest] eqn:Hf; cbn; try done.
  all: match goal with
       | |- context [bulkLoad ?f ?o ?r ?s] =>
           pose proof (bulkLoad_consistent f o r s) as Hload;
           destruct (bulkLoad f o r s) as [[[]| | |] s'];
           apply Hload
       end.
  all: cbn.
  all: first
         [ specialize (Hroot (newBlobFile bufMgrIn));
           unfold withNewPage in Hroot; rewrite Hf in Hroot;
           by apply Hroot
         | specialize (Hroot (consumed (newBlobFile bufMgrIn)));
           unfold withNewPage, consumed in Hroot; cbn in Hroot;
           by apply Hroot ].
Qed.

End Consistency.

Lemma consistent_fresh bm : consistent bm → pages bm !! numPages bm = None.
Proof.
  intros [_ Hc]. destruct (pages bm !! numPages bm) as [page|] eqn:Hp; [|done].
  destruct (Hc _ _ Hp). lia.
Qed.

Lemma consistent_in_use bm pid :
  consistent bm → fetch bm pid ≠ BlankPage → 0 < pid < numPages bm.
Proof.
  intros [_ Hc] Hpage. destruct (fetch_in_use bm pid Hpage) as [page Hp].
  by destruct (Hc _ _ Hp).
Qed.

Lemma not_elem_of_half (x zero : Z) (part whole : list Z) n :
  part ⊆ whole → x ≠ zero → x ∉ whole → x ∉ part ++ replicate n zero.
Proof.
  intros Hsub Hzero Hnot. apply not_elem_of_app. split.
  - intros Hin. by apply Hnot, Hsub.
  - intros Hin. by apply elem_of_replicate_inv in Hin.
Qed.

(** *** Splits *)

#[local] Arguments store : simpl never.
#[local] Arguments pin : simpl never.
#[local] Arguments unpin : simpl never.
#[local] Arguments withNewPage : simpl never.
#[local] Arguments fetch : simpl never.
#[local] Arguments splitLeafNode : simpl never.
#[local] Arguments splitNonLeafNode : simpl never.
#[local] Arguments insertToLeafNode : simpl never.
#[local] Arguments insertToNonLeafNode : simpl never.
#[local] Arguments findInsertionIndexLeaf : simpl never.
#[local] Arguments findIndexNonLeaf : simpl never.
#[local] Arguments isLeafNodeFull : simpl never.
#[local] Arguments isNonLeafNodeFull : simpl never.
#[local] Arguments Nat.div : simpl never.
#[local] Arguments newNonLeafNodeInt : simpl never.
#[local] Arguments newLeafNodeInt : simpl never.

Section Insert.
Context {cap : NodeCapacity}.

Lemma createPageForNode_reliable node bm :
  faults bm = [] →
  createPageForNode node bm = (Ok (numPages bm), withNewPage node bm).
Proof.
  intros Hf. unfold createPageForNode, allocPage, setNode, unPinPage. munfold.
  by rewrite mayFail_reliable.
Qed.

Lemma createPageForNode_keeps_reliable node :
  preserves reliable (createPageForNode node).
Proof. intros bm Hf. by rewrite createPageForNode_reliable. Qed.

Ltac keep_reliable :=
  first [ done
        | apply createPageForNode_keeps_reliable
        | apply readPage_keeps_reliable
        | unfold reliable in *; by autorewrite with bufmgr ].

Lemma insertToLeafPage_keeps_reliable page pid key rid midVal :
  preserves reliable (insertToLeafPage page pid key rid midVal).
Proof.
  unfold insertToLeafPage, getPageByPid, setNode, unPinPage, deref.
  repeat (preserves_step; try keep_reliable).
Qed.

Lemma insertHelper_keeps_reliable fuel pid key rid midVal :
  preserves reliable (insertHelper fuel pid key rid midVal).
Proof.
  revert pid midVal. induction fuel as [|fuel IH]; intros pid midVal;
    cbn [insertHelper]; [apply preserves_outOfFuel|].
  unfold getPageByPid, setNode, unPinPage, deref.
  repeat (preserves_step; try keep_reliable);
    first [apply insertToLeafPage_keeps_reliable | apply IH].
Qed.

Lemma isLeafNodeFull_occupied node :
  0 < INTARRAYLEAFSIZE →
  length (Leaf.ridArray node) = INTARRAYLEAFSIZE →
  Forall (λ r, r ≠ emptyRid) (Leaf.ridArray node) →
  isLeafNodeFull node = true.
Proof.
  intros HL Hlen Hocc. unfold isLeafNodeFull. apply bool_decide_eq_true_2.
  destruct (lookup_lt_is_Some_2 (Leaf.ridArray node) (INTARRAYLEAFSIZE - 1))
    as [r Hr]; [lia|].
  rewrite (list_lookup_total_correct _ _ _ Hr).
  by apply (Forall_lookup_1 _ _ _ _ Hocc Hr).
Qed.

Lemma insertToLeafNode_sib node index key rid :
  Leaf.rightSibPageNo (insertToLeafNode node index key rid)
  = Leaf.rightSibPageNo node.
Proof. unfold insertToLeafNode. simpl. apply insertToLeafNode_loop_sib. Qed.

Lemma splitLeafNode_sib node index :
  Leaf.rightSibPageNo (splitLeafNode node index).1 = Leaf.rightSibPageNo node.
Proof. done. Qed.

(** C2.  When the insertion reaches a leaf all of whose record-id slots are
    occupied, with [index] the insertion index, [middleIndex = L / 2] and
    [insertToLeft = (index < middleIndex)]: the leaf is split at
    [splitIndex = middleIndex + (insertToLeft ? 1 : 0)], the original
    keeping the slots before [splitIndex] and the new leaf taking the rest;
    the new pair goes into the original leaf at [index] when [insertToLeft]
    and otherwise into the new leaf at [index - middleIndex]; the new leaf,
    on a page that was not in use, takes the old right sibling of the
    original, whose right sibling becomes the new page; and the value
    handed to the parent is slot 0 of the new leaf's keys.  With at least
    two slots per leaf the indices used stay inside the arrays.  (The
    buffer manager is consistent and has no failure scheduled.) *)
Theorem full_leaf_split fuel bm origPageId origNode key rid midVal :
  2 ≤ INTARRAYLEAFSIZE →
  faults bm = [] →
  consistent bm →
  fetch bm origPageId = LeafPage origNode →
  length (Leaf.keyArray origNode) = INTARRAYLEAFSIZE →
  length (Leaf.ridArray origNode) = INTARRAYLEAFSIZE →
  Forall (λ r, r ≠ emptyRid) (Leaf.ridArray origNode) →
  let index := findInsertionIndexLeaf origNode key in
  let middleIndex := INTARRAYLEAFSIZE / 2 in
  let insertToLeft := bool_decide (index < middleIndex) in
  let splitIndex := middleIndex + (if insertToLeft then 1 else 0) in
  let halves := splitLeafNode origNode splitIndex in
  let left := if insertToLeft
              then insertToLeafNode halves.1 index key rid else halves.1 in
  let right := if insertToLeft
               then halves.2
               else insertToLeafNode halves.2 (index - middleIndex) key rid in
  let newPageId := numPages bm in
  splitIndex ≤ INTARRAYLEAFSIZE
  ∧ (if insertToLeft then index else index - middleIndex) < INTARRAYLEAFSIZE
  ∧ halves
    = (Leaf.mk (take splitIndex (Leaf.keyArray origNode)
                ++ replicate (INTARRAYLEAFSIZE - splitIndex) 0%Z)
               (take splitIndex (Leaf.ridArray origNode)
                ++ replicate (INTARRAYLEAFSIZE - splitIndex) emptyRid)
               (Leaf.rightSibPageNo origNode),
       Leaf.mk (drop splitIndex (Leaf.keyArray origNode)
                ++ replicate splitIndex 0%Z)
               (drop splitIndex (Leaf.ridArray origNode)
                ++ replicate splitIndex emptyRid)
               0)
  ∧ pages bm !! newPageId = None
  ∧ ∃ bm',
      insertHelper (S fuel) origPageId key rid midVal bm
      = (Ok (newPageId, Leaf.keyArray right !!! 0), bm')
      ∧ fetch bm' origPageId
        = LeafPage (Leaf.mk (Leaf.keyArray left) (Leaf.ridArray left) newPageId)
      ∧ fetch bm' newPageId
        = LeafPage (Leaf.mk (Leaf.keyArray right) (Leaf.ridArray right)
                            (Leaf.rightSibPageNo origNode)).
Proof.
  intros HL Hf Hcons Hpage Hkeys Hrids Hocc index middleIndex insertToLeft
    splitIndex halves left right newPageId.
  assert (origPageId ≠ numPages bm) as Hfresh.
  { pose proof (consistent_in_use bm origPageId Hcons) as Hin.
    rewrite Hpage in Hin. specialize (Hin ltac:(done)). lia. }
  destruct (leaf_split_in_range index HL (findInsertionIndexLeaf_le _ _))
    as [Hsplit Hins]. fold middleIndex insertToLeft splitIndex in Hsplit, Hins.
  split; [exact Hsplit|]. split; [exact Hins|].
  split; [by apply splitLeafNode_arrays|].
  split; [by apply consistent_fresh|].
  cbn [insertHelper]. unfold getPageByPid. munfold.
  rewrite readPage_reliable by done. rewrite Hpage. cbn [isLeaf].
  unfold insertToLeafPage, getPageByPid, setNode, unPinPage. munfold.
  cbn [getLeafNodeFromPage]. cbv beta iota.
  rewrite (isLeafNodeFull_occupied origNode ltac:(lia) Hrids Hocc). cbn [negb].
  unfold Nat.b2n. fold index middleIndex insertToLeft splitIndex halves.
  assert (Hsib : Leaf.rightSibPageNo left = Leaf.rightSibPageNo origNode).
  { subst left halves. case_match;
      by rewrite ?insertToLeafNode_sib, splitLeafNode_sib. }
  assert ((let '(origNode0, newNode) := halves in
           if insertToLeft
           then (insertToLeafNode origNode0 index key rid, newNode)
           else (origNode0,
                 insertToLeafNode newNode (index - middleIndex) key rid))
          = (left, right)) as Hpair.
  { subst left right. destruct halves. by case_match. }
  destruct halves as [left0 right0]. cbv beta iota in Hpair |- *.
  rewrite Hpair.
  rewrite createPageForNode_reliable by done.
  rewrite readPage_reliable by done.
  autorewrite with bufmgr. fold newPageId. rewrite Hsib.
  eexists. split; [reflexivity|].
  autorewrite with bufmgr. split.
  - rewrite fetch_store_ne by done. by rewrite fetch_store_eq.
  - done.
Qed.

(** C3.  When a child split reaches a full non-leaf node of [N] key slots,
    with [index] the position found for the child's mid-value,
    [middleIndex = (N - 1) / 2], [insertToLeft = (index < middleIndex)],
    [splitIndex = middleIndex + (insertToLeft ? 1 : 0)],
    [insertIndex = insertToLeft ? index : index - middleIndex] and
    [moveKeyUp = !insertToLeft && insertIndex == 0]: the key handed to the
    parent is the child's mid-value when [moveKeyUp] and the original
    [keyArray[splitIndex]] otherwise; when [moveKeyUp] the two siblings are
    the two halves made by [splitNonLeafNode], which hold keys and page
    numbers of the original node and zeros only, and nothing is inserted
    into either, so that a mid-value other than 0 that was not a key of the
    original node is a key of neither sibling; otherwise the pair of the child's mid-value and new page
    goes into the original node when [insertToLeft] and into the new node
    when not.  With at least three key slots per node the indices used
    stay inside the arrays.  (The buffer manager is consistent and has no
    failure scheduled.) *)
Theorem full_non_leaf_split fuel bm bm1 origPageId node0 origNode key rid
    midVal newChildPageId newChildMidVal :
  3 ≤ INTARRAYNONLEAFSIZE →
  faults bm = [] →
  consistent bm →
  fetch bm origPageId = NonLeafPage node0 →
  insertHelper fuel
    (NonLeaf.pageNoArray node0 !!! findIndexNonLeaf node0 key) key rid 0
    (pin origPageId bm)
  = (Ok (newChildPageId, newChildMidVal), bm1) →
  newChildPageId ≠ 0 →
  fetch bm1 origPageId = NonLeafPage origNode →
  length (NonLeaf.keyArray origNode) = INTARRAYNONLEAFSIZE →
  length (NonLeaf.pageNoArray origNode) = S INTARRAYNONLEAFSIZE →
  isNonLeafNodeFull origNode = true →
  let index := findIndexNonLeaf origNode newChildMidVal in
  let middleIndex := (INTARRAYNONLEAFSIZE - 1) / 2 in
  let insertToLeft := bool_decide (index < middleIndex) in
  let splitIndex := middleIndex + (if insertToLeft then 1 else 0) in
  let insertIndex := if insertToLeft then index else index - middleIndex in
  let moveKeyUp := negb insertToLeft && bool_decide (insertIndex = 0) in
  let promoted := if moveKeyUp then newChildMidVal
                  else NonLeaf.keyArray origNode !!! splitIndex in
  let halves := splitNonLeafNode origNode splitIndex moveKeyUp in
  let left := if moveKeyUp then halves.1
              else if insertToLeft
                   then insertToNonLeafNode halves.1 insertIndex
                          newChildMidVal newChildPageId
                   else halves.1 in
  let right := if moveKeyUp then halves.2
               else if insertToLeft then halves.2
                    else insertToNonLeafNode halves.2 insertIndex
                           newChildMidVal newChildPageId in
  let firstMoved := if moveKeyUp then splitIndex else S splitIndex in
  splitIndex < INTARRAYNONLEAFSIZE
  ∧ insertIndex < INTARRAYNONLEAFSIZE
  ∧ halves
    = (NonLeaf.mk (take splitIndex (NonLeaf.keyArray origNode)
                   ++ replicate (INTARRAYNONLEAFSIZE - splitIndex) 0%Z)
                  (take (S splitIndex) (NonLeaf.pageNoArray origNode)
                   ++ replicate (INTARRAYNONLEAFSIZE - splitIndex) 0),
       NonLeaf.mk (drop firstMoved (NonLeaf.keyArray origNode)
                   ++ replicate firstMoved 0%Z)
                  (drop (S splitIndex) (NonLeaf.pageNoArray origNode)
                   ++ replicate (S splitIndex) 0))
  ∧ (moveKeyUp = true → newChildMidVal ≠ 0%Z →
     newChildMidVal ∉ NonLeaf.keyArray origNode →
     (newChildMidVal ∉ NonLeaf.keyArray left)
     ∧ (newChildMidVal ∉ NonLeaf.keyArray right))
  ∧ ∃ bm2,
      insertHelper (S fuel) origPageId key rid midVal bm
      = (Ok (numPages bm1, promoted), bm2)
      ∧ fetch bm2 origPageId = NonLeafPage left
      ∧ fetch bm2 (numPages bm1) = NonLeafPage right.
Proof.
  intros HN Hf Hcons Hpage Hrec Hsplit Hpage1 Hkeys Hpages Hfull index
    middleIndex insertToLeft splitIndex insertIndex moveKeyUp promoted halves
    left right firstMoved.
  assert (faults bm1 = []) as Hf1.
  { pose proof (insertHelper_keeps_reliable fuel
      (NonLeaf.pageNoArray node0 !!! findIndexNonLeaf node0 key) key rid 0
      (pin origPageId bm) Hf) as Hkeep. by rewrite Hrec in Hkeep. }
  assert (consistent bm1) as Hcons1.
  { pose proof (insertHelper_consistent fuel
      (NonLeaf.pageNoArray node0 !!! findIndexNonLeaf node0 key) key rid 0
      (pin origPageId bm) Hcons) as Hkeep. by rewrite Hrec in Hkeep. }
  assert (origPageId ≠ numPages bm1) as Hfresh.
  { pose proof (consistent_in_use bm1 origPageId Hcons1) as Hin.
    rewrite Hpage1 in Hin. specialize (Hin ltac:(done)). lia. }
  destruct (non_leaf_split_in_range index HN (findIndexNonLeaf_le _ _))
    as [Hsplitlt Hinslt].
  fold middleIndex insertToLeft splitIndex insertIndex in Hsplitlt, Hinslt.
  split; [exact Hsplitlt|]. split; [exact Hinslt|].
  assert (Hhalves := splitNonLeafNode_arrays origNode splitIndex moveKeyUp
                       Hkeys Hpages Hsplitlt).
  cbv zeta in Hhalves. fold halves firstMoved in Hhalves.
  split; [exact Hhalves|].
  split.
  { intros Hup Hzero Hnot. subst left right. rewrite Hup, Hhalves.
    cbn [fst snd NonLeaf.keyArray].
    split; apply (not_elem_of_half _ _ _ (NonLeaf.keyArray origNode));
      auto using subseteq_take, subseteq_drop. }
  clear Hhalves.
  cbn [insertHelper]. unfold getPageByPid, setNode, unPinPage, deref. munfold.
  rewrite readPage_reliable by done. rewrite Hpage.
  cbn [isLeaf getNonLeafNodeFromPage]. cbv beta iota.
  rewrite Hrec. cbv beta iota. rewrite decide_False by done.
  rewrite Hpage1. cbn [getNonLeafNodeFromPage]. cbv beta iota.
  rewrite Hfull. cbn [negb]. unfold Nat.b2n.
  fold index middleIndex insertToLeft splitIndex insertIndex moveKeyUp halves.
  assert ((let '(origNode0, newNode) := halves in
           if negb moveKeyUp
           then if insertToLeft
                then (insertToNonLeafNode origNode0 insertIndex
                        newChildMidVal newChildPageId, newNode)
                else (origNode0,
                      insertToNonLeafNode newNode insertIndex
                        newChildMidVal newChildPageId)
           else (origNode0, newNode))
          = (left, right)) as Hpair.
  { subst left right. destruct halves. by repeat case_match. }
  destruct halves as [left0 right0]. cbv beta iota in Hpair |- *.
  rewrite Hpair.
  rewrite createPageForNode_reliable by done.
  autorewrite with bufmgr.
  eexists. split; [reflexivity|].
  rewrite !fetch_withNewPage. autorewrite with bufmgr.
  rewrite decide_False by done. by rewrite decide_True.
Qed.

(** C4.  [insertEntry] leaves [rootPageNo] as it was when the recursive
    insertion reports no split.  When it reports the split
    [(midVal, newPageId)], [insertEntry] allocates a page, one that was not
    in use when the buffer manager is consistent, writes into it a non-leaf
    whose [keyArray[0]] is [midVal], whose [pageNoArray[0]] is the old root
    and whose [pageNoArray[1]] is [newPageId], and stores the number of
    that page as [rootPageNo]; no other page changes.  (For the second part
    the buffer manager has no failure scheduled.) *)
Theorem insertEntry_root fuel s key rid :
  0 < INTARRAYNONLEAFSIZE →
  let rootPageNo := Meta.rootPageNo (indexMetaInfo s) in
  (∀ midVal bm1,
     insertHelper fuel rootPageNo key rid 0 (bufMgr s) = (Ok (0, midVal), bm1) →
     insertEntry fuel key rid s = (Ok tt, set_bufMgr bm1 s)
     ∧ Meta.rootPageNo (indexMetaInfo (insertEntry fuel key rid s).2)
       = rootPageNo)
  ∧ (∀ newPageId midVal bm1,
       insertHelper fuel rootPageNo key rid 0 (bufMgr s)
       = (Ok (newPageId, midVal), bm1) →
       newPageId ≠ 0 →
       faults bm1 = [] →
       ∃ s' newRoot,
         insertEntry fuel key rid s = (Ok tt, s')
         ∧ Meta.rootPageNo (indexMetaInfo s') = numPages bm1
         ∧ numPages (bufMgr s') = S (numPages bm1)
         ∧ (consistent (bufMgr s) → pages bm1 !! numPages bm1 = None)
         ∧ fetch (bufMgr s') (numPages bm1) = NonLeafPage newRoot
         ∧ NonLeaf.keyArray newRoot !! 0 = Some midVal
         ∧ NonLeaf.pageNoArray newRoot !! 0 = Some rootPageNo
         ∧ NonLeaf.pageNoArray newRoot !! 1 = Some newPageId
         ∧ ∀ pid, pid ≠ numPages bm1 →
                  pages (bufMgr s') !! pid = pages bm1 !! pid).
Proof.
  intros HN rootPageNo. split.
  - intros midVal bm1 Hhelper. unfold insertEntry. munfold.
    fold rootPageNo. rewrite Hhelper. cbv beta iota.
    by rewrite decide_True.
  - intros newPageId midVal bm1 Hhelper Hsplit Hf.
    unfold insertEntry, setNode, unPinPage. munfold.
    fold rootPageNo. rewrite Hhelper. cbv beta iota.
    rewrite decide_False by done.
    cbn [bufMgr set_bufMgr]. rewrite allocPage_reliable by done.
    eexists _, _. split; [reflexivity|].
    unfold newNonLeafNodeInt. cbn. split_and!; try done.
    + intros Hcons. apply consistent_fresh.
      pose proof (insertHelper_consistent fuel rootPageNo key rid 0
                    (bufMgr s) Hcons) as Hkeep.
      by rewrite Hhelper in Hkeep.
    + rewrite fetch_unpin, fetch_store_eq. reflexivity.
    + cbn. destruct INTARRAYNONLEAFSIZE; [lia | done].
    + done.
    + cbn. destruct INTARRAYNONLEAFSIZE; [lia | done].
    + intros pid Hpid. unfold store, pin, unpin. cbn.
      by rewrite !lookup_insert_ne.
Qed.

End Insert.

(** *** The insertion properties on concrete indexes *)

Lemma freshIndex4_consistent : consistent (bufMgr freshIndex4).
Proof. apply BTreeIndex_new_consistent. Qed.

Lemma fullLeaf4_consistent : consistent (bufMgr fullLeaf4).
Proof.
  apply (insertEntries_consistent (cap := cap4)), freshIndex4_consistent.
Qed.

Lemma nineInserted4_consistent : consistent (bufMgr nineInserted4).
Proof.
  apply (insertEntries_consistent (cap := cap4)), freshIndex4_consistent.
Qed.

Lemma full_leaf_split_witness :
  pages (bufMgr fullLeaf4) !! 2 = None
  ∧ ∃ bm',
      insertHelper (cap := cap4) 1 1 25 (mkRecordId 1 5) 0 (bufMgr fullLeaf4)
      = (Ok (2, 25%Z), bm')
      ∧ fetch bm' 1
        = LeafPage (Leaf.mk [10; 20; 0; 0]%Z
                      [mkRecordId 1 1; mkRecordId 1 2; emptyRid; emptyRid] 2)
      ∧ fetch bm' 2
        = LeafPage (Leaf.mk [25; 30; 40; 0]%Z
                      [mkRecordId 1 5; mkRecordId 1 3; mkRecordId 1 4; emptyRid]
                      0).
Proof.
  destruct (full_leaf_split (cap := cap4) 0 (bufMgr fullLeaf4) 1 fullLeafNode4
              25 (mkRecordId 1 5) 0)
    as (_ & _ & _ & Hfresh & bm' & Hrun & Hleft & Hright);
    [ cbn; lia | vm_compute; reflexivity | apply fullLeaf4_consistent
    | vm_compute; reflexivity | reflexivity | reflexivity
    | repeat constructor; discriminate | ].
  split; [exact Hfresh|].
  exists bm'. split_and!.
  - rewrite Hrun. vm_compute. reflexivity.
  - rewrite Hleft. vm_compute. reflexivity.
  - etrans; [exact Hright|]. vm_compute. reflexivity.
Defined.

Lemma full_non_leaf_split_witness :
  ∃ bm2,
    insertHelper (cap := cap4) 2 3 80 (mkRecordId 1 10) 0
      (bufMgr nineInserted4)
    = (Ok (8, 50%Z), bm2)
    ∧ fetch bm2 3 = NonLeafPage (NonLeaf.mk [30; 0; 0; 0]%Z [1; 5; 0; 0; 0])
    ∧ fetch bm2 8
      = NonLeafPage (NonLeaf.mk [90; 100; 110; 0]%Z [6; 4; 2; 0; 0]).
Proof.
  destruct (full_non_leaf_split (cap := cap4) 1 (bufMgr nineInserted4)
              afterLeafSplit4 3 fullRootNode4 fullRootNode4 80
              (mkRecordId 1 10) 0 7 50)
    as (_ & _ & _ & _ & bm2 & Hrun & Hleft & Hright);
    [ cbn; lia | vm_compute; reflexivity | apply nineInserted4_consistent
    | vm_compute; reflexivity | vm_compute; reflexivity | discriminate
    | vm_compute; reflexivity | reflexivity | reflexivity
    | vm_compute; reflexivity | ].
  exists bm2. split_and!.
  - rewrite Hrun. vm_compute. reflexivity.
  - rewrite Hleft. vm_compute. reflexivity.
  - etrans; [exact Hright|]. vm_compute. reflexivity.
Defined.

Lemma insertEntry_root_witness :
  Meta.rootPageNo
    (indexMetaInfo
       (insertEntry (cap := cap4) 1 42 (mkRecordId 5 7) freshIndex4).2) = 1
  ∧ ∃ s' newRoot,
      insertEntry (cap := cap4) 1 25 (mkRecordId 1 5) fullLeaf4 = (Ok tt, s')
      ∧ Meta.rootPageNo (indexMetaInfo s') = 3
      ∧ fetch (bufMgr s') 3 = NonLeafPage newRoot
      ∧ NonLeaf.keyArray newRoot !! 0 = Some 25%Z
      ∧ NonLeaf.pageNoArray newRoot !! 0 = Some 1
      ∧ NonLeaf.pageNoArray newRoot !! 1 = Some 2.
Proof.
  split.
  - destruct (insertEntry_root (cap := cap4) 1 freshIndex4 42 (mkRecordId 5 7))
      as [Hsame _]; [cbn; lia|].
    destruct (Hsame 0%Z
                (insertHelper (cap := cap4) 1 1 42 (mkRecordId 5 7) 0
                   (bufMgr freshIndex4)).2) as [_ Hroot];
      [vm_compute; reflexivity|].
    exact Hroot.
  - destruct (insertEntry_root (cap := cap4) 1 fullLeaf4 25 (mkRecordId 1 5))
      as [_ Hgrow]; [cbn; lia|].
    destruct (Hgrow 2 25%Z
                (insertHelper (cap := cap4) 1 1 25 (mkRecordId 1 5) 0
                   (bufMgr fullLeaf4)).2)
      as (s' & newRoot & Hrun & Hroot & _ & _ & Hpage & Hkey & Hold & Hnew & _);
      [vm_compute; reflexivity | discriminate | vm_compute; reflexivity |].
    exists s', newRoot. by split_and!.
Defined.

(** * Further properties

    Properties read off the code: the searches in a node; the
    insertion into leaves and non-leaves, stated on the entries they
    hold; the pins that insertions and scans take and release; what a
    scan delivers; the constructor; and the index as a tree of height
    at most two. *)

#[local] Arguments leafOf : simpl never.
#[local] Arguments nonLeafOf : simpl never.
#[local] Arguments placed : simpl never.

(** ** Searches in a node *)

Section SearchFacts.
Context {cap : NodeCapacity}.

Lemma findArrayIndex_loop_spec arr key incl n i :
  match findArrayIndex_loop arr key incl n i with
  | Some r => i ≤ r < i + n ∧ hit incl key (arr !!! r) = true
              ∧ ∀ j, i ≤ j < r → hit incl key (arr !!! j) = false
  | None => ∀ j, i ≤ j < i + n → hit incl key (arr !!! j) = false
  end.
Proof.
  revert i. induction n as [|n IH]; intros i; cbn [findArrayIndex_loop].
  { intros j ?. lia. }
  fold (hit incl key (arr !!! i)).
  destruct (hit incl key (arr !!! i)) eqn:Hi.
  - split_and!; [lia | lia | done | intros j ?; lia].
  - specialize (IH (S i)).
    destruct (findArrayIndex_loop arr key incl n (S i)) as [r|].
    + destruct IH as (? & ? & Hbefore). split_and!; [lia | lia | done |].
      intros j ?. destruct (decide (j = i)) as [->|]; [done|]. apply Hbefore. lia.
    + intros j ?. destruct (decide (j = i)) as [->|]; [done|]. apply IH. lia.
Qed.

Lemma findArrayIndex_spec arr len key incl :
  match findArrayIndex arr len key incl with
  | Some r => r < len ∧ hit incl key (arr !!! r) = true
              ∧ ∀ j, j < r → hit incl key (arr !!! j) = false
  | None => ∀ j, j < len → hit incl key (arr !!! j) = false
  end.
Proof.
  unfold findArrayIndex.
  pose proof (findArrayIndex_loop_spec arr key incl len 0) as Hspec.
  destruct (findArrayIndex_loop arr key incl len 0) as [r|].
  - destruct Hspec as (? & ? & Hbefore). split_and!; [lia | done |].
    intros j ?. apply Hbefore. lia.
  - intros j ?. apply Hspec. lia.
Qed.

(** [findArrayIndex] answers the first position below [len] whose element
    is not below [key] (above [key] when [includeCurrentKey] is false), and
    -1 exactly when no position below [len] has such an element. *)
Theorem findArrayIndex_first_match arr len key incl :
  match findArrayIndex arr len key incl with
  | Some r => r < len ∧ hit incl key (arr !!! r) = true
              ∧ ∀ j, j < r → hit incl key (arr !!! j) = false
  | None => ∀ j, j < len → hit incl key (arr !!! j) = false
  end.
Proof. apply findArrayIndex_spec. Qed.

Lemma getLeafLen_loop_spec rids n i :
  let r := getLeafLen_loop rids n i in
  i ≤ r ≤ i + n
  ∧ (∀ j, i ≤ j < r → rids !!! j ≠ emptyRid)
  ∧ (r < i + n → rids !!! r = emptyRid).
Proof.
  revert i. induction n as [|n IH]; intros i; cbn [getLeafLen_loop].
  { split_and!; [lia | lia | intros j ?; lia | lia]. }
  destruct (decide (rids !!! i = emptyRid)) as [Hi|Hi].
  - split_and!; [lia | lia | intros j ?; lia | done].
  - destruct (IH (S i)) as ([? ?] & Hbefore & Hat). cbv zeta.
    split_and!; [lia | lia | |].
    + intros j ?. destruct (decide (j = i)) as [->|]; [done|]. apply Hbefore. lia.
    + intros ?. apply Hat. lia.
Qed.

Lemma getNonLeafLen_loop_spec pages n i :
  let r := getNonLeafLen_loop pages n i in
  i ≤ r ≤ i + n
  ∧ (∀ j, i ≤ j < r → pages !!! j ≠ 0)
  ∧ (r < i + n → pages !!! r = 0).
Proof.
  revert i. induction n as [|n IH]; intros i; cbn [getNonLeafLen_loop].
  { split_and!; [lia | lia | intros j ?; lia | lia]. }
  destruct (decide (pages !!! i = 0)) as [Hi|Hi].
  - split_and!; [lia | lia | intros j ?; lia | done].
  - destruct (IH (S i)) as ([? ?] & Hbefore & Hat). cbv zeta.
    split_and!; [lia | lia | |].
    + intros j ?. destruct (decide (j = i)) as [->|]; [done|]. apply Hbefore. lia.
    + intros ?. apply Hat. lia.
Qed.

(** [getLeafLen] is the position of the first empty record id of the
    leaf, its capacity when no slot is empty.  [getNonLeafLen] is the
    position of the first zero page number after slot 0, one more than the
    capacity when there is none: slot 0 is never looked at, so the length
    of a non-leaf is at least 1, also when all its page numbers are 0. *)
Theorem node_lengths leaf nonLeaf :
  let n := getLeafLen leaf in
  let m := getNonLeafLen nonLeaf in
  (n ≤ INTARRAYLEAFSIZE
   ∧ (∀ j, j < n → Leaf.ridArray leaf !!! j ≠ emptyRid)
   ∧ (n < INTARRAYLEAFSIZE → Leaf.ridArray leaf !!! n = emptyRid))
  ∧ (1 ≤ m ≤ S INTARRAYNONLEAFSIZE
     ∧ (∀ j, 1 ≤ j < m → NonLeaf.pageNoArray nonLeaf !!! j ≠ 0)
     ∧ (m ≤ INTARRAYNONLEAFSIZE → NonLeaf.pageNoArray nonLeaf !!! m = 0)).
Proof.
  intros n m. split.
  - destruct (getLeafLen_loop_spec (Leaf.ridArray leaf) INTARRAYLEAFSIZE 0)
      as ([_ ?] & Hbefore & Hat). fold (getLeafLen leaf) in *. fold n in Hbefore, Hat.
    split_and!; [done | | done]. intros j ?. apply Hbefore. lia.
  - destruct (getNonLeafLen_loop_spec (NonLeaf.pageNoArray nonLeaf)
                INTARRAYNONLEAFSIZE 1) as ([? ?] & Hbefore & Hat).
    fold (getNonLeafLen nonLeaf) in *. fold m in Hbefore, Hat.
    split_and!; [done | lia | done |]. intros ?. apply Hat. lia.
Qed.

End SearchFacts.

(** ** Search positions in nodes given by their contents *)

Lemma firstIndex_le test keys : firstIndex test keys ≤ length keys.
Proof. induction keys as [|k keys IH]; simpl; [done|]. case_match; lia. Qed.

Lemma firstIndex_before test keys j :
  j < firstIndex test keys → test (keys !!! j) = false.
Proof.
  revert j. induction keys as [|k keys IH]; intros j; simpl; [lia|].
  destruct (test k) eqn:Hk; [lia|]. intros Hj.
  destruct j as [|j]; [done|]. apply IH. lia.
Qed.

Lemma firstIndex_at test keys :
  firstIndex test keys < length keys →
  test (keys !!! firstIndex test keys) = true.
Proof.
  induction keys as [|k keys IH]; simpl; [lia|].
  destruct (test k) eqn:Hk; [done|]. intros Hj. apply IH. lia.
Qed.

Lemma firstIndex_unique test keys i :
  i ≤ length keys →
  (∀ j, j < i → test (keys !!! j) = false) →
  (i < length keys → test (keys !!! i) = true) →
  firstIndex test keys = i.
Proof.
  intros Hi Hbefore Hat.
  pose proof (firstIndex_le test keys).
  destruct (Nat.lt_trichotomy (firstIndex test keys) i) as [Hlt|[Heq|Hgt]];
    [|done|].
  - pose proof (firstIndex_at test keys ltac:(lia)) as Htrue.
    rewrite Hbefore in Htrue by done. done.
  - pose proof (firstIndex_before test keys i Hgt) as Hfalse.
    rewrite Hat in Hfalse by lia. done.
Qed.

Section Representation.
Context {cap : NodeCapacity}.

Lemma findArrayIndex_prefix keys pad key incl :
  findArrayIndex (keys ++ pad) (length keys) key incl
  = let i := firstIndex (hit incl key) keys in
    if decide (i < length keys) then Some i else None.
Proof.
  cbv zeta.
  pose proof (findArrayIndex_spec (keys ++ pad) (length keys) key incl)
    as Hspec.
  destruct (findArrayIndex (keys ++ pad) (length keys) key incl) as [r|].
  - destruct Hspec as (Hr & Hat & Hbefore).
    rewrite (firstIndex_unique (hit incl key) keys r); [by rewrite decide_True| lia | |].
    + intros j Hj. rewrite <- (lookup_total_app_l keys pad) by lia. by apply Hbefore.
    + intros _. by rewrite <- (lookup_total_app_l keys pad) by lia.
  - rewrite (firstIndex_unique (hit incl key) keys (length keys)); [by rewrite decide_False by lia|done| |lia].
    intros j Hj. rewrite <- (lookup_total_app_l keys pad) by lia. by apply Hspec.
Qed.

Lemma length_leafOf_keys entries sib :
  length entries ≤ INTARRAYLEAFSIZE →
  length (Leaf.keyArray (leafOf entries sib)) = INTARRAYLEAFSIZE.
Proof.
  intros. unfold leafOf. cbn [Leaf.keyArray Leaf.ridArray].
  rewrite length_app, length_fmap, length_replicate. lia.
Qed.

Lemma length_leafOf_rids entries sib :
  length entries ≤ INTARRAYLEAFSIZE →
  length (Leaf.ridArray (leafOf entries sib)) = INTARRAYLEAFSIZE.
Proof.
  intros. unfold leafOf. cbn [Leaf.keyArray Leaf.ridArray].
  rewrite length_app, length_fmap, length_replicate. lia.
Qed.

Lemma getLeafLen_leafOf entries sib :
  length entries ≤ INTARRAYLEAFSIZE →
  Forall (λ e, e.2 ≠ emptyRid) entries →
  getLeafLen (leafOf entries sib) = length entries.
Proof.
  intros Hlen Hocc.
  destruct (getLeafLen_loop_spec (Leaf.ridArray (leafOf entries sib))
              INTARRAYLEAFSIZE 0) as ([_ Hle] & Hbefore & Hat).
  fold (getLeafLen (leafOf entries sib)) in *.
  set (n := getLeafLen (leafOf entries sib)) in *.
  unfold leafOf in Hbefore, Hat. cbn [Leaf.ridArray] in Hbefore, Hat.
  destruct (Nat.lt_trichotomy n (length entries)) as [Hlt|[Heq|Hgt]]; [|done|].
  - specialize (Hat ltac:(lia)).
    rewrite lookup_total_app_l in Hat by (rewrite length_fmap; lia).
    destruct (lookup_lt_is_Some_2 entries n Hlt) as [e He].
    rewrite (list_lookup_total_correct (entries.*2) n e.2) in Hat
      by (by rewrite list_lookup_fmap, He).
    by destruct (Forall_lookup_1 _ _ _ _ Hocc He).
  - specialize (Hbefore (length entries) ltac:(lia)).
    rewrite lookup_total_app_r in Hbefore by (rewrite length_fmap; lia).
    rewrite length_fmap, Nat.sub_diag in Hbefore.
    rewrite lookup_total_replicate_2 in Hbefore by lia. done.
Qed.

Lemma leafOf_search entries sib key incl :
  length entries ≤ INTARRAYLEAFSIZE →
  Forall (λ e, e.2 ≠ emptyRid) entries →
  getLeafLen (leafOf entries sib) = length entries
  ∧ findInsertionIndexLeaf (leafOf entries sib) key
    = firstIndex (hit true key) entries.*1
  ∧ findScanIndexLeaf (leafOf entries sib) key incl
    = (let i := firstIndex (hit incl key) entries.*1 in
       if decide (i < length entries) then Some i else None).
Proof.
  intros Hlen Hocc. split; [by apply getLeafLen_leafOf|].
  unfold findInsertionIndexLeaf, findScanIndexLeaf.
  rewrite getLeafLen_leafOf by done. unfold leafOf. cbn [Leaf.keyArray].
  rewrite <- (length_fmap fst entries), !findArrayIndex_prefix. cbv zeta.
  split; [|done].
  pose proof (firstIndex_le (hit true key) entries.*1). case_decide; [done|lia].
Qed.

(** On a leaf that holds [entries], the insertion position of [key] is
    the number of leading entries whose key is below [key], and the
    position at which a scan with low bound [key] starts is the first
    entry whose key is not below (or, for GT, above) [key], -1 when the leaf
    has no such entry. *)
Theorem leaf_search_positions entries sib key incl :
  length entries ≤ INTARRAYLEAFSIZE →
  Forall (λ e, e.2 ≠ emptyRid) entries →
  getLeafLen (leafOf entries sib) = length entries
  ∧ findInsertionIndexLeaf (leafOf entries sib) key
    = firstIndex (hit true key) entries.*1
  ∧ findScanIndexLeaf (leafOf entries sib) key incl
    = (let i := firstIndex (hit incl key) entries.*1 in
       if decide (i < length entries) then Some i else None).
Proof. apply leafOf_search. Qed.

Lemma getNonLeafLen_nonLeafOf keys children :
  1 ≤ length children ≤ S INTARRAYNONLEAFSIZE →
  Forall (λ c, c ≠ 0) (drop 1 children) →
  getNonLeafLen (nonLeafOf keys children) = length children.
Proof.
  intros Hlen Hocc.
  destruct (getNonLeafLen_loop_spec (NonLeaf.pageNoArray (nonLeafOf keys children))
              INTARRAYNONLEAFSIZE 1) as ([Hge Hle] & Hbefore & Hat).
  fold (getNonLeafLen (nonLeafOf keys children)) in *.
  set (n := getNonLeafLen (nonLeafOf keys children)) in *.
  unfold nonLeafOf in Hbefore, Hat. cbn [NonLeaf.pageNoArray] in Hbefore, Hat.
  destruct (Nat.lt_trichotomy n (length children)) as [Hlt|[Heq|Hgt]]; [|done|].
  - specialize (Hat ltac:(lia)).
    rewrite lookup_total_app_l in Hat by lia.
    destruct (lookup_lt_is_Some_2 children n Hlt) as [c Hc].
    rewrite (list_lookup_total_correct children n c) in Hat by done.
    assert (drop 1 children !! (n - 1) = Some c) as Hd.
    { rewrite lookup_drop. rewrite <- Hc. f_equal. lia. }
    by destruct (Forall_lookup_1 _ _ _ _ Hocc Hd).
  - specialize (Hbefore (length children) ltac:(lia)).
    rewrite lookup_total_app_r in Hbefore by lia.
    rewrite Nat.sub_diag in Hbefore.
    rewrite lookup_total_replicate_2 in Hbefore by lia. done.
Qed.

Lemma nonLeafOf_search keys children key :
  length children = S (length keys) →
  length keys ≤ INTARRAYNONLEAFSIZE →
  Forall (λ c, c ≠ 0) (drop 1 children) →
  getNonLeafLen (nonLeafOf keys children) = length children
  ∧ findIndexNonLeaf (nonLeafOf keys children) key
    = firstIndex (hit true key) keys
  ∧ NonLeaf.pageNoArray (nonLeafOf keys children)
      !! findIndexNonLeaf (nonLeafOf keys children) key
    = children !! firstIndex (hit true key) keys
  ∧ is_Some (children !! firstIndex (hit true key) keys).
Proof.
  intros Hlen Hkeys Hocc.
  assert (getNonLeafLen (nonLeafOf keys children) = length children) as Hn
    by (apply getNonLeafLen_nonLeafOf; [lia|done]).
  assert (findIndexNonLeaf (nonLeafOf keys children) key
          = firstIndex (hit true key) keys) as Hi.
  { unfold findIndexNonLeaf. rewrite Hn, Hlen. unfold nonLeafOf.
    cbn [NonLeaf.keyArray].
    replace (S (length keys) - 1) with (length keys) by lia.
    rewrite findArrayIndex_prefix. cbv zeta.
    pose proof (firstIndex_le (hit true key) keys). case_decide; [done|lia]. }
  pose proof (firstIndex_le (hit true key) keys).
  split_and!; [done | done | | apply lookup_lt_is_Some_2; lia].
  rewrite Hi. unfold nonLeafOf. cbn [NonLeaf.pageNoArray].
  apply lookup_app_l. lia.
Qed.

(** On a non-leaf that holds [keys] and one more child, the descent for
    [key] takes the child whose position is the number of leading keys
    below [key]: a key equal to a separator goes to the child on the left
    of the separator, and a key above all separators to the last child. *)
Theorem non_leaf_search_position keys children key :
  length children = S (length keys) →
  length keys ≤ INTARRAYNONLEAFSIZE →
  Forall (λ c, c ≠ 0) (drop 1 children) →
  getNonLeafLen (nonLeafOf keys children) = length children
  ∧ findIndexNonLeaf (nonLeafOf keys children) key
    = firstIndex (hit true key) keys
  ∧ NonLeaf.pageNoArray (nonLeafOf keys children)
      !! findIndexNonLeaf (nonLeafOf keys children) key
    = children !! firstIndex (hit true key) keys
  ∧ is_Some (children !! firstIndex (hit true key) keys).
Proof. apply nonLeafOf_search. Qed.

End Representation.

(** ** Node operations on the contents *)

Lemma length_insertAt {A} i (x : A) l : length (insertAt i x l) = S (length l).
Proof.
  unfold insertAt. rewrite length_app. cbn. rewrite length_take, length_drop. lia.
Qed.

Lemma fmap_insertAt {A B} (f : A → B) i x l :
  f <$> insertAt i x l = insertAt i (f x) (f <$> l).
Proof. unfold insertAt. by rewrite fmap_app, fmap_cons, fmap_take, fmap_drop. Qed.

(** Shifting a padded array: the array of [n] slots that holds [l] and
    then zeros, after an element is inserted at [i] and the last slot is
    dropped. *)
Lemma padded_insert {A} (zero : A) (l : list A) (n i : nat) x :
  length l ≤ n → i ≤ length l → i < n →
  let a := l ++ replicate (n - length l) zero in
  take i a ++ x :: take (n - 1 - i) (drop i a)
  = take n (insertAt i x l)
    ++ replicate (n - length (take n (insertAt i x l))) zero.
Proof.
  intros Hn Hi Hlt a. subst a.
  rewrite take_app_le by done. rewrite drop_app_le by done.
  rewrite length_take, length_insertAt. unfold insertAt.
  destruct (decide (length l < n)) as [Hroom|Hfull].
  - rewrite (take_app_ge (drop i l)) by (rewrite length_drop; lia).
    rewrite take_replicate, length_drop.
    rewrite (take_ge (take i l ++ x :: drop i l))
      by (rewrite length_app; cbn; rewrite length_take, length_drop; lia).
    rewrite <- app_assoc. cbn. do 3 f_equal. f_equal. lia.
  - replace (n - length l) with 0 by lia. cbn [replicate]. rewrite app_nil_r.
    replace (n - n `min` S (length l)) with 0 by lia. cbn [replicate].
    rewrite app_nil_r.
    rewrite (take_app_ge (take i l)) by (rewrite length_take; lia).
    rewrite length_take. replace (n - i `min` length l) with (S (n - 1 - i)) by lia.
    done.
Qed.

Lemma padded_take {A} (zero : A) (l : list A) (n i : nat) :
  length l ≤ n → i ≤ length l →
  take i (l ++ replicate (n - length l) zero) ++ replicate (n - i) zero
  = take i l ++ replicate (n - length (take i l)) zero.
Proof.
  intros Hn Hi. rewrite take_app_le by done. rewrite length_take.
  do 2 f_equal. lia.
Qed.

Lemma padded_drop {A} (zero : A) (l : list A) (n i : nat) :
  length l ≤ n → i ≤ length l →
  drop i (l ++ replicate (n - length l) zero) ++ replicate i zero
  = drop i l ++ replicate (n - length (drop i l)) zero.
Proof.
  intros Hn Hi. rewrite drop_app_le by done. rewrite length_drop.
  rewrite <- app_assoc, <- replicate_add. do 2 f_equal. lia.
Qed.

Section NodeRepresentation.
Context {cap : NodeCapacity}.

Lemma insertToLeafNode_leafOf entries sib index key rid :
  length entries ≤ INTARRAYLEAFSIZE →
  index ≤ length entries → index < INTARRAYLEAFSIZE →
  insertToLeafNode (leafOf entries sib) index key rid
  = leafOf (take INTARRAYLEAFSIZE (insertAt index (key, rid) entries)) sib.
Proof.
  intros Hlen Hidx Hlt.
  rewrite insertToLeafNode_arrays
    by (done || by apply length_leafOf_keys || by apply length_leafOf_rids).
  unfold leafOf. cbn [Leaf.keyArray Leaf.ridArray Leaf.rightSibPageNo].
  rewrite !fmap_take, !fmap_insertAt. cbn [fst snd].
  pose proof (padded_insert 0%Z entries.*1 INTARRAYLEAFSIZE index key
                ltac:(by rewrite length_fmap) ltac:(by rewrite length_fmap) Hlt)
    as Hk.
  pose proof (padded_insert emptyRid entries.*2 INTARRAYLEAFSIZE index rid
                ltac:(by rewrite length_fmap) ltac:(by rewrite length_fmap) Hlt)
    as Hr.
  cbv zeta in Hk, Hr. rewrite length_fmap in Hk. rewrite length_fmap in Hr.
  rewrite Hk, Hr. rewrite !length_take, !length_insertAt, !length_fmap.
  done.
Qed.

Lemma splitLeafNode_leafOf entries sib index :
  length entries ≤ INTARRAYLEAFSIZE → index ≤ length entries →
  splitLeafNode (leafOf entries sib) index
  = (leafOf (take index entries) sib, leafOf (drop index entries) 0).
Proof.
  intros Hlen Hidx.
  rewrite splitLeafNode_arrays
    by (lia || by apply length_leafOf_keys || by apply length_leafOf_rids).
  unfold leafOf. cbn [Leaf.keyArray Leaf.ridArray Leaf.rightSibPageNo].
  rewrite !fmap_take, !fmap_drop.
  pose proof (padded_take 0%Z entries.*1 INTARRAYLEAFSIZE index
                ltac:(by rewrite length_fmap) ltac:(by rewrite length_fmap))
    as Hk1.
  pose proof (padded_take emptyRid entries.*2 INTARRAYLEAFSIZE index
                ltac:(by rewrite length_fmap) ltac:(by rewrite length_fmap))
    as Hr1.
  pose proof (padded_drop 0%Z entries.*1 INTARRAYLEAFSIZE index
                ltac:(by rewrite length_fmap) ltac:(by rewrite length_fmap))
    as Hk2.
  pose proof (padded_drop emptyRid entries.*2 INTARRAYLEAFSIZE index
                ltac:(by rewrite length_fmap) ltac:(by rewrite length_fmap))
    as Hr2.
  rewrite length_fmap in Hk1. rewrite length_fmap in Hr1.
  rewrite length_fmap in Hk2. rewrite length_fmap in Hr2.
  rewrite Hk1, Hr1, Hk2, Hr2.
  by rewrite !length_take, !length_drop, !length_fmap.
Qed.

Lemma isLeafNodeFull_leafOf entries sib :
  length entries ≤ INTARRAYLEAFSIZE →
  Forall (λ e, e.2 ≠ emptyRid) entries →
  isLeafNodeFull (leafOf entries sib)
  = bool_decide (0 < INTARRAYLEAFSIZE ∧ length entries = INTARRAYLEAFSIZE).
Proof.
  intros Hlen Hocc. unfold isLeafNodeFull, leafOf. cbn [Leaf.ridArray].
  apply bool_decide_ext.
  destruct (decide (INTARRAYLEAFSIZE - 1 < length entries)) as [Hin|Hout].
  - rewrite lookup_total_app_l by (rewrite length_fmap; lia).
    destruct (lookup_lt_is_Some_2 entries (INTARRAYLEAFSIZE - 1) Hin) as [e He].
    rewrite (list_lookup_total_correct (entries.*2) _ e.2)
      by (by rewrite list_lookup_fmap, He).
    pose proof (Forall_lookup_1 _ _ _ _ Hocc He). cbn in *.
    split; [intros _; lia | done].
  - rewrite lookup_total_app_r by (rewrite length_fmap; lia).
    destruct (decide (INTARRAYLEAFSIZE - 1 - length entries.*2
                      < INTARRAYLEAFSIZE - length entries)).
    + rewrite lookup_total_replicate_2 by done. split; [done | lia].
    + rewrite length_fmap in *.
      assert (INTARRAYLEAFSIZE = 0) as HL by lia.
      split; [|lia]. intros Hne. exfalso. apply Hne.
      rewrite HL. by destruct entries.
Qed.

Lemma insertToNonLeafNode_nonLeafOf keys children index key pageID :
  length children = S (length keys) →
  length keys ≤ INTARRAYNONLEAFSIZE →
  index ≤ length keys → index < INTARRAYNONLEAFSIZE →
  insertToNonLeafNode (nonLeafOf keys children) index key pageID
  = nonLeafOf (take INTARRAYNONLEAFSIZE (insertAt index key keys))
              (take (S INTARRAYNONLEAFSIZE) (insertAt (S index) pageID children)).
Proof.
  intros Hlen Hkeys Hidx Hlt.
  rewrite insertToNonLeafNode_arrays;
    [|unfold nonLeafOf; cbn [NonLeaf.keyArray NonLeaf.pageNoArray];
      rewrite length_app, length_replicate; lia..|done].
  unfold nonLeafOf. cbn [NonLeaf.keyArray NonLeaf.pageNoArray].
  pose proof (padded_insert 0%Z keys INTARRAYNONLEAFSIZE index key) as Hk.
  pose proof (padded_insert 0 children (S INTARRAYNONLEAFSIZE) (S index) pageID)
    as Hc.
  cbv zeta in Hk, Hc.
  replace (S INTARRAYNONLEAFSIZE - 1 - S index)
    with (INTARRAYNONLEAFSIZE - 1 - index) in Hc by lia.
  by rewrite Hk, Hc by lia.
Qed.

End NodeRepresentation.

(** Order of keys. *)
Lemma nonDecreasing_StronglySorted keys :
  nonDecreasing keys ↔ StronglySorted Z.le keys.
Proof.
  split.
  - induction keys as [|k keys IH]; intros Hnd; constructor.
    + apply IH. intros i j a b Hij Ha Hb. by apply (Hnd (S i) (S j) a b); [lia|..].
    + apply Forall_lookup_2. intros j b Hb. by apply (Hnd 0 (S j) k b); [lia|..].
  - induction 1 as [|k keys Hs IH Hall]; intros i j a b Hij Ha Hb.
    { by rewrite lookup_nil in Ha. }
    destruct i as [|i], j as [|j]; cbn in Ha, Hb; simplify_eq.
    + lia.
    + by apply (Forall_lookup_1 _ _ _ _ Hall Hb).
    + lia.
    + apply (IH i j); [lia|done..].
Qed.

Lemma firstIndex_take_below key keys :
  Forall (λ v, (v < key)%Z) (take (firstIndex (hit true key) keys) keys).
Proof.
  induction keys as [|k keys IH]; cbn; [done|].
  destruct (k >=? key)%Z eqn:Hk; cbn; [done|]. constructor; [lia|done].
Qed.

Lemma firstIndex_drop_not_below key keys :
  StronglySorted Z.le keys →
  Forall (λ v, (key ≤ v)%Z) (drop (firstIndex (hit true key) keys) keys).
Proof.
  induction 1 as [|k keys Hs IH Hall]; cbn; [done|].
  destruct (k >=? key)%Z eqn:Hk; cbn; [|done].
  constructor; [lia|]. eapply Forall_impl; [done|]. cbn. lia.
Qed.

Lemma placed_keys key rid entries :
  (placed key rid entries).*1
  = insertAt (firstIndex (hit true key) entries.*1) key entries.*1.
Proof. unfold placed. by rewrite fmap_insertAt. Qed.

Lemma placed_nonDecreasing key rid entries :
  nonDecreasing entries.*1 → nonDecreasing (placed key rid entries).*1.
Proof.
  rewrite !nonDecreasing_StronglySorted, placed_keys. intros Hs.
  pose proof (firstIndex_take_below key entries.*1) as Hbelow.
  pose proof (firstIndex_drop_not_below key entries.*1 Hs) as Habove.
  assert (StronglySorted Z.le
            (take (firstIndex (hit true key) entries.*1) entries.*1
             ++ drop (firstIndex (hit true key) entries.*1) entries.*1))
    as Hparts by (by rewrite take_drop).
  unfold insertAt. apply StronglySorted_app_2.
  - intros a b Ha Hb.
    rewrite Forall_forall in Hbelow. specialize (Hbelow a Ha).
    apply elem_of_cons in Hb as [->|Hb]; [lia|].
    rewrite Forall_forall in Habove. specialize (Habove b Hb). cbn in *. lia.
  - by apply StronglySorted_app_1_l in Hparts.
  - constructor; [|done]. by apply StronglySorted_app_1_r in Hparts.
Qed.

Lemma placed_Permutation key rid entries :
  placed key rid entries ≡ₚ (key, rid) :: entries.
Proof.
  unfold placed, insertAt. rewrite <- Permutation_middle.
  by rewrite take_drop.
Qed.

(** ** Insertion into a leaf *)

Lemma take_insertAt_lt {A} c i (x : A) l :
  i ≤ c → c ≤ length l → take (S c) (insertAt i x l) = insertAt i x (take c l).
Proof.
  intros Hi Hc. unfold insertAt.
  rewrite take_app_ge by (rewrite length_take; lia).
  rewrite length_take. replace (S c - i `min` length l) with (S (c - i)) by lia.
  cbn. rewrite take_take. replace (i `min` c) with i by lia.
  do 2 f_equal. rewrite take_drop_commute. do 2 f_equal. lia.
Qed.

Lemma drop_insertAt_lt {A} c i (x : A) l :
  i ≤ c → c ≤ length l → drop (S c) (insertAt i x l) = drop c l.
Proof.
  intros Hi Hc. unfold insertAt.
  rewrite drop_app_ge by (rewrite length_take; lia).
  rewrite length_take. replace (S c - i `min` length l) with (S (c - i)) by lia.
  cbn. rewrite drop_drop. f_equal. lia.
Qed.

Lemma take_insertAt_ge {A} c i (x : A) l :
  c ≤ i → i ≤ length l → take c (insertAt i x l) = take c l.
Proof.
  intros Hi Hc. unfold insertAt.
  rewrite take_app_le by (rewrite length_take; lia).
  rewrite take_take. f_equal. lia.
Qed.

Lemma drop_insertAt_ge {A} c i (x : A) l :
  c ≤ i → i ≤ length l → drop c (insertAt i x l) = insertAt (i - c) x (drop c l).
Proof.
  intros Hi Hc. unfold insertAt.
  rewrite drop_app_le by (rewrite length_take; lia).
  rewrite drop_drop. replace (c + (i - c)) with i by lia. f_equal.
  rewrite take_drop_commute. do 2 f_equal. lia.
Qed.

Section LeafInsert.
Context {cap : NodeCapacity}.

Lemma insertHelper_leaf_room fuel bm pid entries sib key rid midVal :
  faults bm = [] →
  fetch bm pid = LeafPage (leafOf entries sib) →
  length entries < INTARRAYLEAFSIZE →
  Forall (λ e, e.2 ≠ emptyRid) entries →
  insertHelper (S fuel) pid key rid midVal bm
  = (Ok (0, midVal),
     unpin pid
       (store pid (LeafPage (leafOf (placed key rid entries) sib))
          (pin pid bm))).
Proof.
  intros Hf Hpage Hlen Hocc.
  cbn [insertHelper]. unfold getPageByPid. munfold.
  rewrite readPage_reliable by done. rewrite Hpage. cbn [isLeaf].
  unfold insertToLeafPage, setNode, unPinPage. munfold.
  cbn [getLeafNodeFromPage]. cbv beta iota.
  rewrite isLeafNodeFull_leafOf by (lia || done).
  rewrite bool_decide_eq_false_2 by lia. cbn [negb].
  destruct (leafOf_search entries sib key true ltac:(lia) Hocc)
    as (_ & -> & _).
  pose proof (firstIndex_le (hit true key) entries.*1) as Hidx.
  rewrite length_fmap in Hidx.
  rewrite insertToLeafNode_leafOf by lia.
  rewrite take_ge by (rewrite length_insertAt; lia).
  done.
Qed.

(** When the insertion reaches a leaf with a free slot, the leaf
    afterwards holds the old entries and the new one, the new one in front
    of the first entry whose key is not below its key; nothing is split,
    the caller's mid-value is left alone and no other page changes.  The
    keys stay in non-decreasing order when they were. *)
Theorem leaf_insert_in_place fuel bm pid entries sib key rid midVal :
  faults bm = [] →
  fetch bm pid = LeafPage (leafOf entries sib) →
  length entries < INTARRAYLEAFSIZE →
  Forall (λ e, e.2 ≠ emptyRid) entries →
  insertHelper (S fuel) pid key rid midVal bm
  = (Ok (0, midVal),
     unpin pid
       (store pid (LeafPage (leafOf (placed key rid entries) sib))
          (pin pid bm)))
  ∧ placed key rid entries ≡ₚ (key, rid) :: entries
  ∧ (nonDecreasing entries.*1 → nonDecreasing (placed key rid entries).*1).
Proof.
  intros Hf Hpage Hlen Hocc.
  split; [by apply insertHelper_leaf_room|].
  split; [apply placed_Permutation | apply placed_nonDecreasing].
Qed.

Lemma insertHelper_leaf_split fuel bm pid entries sib key rid midVal :
  3 ≤ INTARRAYLEAFSIZE →
  faults bm = [] →
  consistent bm →
  fetch bm pid = LeafPage (leafOf entries sib) →
  length entries = INTARRAYLEAFSIZE →
  Forall (λ e, e.2 ≠ emptyRid) entries →
  let index := firstIndex (hit true key) entries.*1 in
  let middleIndex := INTARRAYLEAFSIZE / 2 in
  let cut := if decide (index < middleIndex)
             then middleIndex + 2 else middleIndex in
  let left := take cut (placed key rid entries) in
  let right := drop cut (placed key rid entries) in
  left ≠ [] ∧ right ≠ []
  ∧ length left ≤ INTARRAYLEAFSIZE ∧ length right ≤ INTARRAYLEAFSIZE
  ∧ left ++ right ≡ₚ (key, rid) :: entries
  ∧ (nonDecreasing entries.*1 → nonDecreasing (left ++ right).*1)
  ∧ ∃ bm',
      insertHelper (S fuel) pid key rid midVal bm
      = (Ok (numPages bm, right.*1 !!! 0), bm')
      ∧ fetch bm' pid = LeafPage (leafOf left (numPages bm))
      ∧ fetch bm' (numPages bm) = LeafPage (leafOf right sib)
      ∧ numPages bm' = S (numPages bm)
      ∧ ∀ p, p ≠ pid → p ≠ numPages bm → pages bm' !! p = pages bm !! p.
Proof.
  intros HL Hf Hcons Hpage Hlen Hocc index middleIndex cut left right.
  assert (pid ≠ numPages bm) as Hfresh.
  { pose proof (consistent_in_use bm pid Hcons) as Hin.
    rewrite Hpage in Hin. specialize (Hin ltac:(done)). lia. }
  assert (1 ≤ middleIndex ∧ middleIndex + 2 ≤ INTARRAYLEAFSIZE) as [Hm1 Hm2].
  { subst middleIndex.
    pose proof (Nat.Div0.mul_div_le INTARRAYLEAFSIZE 2).
    pose proof (Nat.mul_succ_div_gt INTARRAYLEAFSIZE 2). lia. }
  pose proof (firstIndex_le (hit true key) entries.*1) as Hidx.
  rewrite length_fmap in Hidx. fold index in Hidx.
  assert (length (placed key rid entries) = S INTARRAYLEAFSIZE) as Hall
    by (unfold placed; by rewrite length_insertAt, Hlen).
  assert (length left = cut ∧ length right = S INTARRAYLEAFSIZE - cut
          ∧ 1 ≤ cut ≤ INTARRAYLEAFSIZE) as (Hleft & Hright & Hcut).
  { subst left right. rewrite length_take, length_drop, Hall.
    subst cut. case_decide; lia. }
  assert (left ++ right = placed key rid entries) as Hparts
    by apply take_drop.
  split; [intros Hnil; rewrite Hnil in Hleft; cbn in Hleft; lia|].
  split; [intros Hnil; rewrite Hnil in Hright; cbn in Hright; lia|].
  split; [lia|]. split; [lia|].
  split; [rewrite Hparts; apply placed_Permutation|].
  split; [rewrite Hparts; apply placed_nonDecreasing|].
  cbn [insertHelper]. unfold getPageByPid. munfold.
  rewrite readPage_reliable by done. rewrite Hpage. cbn [isLeaf].
  unfold insertToLeafPage, getPageByPid, setNode, unPinPage. munfold.
  cbn [getLeafNodeFromPage]. cbv beta iota.
  rewrite isLeafNodeFull_leafOf by (lia || done).
  rewrite bool_decide_eq_true_2 by lia. cbn [negb].
  destruct (leafOf_search entries sib key true ltac:(lia) Hocc)
    as (_ & -> & _).
  fold index middleIndex.
  rewrite splitLeafNode_leafOf
    by (unfold Nat.b2n; try case_bool_decide; lia).
  cbv beta iota.
  assert ((if bool_decide (index < middleIndex)
           then (insertToLeafNode
                   (leafOf (take (middleIndex
                                  + Nat.b2n (bool_decide (index < middleIndex)))
                              entries) sib) index key rid,
                 leafOf (drop (middleIndex
                               + Nat.b2n (bool_decide (index < middleIndex)))
                           entries) 0)
           else (leafOf (take (middleIndex
                               + Nat.b2n (bool_decide (index < middleIndex)))
                           entries) sib,
                 insertToLeafNode
                   (leafOf (drop (middleIndex
                                  + Nat.b2n (bool_decide (index < middleIndex)))
                              entries) 0) (index - middleIndex) key rid))
          = (leafOf left sib, leafOf right 0)) as ->.
  { subst left right cut. unfold placed. fold index.
    case_bool_decide as Hside; cbn [Nat.b2n].
    - rewrite decide_True by done.
      rewrite insertToLeafNode_leafOf by (rewrite ?length_take; lia).
      rewrite (take_ge (insertAt _ _ _))
        by (rewrite length_insertAt, length_take; lia).
      replace (middleIndex + 2) with (S (middleIndex + 1)) by lia.
      by rewrite take_insertAt_lt, drop_insertAt_lt by lia.
    - rewrite decide_False by done. rewrite Nat.add_0_r.
      rewrite insertToLeafNode_leafOf by (rewrite ?length_drop; lia).
      rewrite (take_ge (insertAt _ _ _))
        by (rewrite length_insertAt, length_drop; lia).
      by rewrite take_insertAt_ge, drop_insertAt_ge by lia. }
  cbv beta iota.
  rewrite createPageForNode_reliable by done.
  rewrite readPage_reliable by done.
  autorewrite with bufmgr.
  unfold leafOf at 1 2 3 4 5 6 7.
  cbn [Leaf.keyArray Leaf.ridArray Leaf.rightSibPageNo].
  rewrite (lookup_total_app_l right.*1) by (rewrite length_fmap; lia).
  eexists. split; [reflexivity|].
  autorewrite with bufmgr. split_and!.
  - rewrite fetch_store_ne by done. by rewrite fetch_store_eq.
  - done.
  - done.
  - intros p Hp Hnew.
    repeat (progress (unfold store, pin, unpin, withNewPage; cbn [pages])).
    by rewrite !lookup_insert_ne.
Qed.

(** When the insertion reaches a full leaf of capacity at least 3, the leaf
    is split.  The old entries and the new one, the new one in front of
    the first entry whose key is not below its key, are divided at a cut
    near the middle: the leaf keeps the entries before the cut, a newly
    allocated page gets the others and becomes the right sibling of the
    leaf, taking over its old right sibling.  Neither half is empty, no
    entry is lost or repeated, each half fits a leaf, the order of the keys
    is kept, the first key of the new page is reported with its page
    number, and no other page changes. *)
Theorem leaf_insert_split fuel bm pid entries sib key rid midVal :
  3 ≤ INTARRAYLEAFSIZE →
  faults bm = [] →
  consistent bm →
  fetch bm pid = LeafPage (leafOf entries sib) →
  length entries = INTARRAYLEAFSIZE →
  Forall (λ e, e.2 ≠ emptyRid) entries →
  let index := firstIndex (hit true key) entries.*1 in
  let middleIndex := INTARRAYLEAFSIZE / 2 in
  let cut := if decide (index < middleIndex)
             then middleIndex + 2 else middleIndex in
  let left := take cut (placed key rid entries) in
  let right := drop cut (placed key rid entries) in
  left ≠ [] ∧ right ≠ []
  ∧ length left ≤ INTARRAYLEAFSIZE ∧ length right ≤ INTARRAYLEAFSIZE
  ∧ left ++ right ≡ₚ (key, rid) :: entries
  ∧ (nonDecreasing entries.*1 → nonDecreasing (left ++ right).*1)
  ∧ ∃ bm',
      insertHelper (S fuel) pid key rid midVal bm
      = (Ok (numPages bm, right.*1 !!! 0), bm')
      ∧ fetch bm' pid = LeafPage (leafOf left (numPages bm))
      ∧ fetch bm' (numPages bm) = LeafPage (leafOf right sib)
      ∧ numPages bm' = S (numPages bm)
      ∧ ∀ p, p ≠ pid → p ≠ numPages bm → pages bm' !! p = pages bm !! p.
Proof. apply insertHelper_leaf_split. Qed.

End LeafInsert.

(** ** The pins of an insertion *)

Lemma pinned_pin p bm q :
  pinned (pin p bm) q = if decide (q = p) then S (pinned bm q) else pinned bm q.
Proof.
  unfold pinned, pin. cbn. case_decide as Hq.
  - subst. by rewrite lookup_insert_eq.
  - by rewrite lookup_insert_ne.
Qed.

Lemma pinned_unpin p bm q :
  pinned (unpin p bm) q
  = if decide (q = p) then pred (pinned bm q) else pinned bm q.
Proof.
  unfold pinned, unpin. cbn. case_decide as Hq.
  - subst. by rewrite lookup_insert_eq.
  - by rewrite lookup_insert_ne.
Qed.

Lemma pinned_store p page bm q : pinned (store p page bm) q = pinned bm q.
Proof. done. Qed.

Lemma pinned_consumed bm q : pinned (consumed bm) q = pinned bm q.
Proof. done. Qed.

Lemma pinned_withNewPage page bm q : pinned (withNewPage page bm) q = pinned bm q.
Proof.
  unfold withNewPage. rewrite pinned_unpin, pinned_store, pinned_pin.
  case_decide; [|done]. done.
Qed.

Ltac pins_solve :=
  repeat match goal with
         | H : pins _ _ |- _ => unfold pins in H
         | H : _ ∧ _ |- _ => destruct H
         end;
  unfold pins, bump, unbump in *;
  intros;
  rewrite ?pinned_pin, ?pinned_unpin, ?pinned_store, ?pinned_consumed,
    ?pinned_withNewPage;
  repeat match goal with
         | H : ∀ q, pinned _ q = _ |- context [pinned _ ?p] =>
             rewrite (H p)
         end;
  repeat case_decide; subst; try done; try lia.

Lemma readPage_pins g p :
  triple (pins g) (readPage p) (λ _, pins (bump p g)) (λ _, True).
Proof.
  intros bm Hbm. unfold readPage, mayFail. munfold.
  destruct (faults bm) as [|[] rest]; cbn; try done.
  all: intros q; rewrite pinned_pin; unfold bump, pinned in *; cbn;
    rewrite <- (Hbm q); by case_decide.
Qed.

Lemma unPinPage_pins g p dirty :
  triple (pins g) (unPinPage p dirty) (λ _, pins (unbump p g)) (λ _, True).
Proof.
  apply triple_modify. intros bm Hbm q. rewrite pinned_unpin. unfold unbump.
  by rewrite Hbm.
Qed.

Lemma setNode_pins g p page :
  triple (pins g) (setNode p page) (λ _, pins g) (λ _, True).
Proof. apply triple_modify. intros bm Hbm q. by rewrite pinned_store. Qed.

Lemma deref_pins g p :
  triple (pins g) (deref p) (λ _, pins g) (λ _, True).
Proof. by intros bm Hbm. Qed.

Lemma allocPage_pins g :
  triple (pins g) allocPage (λ pid, pins (bump pid g)) (λ _, True).
Proof.
  intros bm Hbm. unfold allocPage, mayFail. munfold.
  destruct (faults bm) as [|[] rest]; cbn; try done.
  all: intros q; rewrite pinned_pin; unfold bump, pinned in *; cbn;
    rewrite <- (Hbm q); by case_decide.
Qed.

Lemma pins_unbump_bump p g bm : pins (unbump p (bump p g)) bm → pins g bm.
Proof. intros H q. rewrite (H q). unfold unbump, bump. by case_decide. Qed.

Section Pins.
Context {cap : NodeCapacity}.

Lemma createPageForNode_pins g node :
  triple (pins g) (createPageForNode node) (λ _, pins g) (λ _, True).
Proof.
  unfold createPageForNode.
  eapply triple_bind; [apply allocPage_pins|]. intros pid.
  eapply triple_bind; [apply setNode_pins|]. intros ?.
  eapply triple_bind; [apply unPinPage_pins|]. intros ?.
  apply triple_ret. intros bm. apply pins_unbump_bump.
Qed.

Lemma insertToLeafPage_pins g page pid key rid midVal :
  triple (pins (bump pid g)) (insertToLeafPage page pid key rid midVal)
    (λ _, pins g) (λ _, True).
Proof.
  unfold insertToLeafPage, getPageByPid.
  eapply triple_bind; [apply triple_defined; [done|]; intros a s _ Hs; exact Hs|].
  intros origNode. cbv beta zeta. case_match.
  { eapply triple_bind; [apply setNode_pins|]. intros ?.
    eapply triple_bind; [apply unPinPage_pins|]. intros ?.
    apply triple_ret. intros bm. apply pins_unbump_bump. }
  destruct (splitLeafNode _ _) as [left0 right0]. cbv beta iota.
  match goal with
  | |- context [let '(_, _) := ?pair in _] => destruct pair as [left right]
  end.
  cbv beta iota.
  eapply triple_bind; [apply setNode_pins|]. intros ?.
  eapply triple_bind; [apply createPageForNode_pins|]. intros newPageId.
  eapply triple_bind; [apply readPage_pins|]. intros ?.
  eapply triple_bind; [apply setNode_pins|]. intros ?.
  eapply triple_bind; [apply setNode_pins|]. intros ?.
  eapply triple_bind; [apply unPinPage_pins|]. intros ?.
  eapply triple_bind; [apply unPinPage_pins|]. intros ?.
  apply triple_ret. intros bm Hbm q. rewrite (Hbm q).
  unfold unbump, bump. repeat case_decide; subst; try done; lia.
Qed.

Lemma insertHelper_pins fuel g pid key rid midVal :
  triple (pins g) (insertHelper fuel pid key rid midVal)
    (λ _, pins g) (λ _, True).
Proof.
  revert g pid midVal. induction fuel as [|fuel IH]; intros g pid midVal;
    cbn [insertHelper]; [by apply triple_outOfFuel|].
  unfold getPageByPid.
  eapply triple_bind; [apply readPage_pins|]. intros page.
  case_match; [apply insertToLeafPage_pins|].
  eapply triple_bind; [apply triple_defined; [done|]; intros a s _ Hs; exact Hs|].
  intros origNode. cbv beta zeta.
  eapply triple_bind; [apply IH|].
  intros [newChildPageId newChildMidVal]. cbv beta iota.
  case_decide.
  { eapply triple_bind; [apply unPinPage_pins|]. intros ?.
    apply triple_ret. intros bm. apply pins_unbump_bump. }
  eapply triple_bind; [apply deref_pins|]. intros origPage.
  eapply triple_bind; [apply triple_defined; [done|]; intros a s _ Hs; exact Hs|].
  intros origNode'. cbv beta zeta.
  case_match.
  { eapply triple_bind; [apply setNode_pins|]. intros ?.
    eapply triple_bind; [apply unPinPage_pins|]. intros ?.
    apply triple_ret. intros bm. apply pins_unbump_bump. }
  destruct (splitNonLeafNode _ _ _) as [left0 right0]. cbv beta iota.
  match goal with
  | |- context [let '(_, _) := ?pair in _] => destruct pair as [left right]
  end.
  cbv beta iota.
  eapply triple_bind; [apply setNode_pins|]. intros ?.
  eapply triple_bind; [apply unPinPage_pins|]. intros ?.
  eapply triple_bind; [apply createPageForNode_pins|]. intros newPageId.
  apply triple_ret. intros bm. apply pins_unbump_bump.
Qed.

Lemma triple_onBufMgr {A} (P : BufMgr → Prop) (m : M BufMgr A) Q E :
  triple P m Q E →
  triple (λ s, P (bufMgr s)) (onBufMgr m)
    (λ a s, Q a (bufMgr s)) (λ s, E (bufMgr s)).
Proof.
  intros Hm s Hs. specialize (Hm (bufMgr s) Hs). unfold onBufMgr, zoom.
  destruct (m (bufMgr s)) as [[a| | |] bm']; done.
Qed.

(** An [insertEntry] that returns leaves every page with the number of
    pins it had: each page read or allocated on the way down, in a split
    and for a new root is unpinned again. *)
Theorem insertEntry_releases_pins fuel key rid s :
  (insertEntry fuel key rid s).1 = Ok tt →
  ∀ pid, pinned (bufMgr (insertEntry fuel key rid s).2) pid
         = pinned (bufMgr s) pid.
Proof.
  assert (triple (λ s', pins (pinned (bufMgr s)) (bufMgr s'))
            (insertEntry fuel key rid)
            (λ _ s', pins (pinned (bufMgr s)) (bufMgr s')) (λ _, True))
    as Htriple.
  { generalize (pinned (bufMgr s)). intros g. unfold insertEntry.
    apply (triple_bind _ _ _ (λ _ s', pins g (bufMgr s'))); [by intros s0 Hs0|].
    intros s0. cbv beta zeta.
    apply (triple_bind _ _ _ (λ _ s', pins g (bufMgr s')));
      [apply (triple_onBufMgr (pins g) _ (λ _, pins g) (λ _, True)),
         insertHelper_pins|].
    intros [newPageId midVal]. cbv beta iota. case_decide.
    { by apply triple_ret. }
    apply (triple_bind _ _ _ (λ pid s', pins (bump pid g) (bufMgr s')));
      [apply (triple_onBufMgr (pins g) _ (λ pid, pins (bump pid g)) (λ _, True)),
         allocPage_pins|].
    intros pid.
    apply (triple_bind _ _ _ (λ _ s', pins (bump pid g) (bufMgr s')));
      [apply (triple_onBufMgr (pins (bump pid g)) _ (λ _, pins (bump pid g))
                (λ _, True)), setNode_pins|].
    intros ?.
    apply (triple_bind _ _ _ (λ _ s', pins (unbump pid (bump pid g)) (bufMgr s')));
      [apply (triple_onBufMgr (pins (bump pid g)) _
                (λ _, pins (unbump pid (bump pid g))) (λ _, True)),
         unPinPage_pins|].
    intros ?.
    apply triple_modify. intros s1. cbn. apply pins_unbump_bump. }
  intros Hok. specialize (Htriple s ltac:(done)).
  destruct (insertEntry fuel key rid s) as [[[]| | |] s']; done.
Qed.

End Pins.

(** ** The pins of a scan *)

Section ScanPins.
Context {cap : NodeCapacity}.

Lemma pins_unpin p f bm : pins (bump p f) bm → pins f (unpin p bm).
Proof.
  intros Hbm q. rewrite pinned_unpin, (Hbm q). unfold bump. by case_decide.
Qed.

Lemma initPageId_pins fuel f :
  triple (λ s, pins f (bufMgr s)) (initPageId fuel)
    (λ _, positioned f) (λ _, True).
Proof.
  induction fuel as [|fuel IH]; intros s Hs; cbn [initPageId]; [done|].
  unfold getPageByPid, unPinPage. munfold.
  pose proof (readPage_pins f (currentPageNum s) (bufMgr s) Hs) as Hread.
  destruct (readPage (currentPageNum s) (bufMgr s)) as [[page| | |] bm'];
    try done.
  cbn [bufMgr set_bufMgr set_currentPageData currentPageNum].
  destruct page as [|node|node]; cbn [isLeaf getNonLeafNodeFromPage].
  - match goal with
    | |- context [initPageId fuel ?s1] =>
        specialize (IH s1); destruct (initPageId fuel s1) as [[[]| | |] s2]
    end; try done.
    apply IH. cbn. by apply pins_unpin.
  - by split.
  - match goal with
    | |- context [initPageId fuel ?s1] =>
        specialize (IH s1); destruct (initPageId fuel s1) as [[[]| | |] s2]
    end; try done.
    apply IH. cbn. by apply pins_unpin.
Qed.

Lemma moveToNextPage_pins f node :
  triple (λ s, pins (bump (currentPageNum s) f) (bufMgr s))
    (moveToNextPage node) (λ _, positioned f) (λ _, True).
Proof.
  intros s Hs. unfold moveToNextPage, getPageByPid, unPinPage. munfold.
  cbn [bufMgr set_bufMgr set_currentPageNum].
  assert (pins f (unpin (currentPageNum s) (bufMgr s))) as Hun.
  { by apply pins_unpin. }
  pose proof (readPage_pins f (Leaf.rightSibPageNo node) _ Hun) as Hread.
  destruct (readPage (Leaf.rightSibPageNo node) _) as [[page| | |] bm'];
    try done.
Qed.

Lemma initEntryIndex_pins f :
  triple (positioned f) initEntryIndex (λ _, positioned f) (λ _, True).
Proof.
  intros s [Hs Hdata]. unfold initEntryIndex. munfold.
  rewrite currentLeaf_run. rewrite Hdata.
  destruct (getLeafNodeFromPage _) as [node|]; [|done].
  destruct (findScanIndexLeaf _ _ _) as [i|]; [by split|].
  by apply moveToNextPage_pins.
Qed.

Lemma setNextEntry_pins f :
  triple (positioned f) setNextEntry (λ _, positioned f) (λ _, True).
Proof.
  intros s [Hs Hdata]. unfold setNextEntry. munfold.
  rewrite currentLeaf_run. cbn [currentPageData set_nextEntry bufMgr].
  rewrite Hdata.
  destruct (getLeafNodeFromPage _) as [node|]; [|done].
  cbn [nextEntry]. destruct (_ || _); [|by split].
  by apply (moveToNextPage_pins f node (set_nextEntry _ s)).
Qed.

Lemma startScan_pins fuel lv lo hv ho f :
  triple (λ s, pins f (bufMgr s)) (startScan fuel lv lo hv ho)
    (λ _, positioned f) (λ _, True).
Proof.
  intros s Hs. unfold startScan.
  destruct (_ && _); [done|]. destruct (_ && _); [done|]. munfold.
  cbn [lowValInt highValInt set_lowValInt set_highValInt].
  destruct (_ >? _)%Z; [done|].
  match goal with
  | |- context [initPageId fuel ?s1] =>
      pose proof (initPageId_pins fuel f s1 Hs) as Hinit;
      destruct (initPageId fuel s1) as [[[]| | |] s2]
  end; try done.
  by apply initEntryIndex_pins.
Qed.

Lemma setNextEntry_executing : preserves executing setNextEntry.
Proof.
  unfold setNextEntry, currentLeaf.
  repeat (preserves_step; try done). apply moveToNextPage_executing.
Qed.

Lemma startScan_scanPins fuel lv lo hv ho f :
  triple (λ s, pins f (bufMgr s)) (startScan fuel lv lo hv ho)
    (λ _, scanPins f) (λ _, True).
Proof.
  intros s Hs. pose proof (startScan_pins fuel lv lo hv ho f s Hs) as Hpins.
  destruct (startScan fuel lv lo hv ho s) as [[[]| | |] s'] eqn:Hrun; try done.
  split; [done|].
  unfold startScan in Hrun.
  destruct (_ && _); [done|]. destruct (_ && _); [done|]. munfold.
  cbn [lowValInt highValInt set_lowValInt set_highValInt] in Hrun.
  destruct (_ >? _)%Z; [done|].
  match type of Hrun with
  | context [initPageId fuel ?s1] =>
      pose proof (initPageId_executing fuel s1 eq_refl) as Hinit;
      destruct (initPageId fuel s1) as [[[]| | |] s2]
  end; try done.
  pose proof (initEntryIndex_executing s2 Hinit) as Hentry.
  by rewrite Hrun in Hentry.
Qed.

(** A [startScan] that returns has pinned exactly one more page, the leaf
    at which the scan stands, and has released no pin: when a scan was in
    progress, the leaf that scan had pinned stays pinned. *)
Theorem startScan_adds_one_pin fuel lv lo hv ho s s' :
  startScan fuel lv lo hv ho s = (Ok tt, s') →
  (∀ q, pinned (bufMgr s') q
        = if decide (q = currentPageNum s') then S (pinned (bufMgr s) q)
          else pinned (bufMgr s) q)
  ∧ currentPageData s' = Some (currentPageNum s')
  ∧ scanExecuting s' = true.
Proof.
  intros Hrun.
  pose proof (startScan_scanPins fuel lv lo hv ho (pinned (bufMgr s)) s
                ltac:(done)) as Hpins.
  rewrite Hrun in Hpins. destruct Hpins as [[Hpins Hdata] Hexec].
  split_and!; [|done|done]. intros q. by rewrite (Hpins q).
Qed.

Lemma scanNext_scanPins f s out :
  scanPins f s →
  scanAnswer (scanNext (s, out)).1 → scanPins f (scanNext (s, out)).2.1.
Proof.
  intros [[Hs Hdata] Hexec]. unfold scanNext. munfold. cbn [fst snd].
  rewrite Hexec. cbn [negb]. rewrite currentLeaf_run. cbn [fst snd].
  rewrite Hdata.
  destruct (getLeafNodeFromPage _) as [node|] eqn:Hnode;
    [|cbn; intros [?|?]; done].
  assert (currentLeaf s = (Ok node, s)) as Hleaf
    by (by rewrite currentLeaf_run, Hdata, Hnode).
  destruct (Leaf.ridArray node !! nextEntry s) as [r|];
    [|cbn; intros [?|?]; done].
  cbn [fst snd]. destruct (decide (r = emptyRid)); [done|].
  destruct (Leaf.keyArray node !! nextEntry s) as [k|];
    [|cbn; intros [?|?]; done].
  cbn [fst snd]. destruct (_ >? _)%Z; [done|].
  destruct (_ && _); [done|]. cbn [fst snd].
  pose proof (setNextEntry_pins f s ltac:(done)) as Hnext.
  pose proof (setNextEntry_executing s Hexec) as Hnext'.
  pose proof (setNextEntry_not_completed s node Hleaf) as Hnever.
  destruct (setNextEntry s) as [[[]| | |] s2]; cbn;
    [intros _; by split | intros [?|?]; try done; cbn in Hnever; congruence..].
Qed.

Lemma endScan_scanPins f s :
  scanPins f s →
  (endScan s).1 = Ok tt ∧ pins f (bufMgr (endScan s).2).
Proof.
  intros [[Hs Hdata] Hexec]. rewrite endScan_run, Hexec. cbn.
  split; [done|]. by apply pins_unpin.
Qed.

Lemma scan_calls_pins fuel f n p :
  scanPins f p.1 →
  let run := calls fuel (replicate n CallScanNext ++ [CallEndScan]) p in
  Forall (λ r, scanAnswer r.1) run.1 → pins f (bufMgr run.2.1).
Proof.
  revert p. induction n as [|n IH]; intros [s out] Hp; cbn [fst] in Hp.
  - cbn. unfold onIndex, zoom. cbn.
    destruct (endScan_scanPins f s Hp) as [_ Hend].
    intros _. by destruct (endScan s).
  - cbn [replicate app calls call].
    pose proof (scanNext_scanPins f s out Hp) as Hstep.
    destruct (scanNext (s, out)) as [r [s1 out1]]. cbn [fst snd] in Hstep.
    specialize (IH (s1, out1)). cbv zeta in IH.
    destruct (calls fuel (replicate n CallScanNext ++ [CallEndScan]) (s1, out1))
      as [trace p2].
    cbn [fst snd] in *. intros Hall.
    apply Forall_cons in Hall as [Hr Hall]. auto.
Qed.

(** A scan that is started, advanced any number of times and ended leaves
    every page with the number of pins it had before, provided each call
    returned or, for [scanNext], reported the end of the scan. *)
Theorem scan_session_releases_pins fuel lv lo hv ho n s out :
  let run := calls fuel (CallStartScan lv lo hv ho
                         :: replicate n CallScanNext ++ [CallEndScan])
               (s, out) in
  run.1.*1 !! 0 = Some (Ok tt) →
  Forall scanAnswer run.1.*1 →
  ∀ q, pinned (bufMgr run.2.1) q = pinned (bufMgr s) q.
Proof.
  cbv zeta. cbn [calls call]. unfold onIndex at 1 2 3, zoom. cbn [fst snd].
  pose proof (startScan_scanPins fuel lv lo hv ho (pinned (bufMgr s)) s
                ltac:(done)) as Hstart.
  destruct (startScan fuel lv lo hv ho s) as [r s1].
  pose proof (scan_calls_pins fuel (pinned (bufMgr s)) n (s1, out)) as Hrest.
  cbv zeta in Hrest.
  destruct (calls fuel (replicate n CallScanNext ++ [CallEndScan]) (s1, out))
    as [trace p2].
  cbn [fst snd] in *. rewrite fmap_cons. cbn [fst].
  intros [= ->] Hall. apply Forall_cons in Hall as [_ Hall].
  change (pins (pinned (bufMgr s)) (bufMgr p2.1)).
  rewrite Forall_fmap in Hall. by apply Hrest.
Qed.

End ScanPins.

(** ** What a scan delivers *)

Section ScanResults.
Context {cap : NodeCapacity}.

Lemma leafOf_rid entries sib i :
  length entries ≤ INTARRAYLEAFSIZE → i < INTARRAYLEAFSIZE →
  Leaf.ridArray (leafOf entries sib) !! i
  = Some (default emptyRid (snd <$> entries !! i)).
Proof.
  intros Hlen Hi. unfold leafOf. cbn [Leaf.ridArray].
  destruct (decide (i < length entries)) as [Hin|Hout].
  - rewrite lookup_app_l by (by rewrite length_fmap).
    rewrite list_lookup_fmap.
    by destruct (lookup_lt_is_Some_2 entries i Hin) as [e ->].
  - rewrite lookup_app_r by (rewrite length_fmap; lia).
    rewrite lookup_replicate_2 by (rewrite length_fmap; lia).
    by rewrite (lookup_ge_None_2 entries i) by lia.
Qed.

Lemma leafOf_key entries sib i e :
  entries !! i = Some e → Leaf.keyArray (leafOf entries sib) !! i = Some e.1.
Proof.
  intros He. unfold leafOf. cbn [Leaf.keyArray].
  rewrite lookup_app_l
    by (rewrite length_fmap; by apply lookup_lt_is_Some_1).
  by rewrite list_lookup_fmap, He.
Qed.

Lemma scanAt_currentLeaf pages0 hv ho pid i s node :
  scanAt pages0 hv ho pid i s →
  pages0 !! pid = Some (LeafPage node) →
  currentLeaf s = (Ok node, s).
Proof.
  intros (_ & Hdata & _ & _ & _ & _ & Hpages) Hpage.
  rewrite currentLeaf_run, Hdata. unfold fetch. by rewrite Hpages, Hpage.
Qed.

Lemma scanDone_pastHigh s r k :
  r ≠ emptyRid → scanDone s r k ↔ pastHigh (highValInt s) (highOp s) k = true.
Proof.
  intros Hr. unfold scanDone, pastHigh.
  rewrite orb_true_iff, andb_true_iff, bool_decide_eq_true.
  split.
  - intros [?|[?|[? ?]]]; [done | left; lia | right; split; [lia|done]].
  - intros [?|[? ?]]; [right; left; lia | right; right; split; [lia|done]].
Qed.

Lemma scanNext_in_leaf pages0 hv ho pid i s out entries sib k r :
  scanAt pages0 hv ho pid i s →
  pages0 !! pid = Some (LeafPage (leafOf entries sib)) →
  scannable entries →
  entries !! i = Some (k, r) →
  if pastHigh hv ho k
  then scanNext (s, out) = (Throw IndexScanCompletedException, (s, r))
  else ∃ s', scanNext (s, out) = (Ok tt, (s', r))
             ∧ if decide (S i < length entries)
               then scanAt pages0 hv ho pid (S i) s'
               else scanAt pages0 hv ho sib 0 s'.
Proof.
  intros Hat Hpage (Hne & Hlen & Hocc) He.
  pose proof (scanAt_currentLeaf _ _ _ _ _ _ _ Hat Hpage) as Hleaf.
  destruct Hat as (Hexec & Hdata & Hi & Hhv & Hho & Hf & Hpages).
  pose proof (lookup_lt_Some _ _ _ He) as Hlt.
  pose proof (Forall_lookup_1 _ _ _ _ Hocc He) as Hr. cbn in Hr.
  assert (r ≠ emptyRid) as Hr' by (intros ->; done).
  rewrite (scanNext_run s out (leafOf entries sib) r k); [|done|done|..].
  2:{ rewrite Hi, leafOf_rid by lia. by rewrite He. }
  2:{ rewrite Hi. by rewrite (leafOf_key _ _ _ _ He). }
  rewrite (bool_decide_ext _ _ (scanDone_pastHigh s r k Hr')).
  rewrite Hhv, Hho.
  destruct (pastHigh hv ho k) eqn:Hpast.
  { by rewrite bool_decide_eq_true_2. }
  rewrite bool_decide_eq_false_2 by done.
  destruct (decide (S i < length entries)) as [Hin|Hout].
  - destruct (lookup_lt_is_Some_2 entries (S i) Hin) as [e' He'].
    pose proof (Forall_lookup_1 _ _ _ _ Hocc He') as Hr2. cbn in Hr2.
    rewrite (setNextEntry_within_leaf s (leafOf entries sib)); [|done|lia|].
    + eexists. split; [done|]. by rewrite <- Hi.
    + rewrite Hi.
      erewrite list_lookup_total_correct; [exact Hr2|].
      rewrite leafOf_rid by lia. by rewrite He'.
  - unfold setNextEntry. munfold.
    rewrite (currentLeaf_set_nextEntry _ _ _ Hleaf). cbn [nextEntry set_nextEntry].
    assert (bool_decide (INTARRAYLEAFSIZE ≤ S (nextEntry s))
            || bool_decide
                 (page_number
                    (Leaf.ridArray (leafOf entries sib) !!! S (nextEntry s)) = 0)
            = true) as ->.
    { rewrite Hi. apply orb_true_iff.
      destruct (decide (INTARRAYLEAFSIZE ≤ S i)) as [?|Hroom];
        [left; by apply bool_decide_eq_true_2|right].
      apply bool_decide_eq_true_2.
      erewrite list_lookup_total_correct; [|apply leafOf_rid; lia].
      by rewrite (lookup_ge_None_2 entries (S i)) by lia. }
    rewrite moveToNextPage_ok
      by (unfold willSucceed, set_nextEntry; cbn [bufMgr]; by rewrite Hf).
    cbn [Leaf.rightSibPageNo]. eexists. split; [done|].
    unfold scanAt, pin, consumed, unpin. cbn. by rewrite Hf.
Qed.

Lemma scanNext_past_chain pages0 hv ho s out :
  0 < INTARRAYLEAFSIZE →
  scanAt pages0 hv ho 0 0 s → pages0 !! 0 = None →
  scanNext (s, out) = (Throw IndexScanCompletedException, (s, emptyRid)).
Proof.
  intros HL (Hexec & Hdata & Hi & Hhv & Hho & Hf & Hpages) Hzero.
  apply (scanNext_writes s out newLeafNodeInt emptyRid); [done| |  |done].
  - rewrite currentLeaf_run, Hdata. unfold fetch. by rewrite Hpages, Hzero.
  - rewrite Hi. unfold newLeafNodeInt. cbn. by apply lookup_replicate_2.
Qed.

Lemma scanAll_chain pages0 hv ho fuel :
  pages0 !! 0 = None →
  ∀ rest pid entries i s out,
    scanAt pages0 hv ho pid i s →
    leafChainIs pages0 pid (entries :: rest) →
    Forall scannable (entries :: rest) →
    i < length entries →
    length (drop i entries ++ concat rest) < fuel →
    (scanAll fuel (s, out)).1
    = Ok (untilHigh hv ho (drop i entries ++ concat rest)).*2.
Proof.
  intros Hzero. induction fuel as [|fuel IH];
    intros rest pid entries i s out Hat Hchain Hall Hi Hfuel; [lia|].
  destruct Hchain as (sib & Hpage & Hchain).
  apply Forall_cons in Hall as [Hleaf Hall].
  destruct (lookup_lt_is_Some_2 entries i Hi) as [[k r] He].
  pose proof (scanNext_in_leaf _ _ _ _ _ _ out _ _ _ _ Hat Hpage Hleaf He)
    as Hstep.
  rewrite (drop_S _ _ _ He) in Hfuel |- *. cbn [app untilHigh fst length] in *.
  cbn [scanAll].
  destruct (pastHigh hv ho k).
  { by rewrite Hstep. }
  destruct Hstep as (s' & -> & Hat'). cbn [snd].
  destruct (decide (S i < length entries)) as [Hin|Hout].
  - specialize (IH rest pid entries (S i) s' r Hat'
                  ltac:(by exists sib) ltac:(by constructor) Hin ltac:(lia)).
    destruct (scanAll fuel (s', r)) as [res p2]. cbn in IH. by subst res.
  - rewrite (drop_ge entries (S i)) in Hfuel |- * by lia.
    cbn [app] in *.
    destruct rest as [|entries2 rest].
    + cbn in Hchain. subst sib. destruct fuel as [|fuel]; [cbn in Hfuel; lia|].
      cbn [scanAll concat untilHigh].
      destruct Hleaf as (Hne & Hlen & _).
      rewrite (scanNext_past_chain pages0 hv ho s' r); [done| |done..].
      destruct entries; [done|cbn in Hlen; lia].
    + pose proof Hall as Hall2. apply Forall_cons in Hall2 as [Hleaf2 _].
      assert (0 < length entries2) as Hpos.
      { destruct Hleaf2 as (Hne & _). destruct entries2; [done|cbn; lia]. }
      specialize (IH rest sib entries2 0 s' r Hat' Hchain Hall Hpos).
      rewrite drop_0 in IH. cbn [concat] in *.
      specialize (IH ltac:(lia)).
      destruct (scanAll fuel (s', r)) as [res p2]. cbn in IH. by subst res.
Qed.

(** A scan that stands at slot [i] of a leaf, followed to its end by a
    client that calls [scanNext] until the end is reported, delivers the
    record ids of the entries from slot [i] on and of the leaves that
    follow along the right siblings, in that order, up to the first entry
    whose key is past the high bound.  Each leaf holds at least one entry
    and no record id with page number 0, and the page read for the sibling
    number 0 behind the last leaf is zero-filled. *)
Theorem scan_delivers_chain pages0 hv ho fuel rest pid entries i s out :
  pages0 !! 0 = None →
  scanAt pages0 hv ho pid i s →
  leafChainIs pages0 pid (entries :: rest) →
  Forall scannable (entries :: rest) →
  i < length entries →
  length (drop i entries ++ concat rest) < fuel →
  (scanAll fuel (s, out)).1
  = Ok (untilHigh hv ho (drop i entries ++ concat rest)).*2.
Proof. intros Hzero. by apply scanAll_chain. Qed.

End ScanResults.

(** ** The descent of a scan *)

Section Descent.
Context {cap : NodeCapacity}.

Lemma initPageId_descends fuel n s leaf :
  descends (pages (bufMgr s)) (lowValInt s) n (currentPageNum s) leaf →
  faults (bufMgr s) = [] →
  n < fuel →
  ∃ s', initPageId fuel s = (Ok tt, s') ∧ arrived s leaf s'.
Proof.
  revert n s. induction fuel as [|fuel IH]; intros n s Hdesc Hf Hfuel; [lia|].
  cbn [initPageId]. unfold getPageByPid, unPinPage. munfold.
  rewrite readPage_reliable by done.
  cbn [bufMgr set_bufMgr set_currentPageData currentPageNum lowValInt].
  inversion Hdesc as [pid node Hpage|n' pid keys children child leaf'
                        Hpage Hlen Hkeys Hocc Hchild Hrest]; subst.
  - assert (fetch (bufMgr s) (currentPageNum s) = LeafPage node) as ->
      by (unfold fetch; by rewrite Hpage).
    cbn [isLeaf].
    eexists. split; [done|]. unfold arrived, pin. cbn. by rewrite Hf.
  - assert (fetch (bufMgr s) (currentPageNum s)
            = NonLeafPage (nonLeafOf keys children)) as ->
      by (unfold fetch; by rewrite Hpage).
    cbn [isLeaf getNonLeafNodeFromPage]. cbv beta iota.
    destruct (nonLeafOf_search keys children (lowValInt s) Hlen Hkeys Hocc)
      as (_ & _ & Hlookup & _).
    rewrite Hchild in Hlookup.
    rewrite (list_lookup_total_correct _ _ _ Hlookup).
    match goal with
    | |- context [initPageId fuel ?s1] =>
        destruct (IH n' s1) as (s' & Hrun & Harr)
    end.
    + unfold pin, unpin. cbn. done.
    + unfold pin, unpin. cbn. done.
    + lia.
    + exists s'. split; [done|]. unfold arrived, pin, unpin in *. cbn in Harr.
      done.
Qed.

Lemma startScan_descends fuel n s lv lo hv ho leaf entries sib :
  let root := Meta.rootPageNo (indexMetaInfo s) in
  let j := firstIndex (hit (bool_decide (lo = GTE)) lv) entries.*1 in
  lo = GT ∨ lo = GTE → ho = LT ∨ ho = LTE → (lv ≤ hv)%Z →
  faults (bufMgr s) = [] →
  descends (pages (bufMgr s)) lv n root leaf →
  pages (bufMgr s) !! leaf = Some (LeafPage (leafOf entries sib)) →
  length entries ≤ INTARRAYLEAFSIZE →
  Forall (λ e, e.2 ≠ emptyRid) entries →
  n < fuel →
  ∃ s', startScan fuel lv lo hv ho s = (Ok tt, s')
        ∧ Meta.rootPageNo (indexMetaInfo s') = root
        ∧ if decide (j < length entries)
          then scanAt (pages (bufMgr s)) hv ho leaf j s'
          else scanAt (pages (bufMgr s)) hv ho sib 0 s'.
Proof.
  intros root j Hlo Hho Hrange Hf Hdesc Hpage Hlen Hocc Hfuel.
  rewrite startScan_valid by done. munfold.
  destruct (initPageId_descends fuel n (scanArgs lv lo hv ho s) leaf)
    as (s1 & -> & Harr); [done..|].
  destruct Harr as (Hnum & Hdata & Hpages & Hf1 & Hmeta & Hexec & Hnext
                    & Hlv & Hhv & Hlo' & Hho').
  cbn in Hpages, Hmeta, Hexec, Hlv, Hhv, Hlo', Hho'.
  unfold initEntryIndex. munfold. rewrite currentLeaf_run, Hdata.
  assert (fetch (bufMgr s1) leaf = LeafPage (leafOf entries sib)) as ->
    by (unfold fetch; by rewrite Hpages, Hpage).
  cbn [getLeafNodeFromPage]. rewrite Hlv, Hlo'.
  destruct (leafOf_search entries sib lv (bool_decide (lo = GTE)) Hlen Hocc)
    as (_ & _ & ->).
  cbv zeta. fold j.
  destruct (decide (j < length entries)) as [Hin|Hout].
  - eexists. split; [done|]. split; [cbn; by rewrite Hmeta|].
    unfold scanAt. cbn. done.
  - rewrite moveToNextPage_ok by (unfold willSucceed; by rewrite Hf1).
    eexists. split; [done|]. split; [cbn; by rewrite Hmeta|].
    unfold scanAt, pin, consumed, unpin. cbn. by rewrite Hf1.
Qed.

Lemma scanAll_descends fuel n s out lv lo hv ho leaf entries rest :
  let root := Meta.rootPageNo (indexMetaInfo s) in
  let j := firstIndex (hit (bool_decide (lo = GTE)) lv) entries.*1 in
  let found := drop j entries ++ concat rest in
  0 < INTARRAYLEAFSIZE →
  lo = GT ∨ lo = GTE → ho = LT ∨ ho = LTE → (lv ≤ hv)%Z →
  faults (bufMgr s) = [] →
  pages (bufMgr s) !! 0 = None →
  descends (pages (bufMgr s)) lv n root leaf →
  leafChainIs (pages (bufMgr s)) leaf (entries :: rest) →
  length entries ≤ INTARRAYLEAFSIZE →
  Forall (λ e, page_number e.2 ≠ 0) entries →
  Forall scannable rest →
  n < fuel →
  ∃ s', startScan fuel lv lo hv ho s = (Ok tt, s')
        ∧ ∀ k, S (length found) < k →
               (scanAll k (s', out)).1 = Ok (untilHigh hv ho found).*2.
Proof.
  intros root j found HL Hlo Hho Hrange Hf Hzero Hdesc Hchain Hlen Hocc Hrest
    Hfuel.
  assert (Forall (λ e, e.2 ≠ emptyRid) entries) as Hocc'.
  { eapply Forall_impl; [done|]. intros e He Heq. cbn in He. apply He.
    by rewrite Heq. }
  pose proof Hchain as (sib & Hpage & Hsib).
  destruct (startScan_descends fuel n s lv lo hv ho leaf entries sib
              Hlo Hho Hrange Hf Hdesc Hpage Hlen Hocc' Hfuel)
    as (s' & Hstart & _ & Hat).
  exists s'. split; [done|]. fold j in Hat. subst found. intros k Hk.
  destruct (decide (j < length entries)) as [Hin|Hout].
  - apply (scanAll_chain (pages (bufMgr s)) hv ho _ Hzero rest leaf entries j
             s' out Hat Hchain); [|done|lia].
    constructor; [|done]. split_and!; [|done|done].
    intros ->. cbn in Hin. lia.
  - rewrite drop_ge in Hk |- * by lia. cbn [app] in *.
    destruct rest as [|entries2 rest].
    + cbn in Hsib. subst sib. destruct k as [|k]; [lia|].
      cbn [concat length scanAll untilHigh].
      by rewrite (scanNext_past_chain (pages (bufMgr s)) hv ho s' out).
    + pose proof Hrest as Hrest'. apply Forall_cons in Hrest' as [Hleaf2 _].
      assert (0 < length entries2) as Hpos.
      { destruct Hleaf2 as (Hne & _). destruct entries2; [done|cbn; lia]. }
      pose proof (scanAll_chain (pages (bufMgr s)) hv ho k Hzero
                    rest sib entries2 0 s' out Hat Hsib Hrest Hpos) as Hall.
      rewrite drop_0 in Hall. cbn [concat] in *. apply Hall. lia.
Qed.

(** A scan from its start to its end, on a tree of any height.
    [startScan] with valid operators and bounds descends from the root,
    at each non-leaf into the child in front of the first key that is not
    below the low value, and stands on the leaf it reaches.  The client
    that then calls [scanNext] until the end is reported receives, up to
    the first key past the high bound, the entries of that leaf from the
    first one that passes the low-bound test, followed by all entries of
    the leaves to its right.  The low bound is tested in the leaf reached
    only: when no entry of that leaf passes the test, the scan starts at
    the first entry of the right sibling whatever its key, so that a GT
    scan whose low value equals a separator delivers the entry with that
    key.  (No buffer-manager failure is scheduled, and the page read for
    the sibling number 0 behind the last leaf is zero-filled.) *)
Theorem scan_from_descent fuel n s out lv lo hv ho leaf entries rest :
  let root := Meta.rootPageNo (indexMetaInfo s) in
  let j := firstIndex (hit (bool_decide (lo = GTE)) lv) entries.*1 in
  let found := drop j entries ++ concat rest in
  0 < INTARRAYLEAFSIZE →
  lo = GT ∨ lo = GTE → ho = LT ∨ ho = LTE → (lv ≤ hv)%Z →
  faults (bufMgr s) = [] →
  pages (bufMgr s) !! 0 = None →
  descends (pages (bufMgr s)) lv n root leaf →
  leafChainIs (pages (bufMgr s)) leaf (entries :: rest) →
  length entries ≤ INTARRAYLEAFSIZE →
  Forall (λ e, page_number e.2 ≠ 0) entries →
  Forall scannable rest →
  n < fuel →
  ∃ s', startScan fuel lv lo hv ho s = (Ok tt, s')
        ∧ ∀ k, S (length found) < k →
               (scanAll k (s', out)).1 = Ok (untilHigh hv ho found).*2.
Proof. apply scanAll_descends. Qed.

End Descent.

(** ** Scans over sorted entries *)

Lemma hit_mono incl key a b : (a ≤ b)%Z → hit incl key a = true → hit incl key b = true.
Proof. unfold hit. destruct incl; lia. Qed.

Lemma pastHigh_mono hv ho a b :
  (a ≤ b)%Z → pastHigh hv ho a = true → pastHigh hv ho b = true.
Proof.
  unfold pastHigh. rewrite !orb_true_iff, !andb_true_iff. intros Hab [?|[? ?]].
  - left. lia.
  - destruct (decide (b = a)) as [->|]; [right; split; [lia|done] | left; lia].
Qed.

Lemma filter_none {A} (P : A → Prop) `{∀ x, Decision (P x)} l :
  Forall (λ x, ¬ P x) l → filter P l = [].
Proof.
  induction 1 as [|x l Hx _ IH]; [done|].
  by rewrite filter_cons_False.
Qed.

Lemma untilHigh_sorted lv lo hv ho entries :
  StronglySorted Z.le entries.*1 →
  Forall (λ e, hit (bool_decide (lo = GTE)) lv e.1 = true) entries →
  untilHigh hv ho entries = filter (λ e, inRange lv lo hv ho e.1) entries.
Proof.
  induction entries as [|e entries IH]; [done|].
  rewrite fmap_cons. intros Hs Hhit.
  apply StronglySorted_inv in Hs as [Hs Hle].
  apply Forall_cons in Hhit as [He Hhit]. cbn [untilHigh].
  destruct (pastHigh hv ho e.1) eqn:Hpast.
  - symmetry. apply filter_none. constructor.
    + unfold inRange. rewrite Hpast, andb_false_r. cbn. tauto.
    + apply Forall_forall. intros e' He'.
      assert (e.1 ≤ e'.1)%Z as Hord.
      { rewrite Forall_forall in Hle. apply Hle. by apply list_elem_of_fmap_2. }
      unfold inRange. rewrite (pastHigh_mono _ _ _ _ Hord Hpast).
      rewrite andb_false_r. cbn. tauto.
  - rewrite filter_cons_True by (unfold inRange; by rewrite He, Hpast).
    f_equal. by apply IH.
Qed.

Lemma untilHigh_filter lv lo hv ho entries :
  StronglySorted Z.le entries.*1 →
  untilHigh hv ho
    (drop (firstIndex (hit (bool_decide (lo = GTE)) lv) entries.*1) entries)
  = filter (λ e, inRange lv lo hv ho e.1) entries.
Proof.
  induction entries as [|e entries IH]; [done|].
  rewrite fmap_cons. intros Hs. cbn [firstIndex].
  pose proof Hs as Hs'. apply StronglySorted_inv in Hs' as [Htail Hle].
  destruct (hit (bool_decide (lo = GTE)) lv e.1) eqn:He.
  - rewrite drop_0. apply untilHigh_sorted; [by rewrite fmap_cons|].
    constructor; [done|]. apply Forall_forall. intros e' He'.
    apply (hit_mono _ _ e.1); [|done].
    rewrite Forall_forall in Hle. apply Hle. by apply list_elem_of_fmap_2.
  - cbn [drop]. rewrite filter_cons_False
      by (unfold inRange; rewrite He; cbn; tauto).
    by apply IH.
Qed.

Section LeafRoot.
Context {cap : NodeCapacity}.

Lemma leafOf_nil : leafOf [] 0 = newLeafNodeInt.
Proof. unfold leafOf, newLeafNodeInt. cbn. by rewrite Nat.sub_0_r. Qed.

End LeafRoot.

(** ** Insertions into a root leaf *)

Section LeafRootInsert.
Context {cap : NodeCapacity}.

Lemma insertEntry_leaf_root fuel s root entries key rid :
  leafRoot entries root s →
  root ≠ 0 →
  length entries < INTARRAYLEAFSIZE →
  Forall (λ e, e.2 ≠ emptyRid) entries →
  ∃ s', insertEntry (S fuel) key rid s = (Ok tt, s')
        ∧ leafRoot (placed key rid entries) root s'.
Proof.
  intros (Hroot & Hf & Hzero & Hpage) Hne Hlen Hocc.
  unfold insertEntry. munfold. rewrite Hroot.
  rewrite (insertHelper_leaf_room fuel (bufMgr s) root entries 0)
    by (done || unfold fetch; by rewrite Hpage).
  rewrite decide_True by done.
  eexists. split; [done|].
  unfold leafRoot, store, pin, unpin. cbn.
  split_and!; [done | done | by rewrite lookup_insert_ne |
               by rewrite lookup_insert_eq].
Qed.

Lemma placed_length key rid entries :
  length (placed key rid entries) = S (length entries).
Proof. unfold placed. apply length_insertAt. Qed.

Lemma placed_occupied key rid entries :
  page_number rid ≠ 0 →
  Forall (λ e, page_number e.2 ≠ 0) entries →
  Forall (λ e, page_number e.2 ≠ 0) (placed key rid entries).
Proof.
  intros Hrid Hocc. rewrite placed_Permutation. by constructor.
Qed.

Lemma insertEntries_leaf_root fuel root new :
  root ≠ 0 →
  ∀ s entries,
    leafRoot entries root s →
    length entries + length new ≤ INTARRAYLEAFSIZE →
    Forall (λ e, page_number e.2 ≠ 0) entries →
    Forall (λ e, page_number e.2 ≠ 0) new →
    ∃ s', insertEntries (S fuel) new s = (Ok tt, s')
          ∧ leafRoot (foldl (λ acc e, placed e.1 e.2 acc) entries new) root s'.
Proof.
  intros Hne. induction new as [|[key rid] new IH];
    intros s entries Hs Hlen Hocc Hnew.
  { by exists s. }
  apply Forall_cons in Hnew as [Hrid Hnew]. cbn [length] in Hlen.
  destruct (insertEntry_leaf_root fuel s root entries key rid Hs Hne)
    as (s1 & Hrun & Hs1); [lia| |].
  { eapply Forall_impl; [done|]. intros e He Heq. cbn in He. apply He. by rewrite Heq. }
  destruct (IH s1 (placed key rid entries) Hs1) as (s2 & Hrest & Hs2);
    [rewrite placed_length; lia | by apply placed_occupied | done |].
  exists s2. split; [|done].
  cbn [insertEntries]. munfold. by rewrite Hrun.
Qed.

Lemma foldl_placed_Permutation new entries :
  foldl (λ acc e, placed e.1 e.2 acc) entries new ≡ₚ new ++ entries.
Proof.
  revert entries. induction new as [|[key rid] new IH]; intros entries; [done|].
  cbn [foldl]. rewrite IH, placed_Permutation. cbn.
  by rewrite Permutation_middle.
Qed.

Lemma foldl_placed_nonDecreasing new entries :
  nonDecreasing entries.*1 →
  nonDecreasing (foldl (λ acc e, placed e.1 e.2 acc) entries new).*1.
Proof.
  revert entries. induction new as [|[key rid] new IH]; intros entries; [done|].
  intros Hs. cbn [foldl]. apply IH. by apply placed_nonDecreasing.
Qed.

End LeafRootInsert.

(** ** Insertion and scan on a root leaf *)

Section LeafRootScan.
Context {cap : NodeCapacity}.

Lemma scanAll_leaf_root fuel s out lv lo hv ho entries root :
  0 < INTARRAYLEAFSIZE →
  lo = GT ∨ lo = GTE → ho = LT ∨ ho = LTE → (lv ≤ hv)%Z →
  leafRoot entries root s →
  length entries ≤ INTARRAYLEAFSIZE →
  Forall (λ e, page_number e.2 ≠ 0) entries →
  nonDecreasing entries.*1 →
  ∃ s', startScan (S fuel) lv lo hv ho s = (Ok tt, s')
        ∧ ∀ k, S (length entries) < k →
               (scanAll k (s', out)).1
               = Ok (filter (λ e, inRange lv lo hv ho e.1) entries).*2.
Proof.
  intros HL Hlo Hho Hrange (Hroot & Hf & Hzero & Hpage) Hlen Hocc Hsorted.
  apply nonDecreasing_StronglySorted in Hsorted.
  destruct (scanAll_descends (S fuel) 0 s out lv lo hv ho root entries []
              HL Hlo Hho Hrange Hf Hzero) as (s' & Hstart & Hall);
    [rewrite Hroot; by eapply descends_leaf | by exists 0 | done..| lia |].
  exists s'. split; [done|]. intros k Hk.
  rewrite <- (untilHigh_filter lv lo hv ho entries Hsorted).
  cbn [concat] in Hall. rewrite app_nil_r in Hall.
  apply Hall. rewrite length_drop. lia.
Qed.

(** Insertion and scan on an index that still fits in one leaf.  After the
    constructor has built the index over an empty relation and at most
    [INTARRAYLEAFSIZE] entries have been inserted, none with page number 0
    in its record id, a scan with valid operators and bounds delivers the
    record ids of exactly the entries whose key is in the range, in
    non-decreasing order of their keys, and then reports its end.  (No
    buffer-manager failure is scheduled, and the page read for the sibling
    number 0 of the leaf is zero-filled.) *)
Theorem insert_then_scan fuel name bufMgrIn offset type raw new lv lo hv ho
    out :
  faults bufMgrIn = [] →
  length new ≤ INTARRAYLEAFSIZE →
  0 < INTARRAYLEAFSIZE →
  Forall (λ e, page_number e.2 ≠ 0) new →
  lo = GT ∨ lo = GTE → ho = LT ∨ ho = LTE → (lv ≤ hv)%Z →
  let sorted := foldl (λ acc e, placed e.1 e.2 acc) [] new in
  sorted ≡ₚ new
  ∧ nonDecreasing sorted.*1
  ∧ ∃ s0 s1 s2,
      BTreeIndex_new fuel name bufMgrIn offset type [] raw
      = (Ok (getIndexName name offset), s0)
      ∧ insertEntries (S fuel) new s0 = (Ok tt, s1)
      ∧ startScan (S fuel) lv lo hv ho s1 = (Ok tt, s2)
      ∧ ∀ k, S (length new) < k →
             (scanAll k (s2, out)).1
             = Ok (filter (λ e, inRange lv lo hv ho e.1) sorted).*2.
Proof.
  intros Hf Hlen HL Hocc Hlo Hho Hrange sorted.
  assert (sorted ≡ₚ new) as Hperm.
  { subst sorted. rewrite foldl_placed_Permutation. by rewrite app_nil_r. }
  assert (nonDecreasing sorted.*1) as Hsorted.
  { apply foldl_placed_nonDecreasing. intros i j a b _ Ha.
    cbn in Ha. by rewrite lookup_nil in Ha. }
  split; [done|]. split; [done|].
  destruct (BTreeIndex_new_empty fuel name bufMgrIn offset type raw Hf)
    as (s0 & Hnew & Hroot & Hpages & Hf0).
  assert (leafRoot [] 1 s0) as Hs0.
  { split_and!; [done | done | |].
    - rewrite Hpages. by rewrite !lookup_insert_ne.
    - rewrite Hpages, lookup_insert_eq. by rewrite leafOf_nil. }
  destruct (insertEntries_leaf_root fuel 1 new ltac:(done) s0 [] Hs0)
    as (s1 & Hins & Hs1); [cbn; lia | done | done |].
  fold sorted in Hs1.
  destruct (scanAll_leaf_root fuel s1 out lv lo hv ho sorted 1
              HL Hlo Hho Hrange Hs1) as (s2 & Hstart & Hall).
  - by rewrite Hperm.
  - by rewrite Hperm.
  - done.
  - exists s0, s1, s2. split_and!; [done..|].
    intros k Hk. apply Hall. by rewrite Hperm.
Qed.

End LeafRootScan.

(** ** What scans and insertions leave alone *)

Lemma readPage_file pages0 n pid :
  preserves (λ bm, pages bm = pages0 ∧ numPages bm = n) (readPage pid).
Proof.
  intros bm Hbm. unfold readPage, mayFail. munfold.
  destruct (faults bm) as [|[] rest]; done.
Qed.

Lemma unPinPage_file pages0 n pid dirty :
  preserves (λ bm, pages bm = pages0 ∧ numPages bm = n) (unPinPage pid dirty).
Proof. by intros bm Hbm. Qed.

Lemma onBufMgr_file {A} pages0 n meta (m : M BufMgr A) :
  preserves (λ bm, pages bm = pages0 ∧ numPages bm = n) m →
  preserves (fileIs pages0 n meta) (onBufMgr m).
Proof.
  intros Hm s (Hpages & Hnum & Hmeta). specialize (Hm (bufMgr s) (conj Hpages Hnum)).
  unfold onBufMgr, zoom. destruct (m (bufMgr s)) as [r bm']. cbn in *.
  by destruct Hm.
Qed.

Lemma onIndex_preserves {A} (P : BTreeIndex → Prop) (m : M BTreeIndex A) :
  preserves P m → preserves (λ p : BTreeIndex * RecordId, P p.1) (onIndex m).
Proof.
  intros Hm [s out] Hs. specialize (Hm s Hs). unfold onIndex, zoom. cbn.
  by destruct (m s).
Qed.

Ltac file_step :=
  lazymatch goal with
  | |- preserves (fileIs _ _ _) (onBufMgr (getPageByPid _)) =>
      apply onBufMgr_file, readPage_file
  | |- preserves (fileIs _ _ _) (onBufMgr (unPinPage _ _)) =>
      apply onBufMgr_file, unPinPage_file
  | |- preserves (fileIs _ _ _) (onBufMgr (deref _)) =>
      apply onBufMgr_file; by intros ? ?
  | |- _ => preserves_step
  end.

Section Frames.
Context {cap : NodeCapacity}.

Lemma initPageId_file pages0 n meta fuel :
  preserves (fileIs pages0 n meta) (initPageId fuel).
Proof.
  induction fuel as [|fuel IH]; cbn [initPageId]; [apply preserves_outOfFuel|].
  repeat (file_step; try done).
Qed.

Lemma moveToNextPage_file pages0 n meta node :
  preserves (fileIs pages0 n meta) (moveToNextPage node).
Proof. unfold moveToNextPage. repeat (file_step; try done). Qed.

Lemma currentLeaf_file pages0 n meta :
  preserves (fileIs pages0 n meta) currentLeaf.
Proof. unfold currentLeaf. repeat (file_step; try done). Qed.

Lemma initEntryIndex_file pages0 n meta :
  preserves (fileIs pages0 n meta) initEntryIndex.
Proof.
  unfold initEntryIndex.
  apply preserves_bind; [apply currentLeaf_file|]. intros node.
  repeat (file_step; try done). apply moveToNextPage_file.
Qed.

Lemma setNextEntry_file pages0 n meta :
  preserves (fileIs pages0 n meta) setNextEntry.
Proof.
  unfold setNextEntry.
  apply preserves_bind; [by apply preserves_modify|]. intros ?.
  apply preserves_bind; [apply currentLeaf_file|]. intros node.
  repeat (file_step; try done). apply moveToNextPage_file.
Qed.

Lemma startScan_file pages0 n meta fuel lv lo hv ho :
  preserves (fileIs pages0 n meta) (startScan fuel lv lo hv ho).
Proof.
  unfold startScan.
  repeat (file_step; try done);
    first [apply initPageId_file | apply initEntryIndex_file].
Qed.

Lemma endScan_file pages0 n meta : preserves (fileIs pages0 n meta) endScan.
Proof. unfold endScan. repeat (file_step; try done). Qed.

Lemma scanNext_file pages0 n meta :
  preserves (λ p : BTreeIndex * RecordId, fileIs pages0 n meta p.1) scanNext.
Proof.
  unfold scanNext.
  apply preserves_bind;
    [apply (onIndex_preserves (fileIs pages0 n meta)), preserves_get|].
  intros s. case_match; [apply preserves_throw|].
  apply preserves_bind;
    [apply (onIndex_preserves (fileIs pages0 n meta)), currentLeaf_file|].
  intros node.
  apply preserves_bind; [apply preserves_defined|]. intros rid.
  apply preserves_bind; [by apply preserves_modify|]. intros ?.
  case_match; [apply preserves_throw|].
  apply preserves_bind; [apply preserves_defined|]. intros val.
  case_match; [apply preserves_throw|].
  case_match; [apply preserves_throw|].
  apply (onIndex_preserves (fileIs pages0 n meta)), setNextEntry_file.
Qed.

(** Scanning reads only.  However they end, [startScan], [scanNext] and
    [endScan] leave every page of the index file, the number of the next
    page to allocate and the meta record, the root page number included,
    as they were. *)
Theorem scan_is_read_only fuel lv lo hv ho s out :
  let same s' := pages (bufMgr s') = pages (bufMgr s)
                 ∧ numPages (bufMgr s') = numPages (bufMgr s)
                 ∧ indexMetaInfo s' = indexMetaInfo s in
  same (startScan fuel lv lo hv ho s).2
  ∧ same (scanNext (s, out)).2.1
  ∧ same (endScan s).2.
Proof.
  intros same. split_and!.
  - by apply (startScan_file _ _ _ fuel lv lo hv ho s).
  - by apply (scanNext_file _ _ _ (s, out)).
  - by apply (endScan_file _ _ _ s).
Qed.

Lemma insertEntry_scanState fuel key rid v :
  preserves (λ s, scanState s = v) (insertEntry fuel key rid).
Proof. unfold insertEntry. repeat (preserves_step; try done). Qed.

End Frames.

(** ** Insertion during a scan *)

Lemma lookup_insertAt_behind {A} p i (x : A) l :
  p ≤ i → i < length l → insertAt p x l !! S i = l !! i.
Proof.
  intros Hp Hi. unfold insertAt.
  rewrite lookup_app_r by (rewrite length_take; lia).
  rewrite length_take. replace (S i - p `min` length l) with (S (i - p)) by lia.
  rewrite lookup_cons_ne_0 by done. cbn [pred]. rewrite lookup_drop. f_equal. lia.
Qed.

Section ScanAndInsert.
Context {cap : NodeCapacity}.

(** [insertEntry] does not touch the members that describe the scan, so a
    scan in progress keeps its slot number while the entries of its leaf
    move.  On an index whose root is a leaf with a free slot, with no
    record id on page 0, page 0 not in use and no buffer-manager failure
    scheduled: when the scan stands at slot [i] of that leaf, the key of
    slot [i] is within the high bound and slot [i] is not the last occupied
    slot of the leaf, [scanNext] delivers the record id of slot [i]; when
    an entry whose record id is not on page 0 is then inserted at or before
    slot [i], the next [scanNext] delivers the same record id once more.
    The last occupied slot is excluded: there the first [scanNext] leaves
    the leaf for its right sibling. *)
Theorem insert_behind_scan_repeats fuel key rid s :
  scanState (insertEntry fuel key rid s).2 = scanState s
  ∧ ∀ out root entries i k0 r0 hv ho,
      leafRoot entries root s → root ≠ 0 →
      scanAt (pages (bufMgr s)) hv ho root i s →
      S (length entries) ≤ INTARRAYLEAFSIZE →
      Forall (λ e, page_number e.2 ≠ 0) entries →
      page_number rid ≠ 0 →
      entries !! i = Some (k0, r0) → S i < length entries →
      firstIndex (hit true key) entries.*1 ≤ i →
      pastHigh hv ho k0 = false →
      ∃ s1 s2 s3,
        scanNext (s, out) = (Ok tt, (s1, r0))
        ∧ insertEntry (S fuel) key rid s1 = (Ok tt, s2)
        ∧ scanNext (s2, r0) = (Ok tt, (s3, r0)).
Proof.
  split; [by apply (insertEntry_scanState fuel key rid (scanState s) s)|].
  intros out root entries i k0 r0 hv ho (Hroot & Hf & Hzero & Hpage) Hne Hat
    Hlen Hocc Hrid He Hi Hpos Hpast.
  assert (Forall (λ e, e.2 ≠ emptyRid) entries) as Hocc'.
  { eapply Forall_impl; [done|]. intros e Hpg Heq. cbn in Hpg. apply Hpg.
    by rewrite Heq. }
  (* the entry of slot [i] is delivered *)
  pose proof (scanNext_in_leaf _ _ _ _ _ _ out entries 0 k0 r0 Hat Hpage)
    as Hstep.
  rewrite Hpast in Hstep.
  destruct Hstep as (s1 & Hrun1 & Hat1); [|done|].
  { split_and!; [|lia|done]. intros ->. cbn in Hi. lia. }
  rewrite decide_True in Hat1 by done.
  pose proof (scanNext_file (pages (bufMgr s)) (numPages (bufMgr s))
                (indexMetaInfo s) (s, out) ltac:(done)) as Hfile.
  rewrite Hrun1 in Hfile. destruct Hfile as (Hpages1 & _ & Hmeta1).
  cbn [fst snd] in Hpages1, Hmeta1.
  destruct Hat1 as (Hexec1 & Hdata1 & Hnext1 & Hhv1 & Hho1 & Hf1 & _).
  (* the insertion *)
  destruct (insertEntry_leaf_root fuel s1 root entries key rid)
    as (s2 & Hrun2 & Hroot2 & Hf2 & Hzero2 & Hpage2); [|done|lia|done|].
  { split_and!; [by rewrite Hmeta1 | done | by rewrite Hpages1..]. }
  pose proof (insertEntry_scanState (S fuel) key rid (scanState s1) s1 eq_refl)
    as Hscan.
  rewrite Hrun2 in Hscan. cbn [snd] in Hscan. unfold scanState in Hscan.
  injection Hscan as Hexec2 Hnext2 Hnum2 Hdata2 Hlv2 Hhv2 Hlo2 Hho2.
  (* the scan stands at the same slot of the changed leaf *)
  assert (scanAt (pages (bufMgr s2)) hv ho root (S i) s2) as Hat2.
  { unfold scanAt. rewrite Hexec2, Hdata2, Hnext2, Hhv2, Hho2. done. }
  pose proof (scanNext_in_leaf _ _ _ _ _ _ r0 (placed key rid entries) 0 k0 r0
                Hat2 Hpage2) as Hstep.
  rewrite Hpast in Hstep.
  destruct Hstep as (s3 & Hrun3 & _).
  { split_and!.
    - intros Hnil. pose proof (placed_length key rid entries) as Hl.
      rewrite Hnil in Hl. done.
    - rewrite placed_length. lia.
    - by apply placed_occupied. }
  { unfold placed. rewrite lookup_insertAt_behind; [done|done|lia]. }
  by exists s1, s2, s3.
Qed.

End ScanAndInsert.

(** ** Non-leaf pages after a child split *)

Section NonLeafInsert.
Context {cap : NodeCapacity}.

Lemma isNonLeafNodeFull_nonLeafOf keys children :
  length children ≤ S INTARRAYNONLEAFSIZE →
  Forall (λ c, c ≠ 0) (drop 1 children) →
  0 < INTARRAYNONLEAFSIZE →
  isNonLeafNodeFull (nonLeafOf keys children)
  = bool_decide (length children = S INTARRAYNONLEAFSIZE).
Proof.
  intros Hlen Hocc HN. unfold isNonLeafNodeFull, nonLeafOf.
  cbn [NonLeaf.pageNoArray]. apply bool_decide_ext.
  destruct (decide (INTARRAYNONLEAFSIZE < length children)) as [Hin|Hout].
  - rewrite lookup_total_app_l by done.
    destruct (lookup_lt_is_Some_2 children INTARRAYNONLEAFSIZE Hin) as [c Hc].
    rewrite (list_lookup_total_correct _ _ _ Hc).
    assert (drop 1 children !! (INTARRAYNONLEAFSIZE - 1) = Some c) as Hd.
    { rewrite lookup_drop. rewrite <- Hc. f_equal. lia. }
    pose proof (Forall_lookup_1 _ _ _ _ Hocc Hd). cbn in *.
    split; [intros _; lia | done].
  - rewrite lookup_total_app_r by lia.
    rewrite lookup_total_replicate_2 by lia. split; [done | lia].
Qed.

(** [insertHelper] on a non-leaf page whose child reported a split. *)
Lemma insertHelper_child_split fuel bm bm1 pid node0 node key rid midVal
    newChild childMid :
  faults bm = [] →
  fetch bm pid = NonLeafPage node0 →
  insertHelper fuel
    (NonLeaf.pageNoArray node0 !!! findIndexNonLeaf node0 key) key rid 0
    (pin pid bm)
  = (Ok (newChild, childMid), bm1) →
  newChild ≠ 0 →
  fetch bm1 pid = NonLeafPage node →
  let index := findIndexNonLeaf node childMid in
  let middleIndex := (INTARRAYNONLEAFSIZE - 1) / 2 in
  let insertToLeft := bool_decide (index < middleIndex) in
  let splitIndex := middleIndex + (if insertToLeft then 1 else 0) in
  let insertIndex := if insertToLeft then index else index - middleIndex in
  let moveKeyUp := negb insertToLeft && bool_decide (insertIndex = 0) in
  let halves := splitNonLeafNode node splitIndex moveKeyUp in
  insertHelper (S fuel) pid key rid midVal bm
  = if isNonLeafNodeFull node
    then (Ok (numPages bm1,
              if moveKeyUp then childMid
              else NonLeaf.keyArray node !!! splitIndex),
          withNewPage
            (NonLeafPage
               (if moveKeyUp then halves.2
                else if insertToLeft then halves.2
                     else insertToNonLeafNode halves.2 insertIndex
                            childMid newChild))
            (unpin pid
               (store pid
                  (NonLeafPage
                     (if moveKeyUp then halves.1
                      else if insertToLeft
                           then insertToNonLeafNode halves.1 insertIndex
                                  childMid newChild
                           else halves.1))
                  bm1)))
    else (Ok (0, midVal),
          unpin pid
            (store pid
               (NonLeafPage (insertToNonLeafNode node index childMid newChild))
               bm1)).
Proof.
  intros Hf Hpage Hrec Hsplit Hpage1 index middleIndex insertToLeft splitIndex
    insertIndex moveKeyUp halves.
  assert (faults bm1 = []) as Hf1.
  { pose proof (insertHelper_keeps_reliable fuel
      (NonLeaf.pageNoArray node0 !!! findIndexNonLeaf node0 key) key rid 0
      (pin pid bm) Hf) as Hkeep. by rewrite Hrec in Hkeep. }
  cbn [insertHelper]. unfold getPageByPid, setNode, unPinPage, deref. munfold.
  rewrite readPage_reliable by done. rewrite Hpage.
  cbn [isLeaf getNonLeafNodeFromPage]. cbv beta iota.
  rewrite Hrec. cbv beta iota. rewrite decide_False by done.
  rewrite Hpage1. cbn [getNonLeafNodeFromPage]. cbv beta iota.
  fold index.
  destruct (isNonLeafNodeFull node); cbn [negb]; [|done].
  unfold Nat.b2n.
  fold middleIndex insertToLeft splitIndex insertIndex moveKeyUp halves.
  destruct halves as [left0 right0]. cbv beta iota. cbn [fst snd].
  destruct moveKeyUp, insertToLeft; cbn [negb]; cbv beta iota;
    by rewrite createPageForNode_reliable by done.
Qed.

Lemma insertAt_nonDecreasing key keys :
  nonDecreasing keys →
  nonDecreasing (insertAt (firstIndex (hit true key) keys) key keys).
Proof.
  intros Hs.
  pose proof (placed_nonDecreasing key emptyRid (zip keys (replicate (length keys) emptyRid)))
    as Hplaced.
  rewrite placed_keys in Hplaced.
  rewrite fst_zip in Hplaced by (by rewrite length_replicate).
  by apply Hplaced.
Qed.

Lemma insertHelper_non_leaf_room fuel bm bm1 pid keys children key rid midVal
    newChild childMid :
  faults bm = [] →
  fetch bm pid = NonLeafPage (nonLeafOf keys children) →
  length children = S (length keys) →
  length keys < INTARRAYNONLEAFSIZE →
  Forall (λ c, c ≠ 0) (drop 1 children) →
  insertHelper fuel (children !!! firstIndex (hit true key) keys) key rid 0
    (pin pid bm)
  = (Ok (newChild, childMid), bm1) →
  newChild ≠ 0 →
  fetch bm1 pid = NonLeafPage (nonLeafOf keys children) →
  let index := firstIndex (hit true childMid) keys in
  insertHelper (S fuel) pid key rid midVal bm
  = (Ok (0, midVal),
     unpin pid
       (store pid
          (NonLeafPage (nonLeafOf (insertAt index childMid keys)
                                  (insertAt (S index) newChild children)))
          bm1))
  ∧ (nonDecreasing keys → nonDecreasing (insertAt index childMid keys)).
Proof.
  intros Hf Hpage Hlen Hkeys Hocc Hrec Hsplit Hpage1 index.
  split; [|apply insertAt_nonDecreasing].
  destruct (nonLeafOf_search keys children key Hlen ltac:(lia) Hocc)
    as (_ & Hidx & Hlookup & [child Hchild]).
  rewrite Hchild in Hlookup.
  rewrite (list_lookup_total_correct _ _ _ Hchild) in Hrec.
  rewrite <- (list_lookup_total_correct _ _ _ Hlookup) in Hrec.
  rewrite (insertHelper_child_split fuel bm bm1 pid _ _ key rid midVal
             newChild childMid Hf Hpage Hrec Hsplit Hpage1).
  rewrite isNonLeafNodeFull_nonLeafOf by (lia || done).
  rewrite bool_decide_eq_false_2 by lia.
  destruct (nonLeafOf_search keys children childMid Hlen ltac:(lia) Hocc)
    as (_ & -> & _).
  fold index.
  pose proof (firstIndex_le (hit true childMid) keys) as Hle. fold index in Hle.
  rewrite insertToNonLeafNode_nonLeafOf by lia.
  rewrite !take_ge by (rewrite length_insertAt; lia).
  done.
Qed.

(** A non-leaf page with a free slot takes up the split of the child it
    descended into: the promoted key goes in front of the first key that
    is not below it and the new child goes right behind the child that
    split; the page reports no split and leaves the caller's mid-value
    alone.  The keys stay in non-decreasing order when they were. *)
Theorem non_leaf_absorbs_split fuel bm bm1 pid keys children key rid midVal
    newChild childMid :
  faults bm = [] →
  fetch bm pid = NonLeafPage (nonLeafOf keys children) →
  length children = S (length keys) →
  length keys < INTARRAYNONLEAFSIZE →
  Forall (λ c, c ≠ 0) (drop 1 children) →
  insertHelper fuel (children !!! firstIndex (hit true key) keys) key rid 0
    (pin pid bm)
  = (Ok (newChild, childMid), bm1) →
  newChild ≠ 0 →
  fetch bm1 pid = NonLeafPage (nonLeafOf keys children) →
  let index := firstIndex (hit true childMid) keys in
  insertHelper (S fuel) pid key rid midVal bm
  = (Ok (0, midVal),
     unpin pid
       (store pid
          (NonLeafPage (nonLeafOf (insertAt index childMid keys)
                                  (insertAt (S index) newChild children)))
          bm1))
  ∧ (nonDecreasing keys → nonDecreasing (insertAt index childMid keys)).
Proof. apply insertHelper_non_leaf_room. Qed.

End NonLeafInsert.

(** ** The split of a non-leaf page *)

Lemma insertAt_take_drop {A} i c (x : A) l :
  i ≤ c → c ≤ length l → insertAt i x (take c l) ++ drop c l = insertAt i x l.
Proof.
  intros Hi Hc. unfold insertAt.
  assert (drop i l = drop i (take c l) ++ drop c l) as ->.
  { rewrite <- (take_drop c l) at 1.
    by rewrite drop_app_le by (rewrite length_take; lia). }
  rewrite take_take, <- app_assoc. cbn.
  by replace (i `min` c) with i by lia.
Qed.

Lemma take_insertAt_drop {A} j c (x : A) l :
  c ≤ length l → take c l ++ insertAt j x (drop c l) = insertAt (c + j) x l.
Proof.
  intros Hc. unfold insertAt. rewrite app_assoc, drop_drop. f_equal.
  by rewrite take_take_drop.
Qed.

Section NonLeafSplit.
Context {cap : NodeCapacity}.

Lemma nonLeafOf_full keys children :
  length keys = INTARRAYNONLEAFSIZE →
  length children = S INTARRAYNONLEAFSIZE →
  nonLeafOf keys children = NonLeaf.mk keys children.
Proof.
  intros Hk Hc. unfold nonLeafOf. rewrite Hk, Hc, !Nat.sub_diag. cbn.
  by rewrite !app_nil_r.
Qed.

Lemma splitNonLeafNode_nonLeafOf keys children index :
  length keys = INTARRAYNONLEAFSIZE →
  length children = S INTARRAYNONLEAFSIZE →
  index < INTARRAYNONLEAFSIZE →
  splitNonLeafNode (nonLeafOf keys children) index false
  = (nonLeafOf (take index keys) (take (S index) children),
     nonLeafOf (drop (S index) keys) (drop (S index) children)).
Proof.
  intros Hk Hc Hidx. rewrite nonLeafOf_full by done.
  rewrite splitNonLeafNode_arrays by done.
  unfold nonLeafOf. cbn [NonLeaf.keyArray NonLeaf.pageNoArray].
  rewrite !length_take, !length_drop, Hk, Hc.
  f_equal; f_equal; f_equal; f_equal; lia.
Qed.

(** A non-leaf with room for one more key and one more child is the same
    node with a key 0 and a child 0 written behind its entries. *)
Lemma nonLeafOf_pad keys children :
  length keys < INTARRAYNONLEAFSIZE →
  length children < S INTARRAYNONLEAFSIZE →
  nonLeafOf keys children = nonLeafOf (keys ++ [0%Z]) (children ++ [0]).
Proof.
  intros Hk Hc. unfold nonLeafOf. rewrite !length_app. cbn [length].
  replace (INTARRAYNONLEAFSIZE - length keys)
    with (S (INTARRAYNONLEAFSIZE - (length keys + 1))) by lia.
  replace (S INTARRAYNONLEAFSIZE - length children)
    with (S (S INTARRAYNONLEAFSIZE - (length children + 1))) by lia.
  cbn [replicate]. by rewrite <- !app_assoc.
Qed.

Lemma insertAt_end {A} (x : A) l : insertAt (length l) x l = l ++ [x].
Proof. unfold insertAt. by rewrite take_ge, drop_ge by lia. Qed.

(** A full non-leaf page whose child reported a split, when the promoted
    key of the child does not go to the middle position.  The page holds
    [INTARRAYNONLEAFSIZE] keys, at least 3, over as many children and one,
    of which only the first may be page 0; the page numbers in use lie
    between 1 and the next page number and no buffer-manager failure is
    scheduled; the insertion into the child has returned the new child
    page and its key and has left the page as it was.  Then the page is
    split and the pair of the child goes into one of the two siblings.
    [index] is the position [findIndexNonLeaf] finds for the child's key.
    When [index] is left of the middle, the keys of the left sibling, the
    key handed to the parent and the keys of the right sibling are, read
    from left to right, the old keys with the child's key inserted at
    [index], and the children of the two siblings are the old children
    with the new child inserted behind child [index].  When [index] is
    right of the middle and inside the page, both are inserted one position
    further to the right.  When the child's key is above every key of the
    page ([index] is [INTARRAYNONLEAFSIZE], the split child was the last
    one), the pair is written one slot behind the free slot of the right
    sibling: the sequences are the old keys followed by a key 0 and the
    child's key, and the old children followed by a child 0 and the new
    child. *)
Theorem non_leaf_split_sequences fuel bm bm1 pid keys children key rid midVal
    newChild childMid :
  3 ≤ INTARRAYNONLEAFSIZE →
  faults bm = [] →
  consistent bm →
  fetch bm pid = NonLeafPage (nonLeafOf keys children) →
  length keys = INTARRAYNONLEAFSIZE →
  length children = S INTARRAYNONLEAFSIZE →
  Forall (λ c, c ≠ 0) (drop 1 children) →
  insertHelper fuel (children !!! firstIndex (hit true key) keys) key rid 0
    (pin pid bm)
  = (Ok (newChild, childMid), bm1) →
  newChild ≠ 0 →
  fetch bm1 pid = NonLeafPage (nonLeafOf keys children) →
  let index := firstIndex (hit true childMid) keys in
  let middleIndex := (INTARRAYNONLEAFSIZE - 1) / 2 in
  let position := if decide (index < middleIndex) then index else S index in
  index ≠ middleIndex →
  ∃ bm2 promoted leftKeys leftChildren rightKeys rightChildren,
    insertHelper (S fuel) pid key rid midVal bm
    = (Ok (numPages bm1, promoted), bm2)
    ∧ fetch bm2 pid = NonLeafPage (nonLeafOf leftKeys leftChildren)
    ∧ fetch bm2 (numPages bm1)
      = NonLeafPage (nonLeafOf rightKeys rightChildren)
    ∧ length leftChildren = S (length leftKeys)
    ∧ length rightChildren = S (length rightKeys)
    ∧ leftKeys ++ promoted :: rightKeys
      = (if decide (index < INTARRAYNONLEAFSIZE)
         then insertAt position childMid keys
         else keys ++ [0%Z; childMid])
    ∧ leftChildren ++ rightChildren
      = (if decide (index < INTARRAYNONLEAFSIZE)
         then insertAt (S position) newChild children
         else children ++ [0; newChild]).
Proof.
  intros HN Hf Hcons Hpage Hk Hc Hocc Hrec Hsplit Hpage1 index middleIndex
    position Hmid.
  assert (consistent bm1) as Hcons1.
  { pose proof (insertHelper_consistent fuel
      (children !!! firstIndex (hit true key) keys) key rid 0
      (pin pid bm) Hcons) as Hkeep. by rewrite Hrec in Hkeep. }
  assert (pid ≠ numPages bm1) as Hfresh.
  { pose proof (consistent_in_use bm1 pid Hcons1) as Hin.
    rewrite Hpage1 in Hin. specialize (Hin ltac:(done)). lia. }
  assert (1 ≤ middleIndex ∧ middleIndex + 2 ≤ INTARRAYNONLEAFSIZE)
    as [Hm1 Hm2].
  { subst middleIndex.
    pose proof (Nat.Div0.mul_div_le (INTARRAYNONLEAFSIZE - 1) 2).
    pose proof (Nat.mul_succ_div_gt (INTARRAYNONLEAFSIZE - 1) 2). lia. }
  assert (length children = S (length keys)) as Hlen by lia.
  assert (index ≤ INTARRAYNONLEAFSIZE) as Hidx.
  { subst index. rewrite <- Hk. apply firstIndex_le. }
  destruct (nonLeafOf_search keys children key Hlen ltac:(lia) Hocc)
    as (_ & _ & Hlookup & [child Hchild]).
  rewrite Hchild in Hlookup.
  rewrite (list_lookup_total_correct _ _ _ Hchild) in Hrec.
  rewrite <- (list_lookup_total_correct _ _ _ Hlookup) in Hrec.
  rewrite (insertHelper_child_split fuel bm bm1 pid _ _ key rid midVal
             newChild childMid Hf Hpage Hrec Hsplit Hpage1).
  rewrite isNonLeafNodeFull_nonLeafOf by (lia || done).
  rewrite bool_decide_eq_true_2 by lia.
  destruct (nonLeafOf_search keys children childMid Hlen ltac:(lia) Hocc)
    as (_ & -> & _).
  fold index middleIndex.
  destruct (lookup_lt_is_Some_2 keys middleIndex ltac:(lia)) as [km Hkm].
  destruct (lookup_lt_is_Some_2 keys (S middleIndex) ltac:(lia)) as [km' Hkm'].
  subst position. destruct (decide (index < middleIndex)) as [Hleft|Hright].
  - (* the pair goes into the original node *)
    rewrite (bool_decide_eq_true_2 (index < middleIndex)) by done.
    cbn [negb andb].
    rewrite splitNonLeafNode_nonLeafOf by lia. cbn [fst snd].
    rewrite insertToNonLeafNode_nonLeafOf
      by (rewrite ?length_take; lia).
    rewrite !(take_ge (insertAt _ _ _))
      by (rewrite length_insertAt, length_take; lia).
    rewrite (nonLeafOf_full keys children) by done. cbn [NonLeaf.keyArray].
    replace (middleIndex + 1) with (S middleIndex) by lia.
    rewrite (list_lookup_total_correct _ _ _ Hkm').
    eexists _, km', _, _, _, _. split; [reflexivity|].
    rewrite !fetch_withNewPage. autorewrite with bufmgr.
    rewrite decide_False by done. rewrite decide_True by done.
    rewrite !(decide_True (P := index < INTARRAYNONLEAFSIZE)) by lia.
    split_and!; [done | done | | | |].
    + rewrite !length_insertAt, !length_take. lia.
    + rewrite !length_drop. lia.
    + rewrite <- (drop_S _ _ _ Hkm').
      apply insertAt_take_drop; lia.
    + apply insertAt_take_drop; lia.
  - (* the pair goes into the new node *)
    rewrite (bool_decide_eq_false_2 (index < middleIndex)) by done.
    rewrite (bool_decide_eq_false_2 (index - middleIndex = 0)) by lia.
    cbn [negb andb]. rewrite Nat.add_0_r.
    rewrite splitNonLeafNode_nonLeafOf by lia. cbn [fst snd].
    rewrite (nonLeafOf_full keys children) by done. cbn [NonLeaf.keyArray].
    rewrite (list_lookup_total_correct _ _ _ Hkm).
    destruct (decide (index < INTARRAYNONLEAFSIZE)) as [Hin|Hout].
    + rewrite insertToNonLeafNode_nonLeafOf
        by (rewrite ?length_drop; lia).
      rewrite !(take_ge (insertAt _ _ _))
        by (rewrite length_insertAt, length_drop; lia).
      eexists _, km, _, _, _, _. split; [reflexivity|].
      rewrite !fetch_withNewPage. autorewrite with bufmgr.
      rewrite decide_False by done. rewrite decide_True by done.
      split_and!; [done | done | | | |].
      * rewrite !length_take. lia.
      * rewrite !length_insertAt, !length_drop. lia.
      * rewrite cons_middle, app_assoc, <- (take_S_r _ _ _ Hkm).
        rewrite take_insertAt_drop by lia. f_equal. lia.
      * rewrite take_insertAt_drop by lia. f_equal. lia.
    + (* the child's key is above every key of the page *)
      assert (index = INTARRAYNONLEAFSIZE) as Hlast by lia.
      rewrite (nonLeafOf_pad (drop (S middleIndex) keys))
        by (rewrite length_drop; lia).
      assert (index - middleIndex
              = length (drop (S middleIndex) keys ++ [0%Z])) as Hpos.
      { rewrite length_app, length_drop. cbn [length]. lia. }
      rewrite insertToNonLeafNode_nonLeafOf
        by (rewrite ?length_app, ?length_drop; cbn [length]; lia).
      assert (S (index - middleIndex)
              = length (drop (S middleIndex) children ++ [0])) as Hpos'.
      { rewrite length_app, length_drop. cbn [length]. lia. }
      replace (insertAt (index - middleIndex) childMid
                 (drop (S middleIndex) keys ++ [0%Z]))
        with ((drop (S middleIndex) keys ++ [0%Z]) ++ [childMid])
        by (rewrite Hpos; by rewrite insertAt_end).
      replace (insertAt (S (index - middleIndex)) newChild
                 (drop (S middleIndex) children ++ [0]))
        with ((drop (S middleIndex) children ++ [0]) ++ [newChild])
        by (rewrite Hpos'; by rewrite insertAt_end).
      rewrite !take_ge
        by (rewrite !length_app, length_drop; cbn [length]; lia).
      eexists _, km, _, _, _, _. split; [reflexivity|].
      rewrite !fetch_withNewPage. autorewrite with bufmgr.
      rewrite decide_False by done. rewrite decide_True by done.
      split_and!; [done | done | | | |].
      * rewrite !length_take. lia.
      * rewrite !length_app, !length_drop. cbn [length]. lia.
      * rewrite <- !app_assoc. cbn [app].
        rewrite (cons_middle km (take middleIndex keys)
                   (drop (S middleIndex) keys ++ [0%Z; childMid])).
        rewrite !app_assoc. rewrite <- (take_S_r _ _ _ Hkm).
        by rewrite take_drop.
      * rewrite <- !app_assoc. cbn [app]. rewrite !app_assoc.
        by rewrite take_drop.
Qed.

End NonLeafSplit.

(** ** The name of the index file *)

Lemma append_nil_l s : "" +:+ s = s.
Proof. done. Qed.

Lemma append_cons c r s : String c r +:+ s = String c (r +:+ s).
Proof. done. Qed.

Lemma commaFree_app s1 s2 :
  commaFree (s1 +:+ s2) = commaFree s1 && commaFree s2.
Proof.
  induction s1 as [|c s1 IH]; [done|].
  rewrite append_cons. cbn [commaFree]. by rewrite IH, andb_assoc.
Qed.

Lemma commaFree_pretty_N_go x s :
  commaFree (pretty_N_go x s) = commaFree s.
Proof.
  revert s. induction (N.lt_wf_0 x) as [x _ IH]; intros s.
  destruct (decide (x = 0)%N) as [->|Hx]; [by rewrite pretty_N_go_0|].
  rewrite pretty_N_go_step by lia.
  rewrite IH by (apply N.div_lt; lia). cbn.
  assert (Ascii.eqb (pretty_N_char (x `mod` 10)) ","%char = false) as ->; [|done].
  unfold pretty_N_char. by repeat case_match.
Qed.

Lemma commaFree_pretty_nat (n : nat) : commaFree (pretty n) = true.
Proof.
  unfold pretty, pretty_nat, pretty, pretty_N. case_decide; [done|].
  by rewrite commaFree_pretty_N_go.
Qed.

Lemma comma_split r1 d1 r2 d2 :
  commaFree d1 = true → commaFree d2 = true →
  r1 +:+ "," +:+ d1 = r2 +:+ "," +:+ d2 → r1 = r2 ∧ d1 = d2.
Proof.
  intros Hd1 Hd2. revert r2. induction r1 as [|c r1 IH]; intros [|c' r2] Heq;
    repeat (rewrite append_nil_l in Heq || rewrite append_cons in Heq).
  - by injection Heq as ->.
  - injection Heq as <- ->. rewrite commaFree_app in Hd1. cbn in Hd1.
    by rewrite andb_false_r in Hd1.
  - injection Heq as -> <-. rewrite commaFree_app in Hd2. cbn in Hd2.
    by rewrite andb_false_r in Hd2.
  - injection Heq as -> Heq. by destruct (IH r2 Heq) as [-> ->].
Qed.

(** Two indexes have the same file name only when they are over the same
    relation name and the same byte offset: the offset is written in
    decimal after the last comma of the name. *)
Theorem getIndexName_inj name1 offset1 name2 offset2 :
  getIndexName name1 offset1 = getIndexName name2 offset2 ↔
  name1 = name2 ∧ offset1 = offset2.
Proof.
  split; [|by intros [-> ->]].
  unfold getIndexName. intros Heq.
  apply comma_split in Heq as [-> Hoff];
    [|apply commaFree_pretty_nat..].
  split; [done|]. by apply (inj pretty).
Qed.

(** ** The pages of the index file *)

Section FileInvariant.
Context {cap : NodeCapacity}.

Lemma file_consistent pages0 n meta s :
  fileIs pages0 n meta s →
  consistent (mkBufMgr pages0 n ∅ []) → consistent (bufMgr s).
Proof. intros (<- & <- & _) Hc. exact Hc. Qed.

Lemma call_consistent fuel c :
  preserves (λ p : BTreeIndex * RecordId, consistent (bufMgr p.1))
    (call fuel c).
Proof.
  intros [s out] Hs. cbn [fst] in Hs.
  assert (fileIs (pages (bufMgr s)) (numPages (bufMgr s)) (indexMetaInfo s) s)
    as Hfile by done.
  destruct c as [key rid|lv lo hv ho| |]; cbn [call].
  - apply (onIndex_preserves (λ s, consistent (bufMgr s))); [|done].
    apply insertEntry_consistent.
  - pose proof (onIndex_preserves _ _ (startScan_file _ _ _ fuel lv lo hv ho)
                  (s, out) Hfile) as Hkeep.
    by apply (file_consistent _ _ _ _ Hkeep).
  - pose proof (scanNext_file _ _ _ (s, out) Hfile) as Hkeep.
    by apply (file_consistent _ _ _ _ Hkeep).
  - pose proof (onIndex_preserves _ _ (endScan_file _ _ _) (s, out) Hfile)
      as Hkeep.
    by apply (file_consistent _ _ _ _ Hkeep).
Qed.

Lemma calls_consistent fuel cs p :
  consistent (bufMgr p.1) → consistent (bufMgr (calls fuel cs p).2.1).
Proof.
  revert p. induction cs as [|c cs IH]; intros p Hp; [done|].
  cbn [calls]. pose proof (call_consistent fuel c p Hp) as Hstep.
  destruct (call fuel c p) as [r p1]. cbn [snd] in Hstep.
  specialize (IH p1 Hstep). by destruct (calls fuel cs p1) as [trace p2].
Qed.

(** The page numbers of the index file.  Whatever buffer manager the
    constructor is given, whatever relation it loads and whatever calls
    follow and however they end, the pages the index has written have
    numbers from 1 up to the next number to allocate, and none of them is
    left zero-filled: every page is written as a node before the call that
    allocated it goes on.  Page 0 in particular is never written. *)
Theorem index_file_well_numbered fuel name bufMgrIn offset type relation raw
    cs out :
  let built := (BTreeIndex_new fuel name bufMgrIn offset type relation raw).2 in
  let bm := bufMgr (calls fuel cs (built, out)).2.1 in
  0 < numPages bm
  ∧ (∀ pid page, pages bm !! pid = Some page →
                 0 < pid < numPages bm ∧ page ≠ BlankPage)
  ∧ pages bm !! 0 = None.
Proof.
  intros built bm.
  assert (consistent bm) as Hbm
    by apply calls_consistent, BTreeIndex_new_consistent.
  assert (pages bm !! 0 = None) as Hzero.
  { destruct (pages bm !! 0) as [page|] eqn:Hp; [|done].
    destruct Hbm as [_ Hall]. destruct (Hall _ _ Hp). lia. }
  destruct Hbm as [Hpos Hall]. by split_and!.
Qed.

(** A record id with page number 0 ends its leaf for the scan.  When the
    slot after the one just delivered holds a record id whose page number
    is 0, whatever its slot number, [scanNext] leaves the leaf for its
    right sibling and does not deliver that entry or any entry stored
    behind it in the leaf. *)
Theorem page_zero_rid_ends_leaf pages0 hv ho pid i s out node k r :
  scanAt pages0 hv ho pid i s →
  pages0 !! pid = Some (LeafPage node) →
  Leaf.ridArray node !! i = Some r →
  Leaf.keyArray node !! i = Some k →
  r ≠ emptyRid →
  pastHigh hv ho k = false →
  page_number (Leaf.ridArray node !!! S i) = 0 →
  ∃ s', scanNext (s, out) = (Ok tt, (s', r))
        ∧ scanAt pages0 hv ho (Leaf.rightSibPageNo node) 0 s'.
Proof.
  intros Hat Hpage Hr Hk Hne Hpast Hzero.
  pose proof (scanAt_currentLeaf _ _ _ _ _ _ _ Hat Hpage) as Hleaf.
  destruct Hat as (Hexec & Hdata & Hi & Hhv & Hho & Hf & Hpages).
  rewrite (scanNext_run s out node r k); [|done|done|by rewrite Hi..].
  rewrite (bool_decide_ext _ _ (scanDone_pastHigh s r k Hne)).
  rewrite Hhv, Hho, Hpast. rewrite bool_decide_eq_false_2 by done.
  unfold setNextEntry. munfold.
  rewrite (currentLeaf_set_nextEntry _ _ _ Hleaf).
  cbn [nextEntry set_nextEntry]. rewrite Hi.
  rewrite (bool_decide_eq_true_2 (page_number _ = 0)) by done.
  rewrite orb_true_r.
  rewrite moveToNextPage_ok
    by (unfold willSucceed, set_nextEntry; cbn [bufMgr]; by rewrite Hf).
  eexists. split; [done|].
  unfold scanAt, pin, consumed, unpin. cbn. by rewrite Hf.
Qed.

End FileInvariant.

(** ** Trees of height at most two: the lists of leaves *)

Section SmallTreeLists.
Context {cap : NodeCapacity}.

Lemma insertAt_app_r {A} (l1 l2 : list A) i x :
  insertAt (length l1 + i) x (l1 ++ l2) = l1 ++ insertAt i x l2.
Proof.
  unfold insertAt. by rewrite take_app_add, drop_app_add, <- app_assoc.
Qed.

Lemma insertAt_0 {A} (l : list A) x : insertAt 0 x l = x :: l.
Proof. unfold insertAt. by rewrite take_0, drop_0. Qed.

Lemma insertAt_Permutation {A} (l : list A) i x : insertAt i x l ≡ₚ x :: l.
Proof.
  unfold insertAt. rewrite <- Permutation_middle. by rewrite take_drop.
Qed.

Lemma firstKey_cons e entries : firstKey (e :: entries) = e.1.
Proof. done. Qed.

Lemma firstKey_elem entries :
  entries ≠ [] → firstKey entries ∈ entries.*1.
Proof. destruct entries as [|e entries]; [done|]. intros _. left. Qed.

(** *** The leaf that the descent reaches *)

Lemma separators_length leaves :
  length (separators leaves) = length leaves - 1.
Proof. unfold separators. by rewrite length_drop, length_fmap. Qed.

Lemma separators_lookup leaves i :
  S i < length leaves →
  separators leaves !!! i = firstKey (leaves !!! S i).
Proof.
  intros Hin. unfold separators. rewrite lookup_total_drop.
  by apply list_lookup_total_fmap.
Qed.

Lemma route_decompose leaves key :
  leaves ≠ [] →
  ∃ before entries after,
    leaves = before ++ entries :: after
    ∧ length before = firstIndex (hit true key) (separators leaves).
Proof.
  intros Hne.
  pose proof (firstIndex_le (hit true key) (separators leaves)) as Hle.
  rewrite separators_length in Hle.
  assert (firstIndex (hit true key) (separators leaves) < length leaves)
    as Hlt by (destruct leaves; [done|cbn in *; lia]).
  destruct (lookup_lt_is_Some_2 _ _ Hlt) as [entries He].
  exists (take (firstIndex (hit true key) (separators leaves)) leaves),
    entries, (drop (S (firstIndex (hit true key) (separators leaves))) leaves).
  split; [by rewrite take_drop_middle|]. rewrite length_take. lia.
Qed.

Lemma treeInsert_decomposed before entries after key rid :
  length before
  = firstIndex (hit true key) (separators (before ++ entries :: after)) →
  treeInsert (before ++ entries :: after) key rid
  = before ++ leafHalves key rid entries ++ after.
Proof.
  intros Hc. unfold treeInsert. rewrite <- Hc.
  rewrite take_app_length, list_lookup_total_middle by done.
  do 2 f_equal.
  rewrite (cons_middle entries before after), app_assoc.
  apply drop_app_length'. rewrite length_app. cbn. lia.
Qed.

Lemma hit_true_false key v : hit true key v = false ↔ (v < key)%Z.
Proof. unfold hit. rewrite Z.geb_leb. apply Z.leb_gt. Qed.

Lemma hit_true_true key v : hit true key v = true ↔ (key ≤ v)%Z.
Proof. unfold hit. rewrite Z.geb_leb. apply Z.leb_le. Qed.

Lemma Forall_behind_first {A} (P : A → Prop) before x after :
  Forall P (drop 1 (before ++ x :: after)) →
  (before ≠ [] → P x) ∧ Forall P after.
Proof.
  destruct before as [|b before]; cbn [app drop].
  - rewrite drop_0. by intros ?.
  - rewrite drop_0, Forall_app, Forall_cons. intros (_ & Hx & Hafter).
    by split.
Qed.

Lemma elem_of_concat {A} (x : A) l ls : x ∈ l → l ∈ ls → x ∈ concat ls.
Proof.
  intros Hx Hl. induction Hl as [|l' ls' Hl IH]; cbn [concat];
    rewrite elem_of_app; auto.
Qed.

Lemma sorted_lt_le keys : StronglySorted Z.lt keys → StronglySorted Z.le keys.
Proof.
  induction 1 as [|k keys Hs IH Hall]; constructor; [done|].
  eapply Forall_impl; [done|]. intros ??. lia.
Qed.

Lemma route_bounds before entries after key :
  length before
  = firstIndex (hit true key) (separators (before ++ entries :: after)) →
  Forall (λ l, l ≠ []) (drop 1 (before ++ entries :: after)) →
  StronglySorted Z.lt (concat (before ++ entries :: after)).*1 →
  Forall (λ e, (e.1 < key)%Z) (concat before)
  ∧ Forall (λ e, (key ≤ e.1)%Z) (concat after)
  ∧ (before ≠ [] → ∃ e rest, entries = e :: rest ∧ (e.1 < key)%Z)
  ∧ (key ∉ separators (before ++ entries :: after) →
     Forall (λ e, (key < e.1)%Z) (concat after)).
Proof.
  intros Hc Hne Hs.
  apply Forall_behind_first in Hne as [Hentries Hafter].
  rewrite concat_app in Hs. cbn [concat] in Hs. rewrite !fmap_app in Hs.
  assert (before ≠ [] → ∃ e rest, entries = e :: rest ∧ (e.1 < key)%Z)
    as Hthird.
  { intros Hb. specialize (Hentries Hb).
    destruct entries as [|e rest]; [done|]. exists e, rest. split; [done|].
    destruct before as [|b0 before]; [done|]. cbn [length] in Hc.
    pose proof (firstIndex_before (hit true key)
                  (separators ((b0 :: before) ++ (e :: rest) :: after))
                  (length before) ltac:(lia)) as Hbelow.
    rewrite separators_lookup in Hbelow
      by (cbn; rewrite length_app; cbn; lia).
    cbn [app] in Hbelow. rewrite lookup_total_cons_ne_0 in Hbelow by done.
    cbn [pred] in Hbelow. rewrite list_lookup_total_middle in Hbelow by done.
    by apply hit_true_false in Hbelow. }
  assert (Forall (λ e, (key ≤ e.1)%Z) (concat after)
          ∧ (key ∉ separators (before ++ entries :: after) →
             Forall (λ e, (key < e.1)%Z) (concat after))) as [Habove Hstrict];
    [|split_and!; [|done..]].
  2: { destruct (decide (before = [])) as [->|Hb]; [constructor|].
    destruct (Hthird Hb) as (e & rest & -> & He).
    apply Forall_forall. intros a Ha.
    pose proof (StronglySorted_app_1_elem_of _ _ _ a.1 e.1 Hs) as Hlt.
    etrans; [apply Hlt|done].
    + by apply list_elem_of_fmap_2.
    + rewrite fmap_cons. apply elem_of_app. left. left. }
  destruct after as [|lb after]; [by split; [|intros _]; constructor|].
  apply Forall_cons in Hafter as [Hlb Hafter].
  destruct lb as [|b lb]; [done|].
  assert (length before
          < length (separators (before ++ entries :: (b :: lb) :: after)))
    as Hin by (rewrite separators_length, !length_app; cbn; lia).
  assert (separators (before ++ entries :: (b :: lb) :: after)
            !!! length before = b.1) as Hsep.
  { rewrite separators_lookup by (rewrite length_app; cbn; lia).
    rewrite (cons_middle entries), app_assoc.
    by rewrite list_lookup_total_middle by (rewrite length_app; cbn; lia). }
  assert (key ≤ b.1)%Z as Hb.
  { pose proof (firstIndex_at (hit true key)
                  (separators (before ++ entries :: (b :: lb) :: after)))
      as Hhit.
    rewrite <- Hc, Hsep in Hhit. by apply hit_true_true, Hhit. }
  apply StronglySorted_app_1_r, StronglySorted_app_1_r in Hs.
  cbn [concat] in Hs |- *. rewrite <- app_comm_cons in Hs |- *.
  rewrite fmap_cons in Hs. apply StronglySorted_cons in Hs as [Hall _].
  rewrite Forall_fmap in Hall. split.
  - constructor; [done|].
    eapply Forall_impl; [done|]. intros x Hx. cbn in Hx. lia.
  - intros Hnotsep.
    assert (b.1 ≠ key) as Hne.
    { intros Heq. apply Hnotsep. rewrite <- Heq, <- Hsep.
      by apply list_elem_of_lookup_total_2. }
    constructor; [lia|].
    eapply Forall_impl; [done|]. intros x Hx. cbn in Hx. lia.
Qed.

Lemma placed_sorted key rid entries :
  StronglySorted Z.lt entries.*1 → key ∉ entries.*1 →
  StronglySorted Z.lt (placed key rid entries).*1.
Proof.
  intros Hs Hfresh. rewrite placed_keys. unfold insertAt.
  pose proof (firstIndex_take_below key entries.*1) as Hbelow.
  pose proof (firstIndex_drop_not_below key entries.*1 (sorted_lt_le _ Hs))
    as Habove.
  assert (Forall (λ v, (key < v)%Z)
            (drop (firstIndex (hit true key) entries.*1) entries.*1))
    as Hstrict.
  { apply Forall_forall. intros v Hv.
    pose proof (proj1 (Forall_forall _ _) Habove v Hv) as Hle. cbn in Hle.
    assert (v ≠ key); [|lia]. intros ->. apply Hfresh.
    by apply (subseteq_drop (firstIndex (hit true key) entries.*1)). }
  rewrite <- (take_drop (firstIndex (hit true key) entries.*1) entries.*1)
    in Hs.
  apply StronglySorted_app in Hs as (Hcross & Htake & Hdrop).
  apply StronglySorted_app_2; [|done|by constructor].
  intros x1 x2 Hx1 Hx2.
  pose proof (proj1 (Forall_forall _ _) Hbelow x1 Hx1) as H1. cbn in H1.
  apply elem_of_cons in Hx2 as [->|Hx2]; [done|].
  pose proof (proj1 (Forall_forall _ _) Hstrict x2 Hx2) as H2. cbn in H2. lia.
Qed.

Lemma sorted_insert_middle before entries after key rid :
  StronglySorted Z.lt (before ++ entries ++ after).*1 →
  Forall (λ e, (e.1 < key)%Z) before →
  Forall (λ e, (key ≤ e.1)%Z) after →
  key ∉ (before ++ entries ++ after).*1 →
  StronglySorted Z.lt (before ++ placed key rid entries ++ after).*1.
Proof.
  intros Hs Hbefore Hafter Hfresh. rewrite !fmap_app in *.
  rewrite !not_elem_of_app in Hfresh. destruct Hfresh as (_ & Hfe & Hfa).
  apply StronglySorted_app in Hs as (Hcross & Hb & Hs).
  apply StronglySorted_app in Hs as (Hcross2 & He & Ha).
  assert (∀ x, x ∈ (placed key rid entries).*1 → x = key ∨ x ∈ entries.*1)
    as Hplaced.
  { intros x. rewrite placed_Permutation, fmap_cons. apply elem_of_cons. }
  apply StronglySorted_app_2; [|done|apply StronglySorted_app_2];
    [| |by apply placed_sorted|done].
  - intros x1 x2 Hx1 Hx2. apply elem_of_app in Hx2 as [Hx2|Hx2].
    + destruct (Hplaced _ Hx2) as [->|Hin].
      * apply list_elem_of_fmap in Hx1 as (a & -> & Ha1).
        apply (proj1 (Forall_forall _ _) Hbefore a Ha1).
      * apply Hcross; [done|]. apply elem_of_app. by left.
    + apply Hcross; [done|]. apply elem_of_app. by right.
  - intros x1 x2 Hx1 Hx2. destruct (Hplaced _ Hx1) as [->|Hin].
    + assert (x2 ≠ key) by (by intros ->).
      apply list_elem_of_fmap in Hx2 as (a & -> & Ha2).
      pose proof (proj1 (Forall_forall _ _) Hafter a Ha2) as Hle.
      cbn in Hle. lia.
    + by apply Hcross2.
Qed.

Lemma firstKeys_sorted leaves :
  Forall (λ l, l ≠ []) leaves →
  StronglySorted Z.lt (concat leaves).*1 →
  StronglySorted Z.lt (firstKey <$> leaves).
Proof.
  induction leaves as [|l leaves IH]; [constructor|]. intros Hne Hs.
  apply Forall_cons in Hne as [Hl Hne]. cbn [concat] in Hs.
  rewrite fmap_app in Hs. apply StronglySorted_app in Hs as (Hcross & _ & Hs).
  rewrite fmap_cons. constructor; [by apply IH|].
  rewrite Forall_fmap. apply Forall_forall. intros l' Hl'. cbn.
  apply Hcross; [by apply firstKey_elem|].
  pose proof (proj1 (Forall_forall _ _) Hne l' Hl') as Hl'ne. cbn in Hl'ne.
  destruct l' as [|e' l']; [done|].
  apply (list_elem_of_fmap_2 fst _ e'), (elem_of_concat _ (e' :: l')); [left|done].
Qed.

(** *** The separators after an insertion *)

Lemma separators_replace before entries entries' after :
  (before ≠ [] → firstKey entries' = firstKey entries) →
  separators (before ++ entries' :: after)
  = separators (before ++ entries :: after).
Proof.
  intros Hfirst. unfold separators.
  destruct before as [|b before]; cbn [app fmap list_fmap drop]; [done|].
  rewrite !drop_0, !fmap_app, !fmap_cons. by rewrite Hfirst.
Qed.

Lemma separators_split before entries left right after :
  (before ≠ [] → firstKey left = firstKey entries) →
  separators (before ++ left :: right :: after)
  = insertAt (length before) (firstKey right)
      (separators (before ++ entries :: after)).
Proof.
  intros Hfirst. unfold separators.
  destruct before as [|b before]; cbn [app fmap list_fmap drop length].
  - by rewrite !drop_0, insertAt_0.
  - rewrite !drop_0, !fmap_app, !fmap_cons. rewrite Hfirst by done.
    rewrite (cons_middle (firstKey entries) _ (firstKey <$> after)), app_assoc.
    replace (S (length before))
      with (length ((firstKey <$> before) ++ [firstKey entries]) + 0)
      by (rewrite length_app, length_fmap; cbn; lia).
    rewrite insertAt_app_r, insertAt_0. by rewrite <- app_assoc.
Qed.

Lemma separators_position before left right after :
  Forall (λ l, l ≠ []) (before ++ left :: right :: after) →
  StronglySorted Z.lt (concat (before ++ left :: right :: after)).*1 →
  ∀ keys,
    separators (before ++ left :: right :: after)
    = insertAt (length before) (firstKey right) keys →
    length before ≤ length keys →
    firstIndex (hit true (firstKey right)) keys = length before.
Proof.
  intros Hne Hs keys Hkeys Hlen.
  pose proof (firstKeys_sorted _ Hne Hs) as Hsorted.
  assert (StronglySorted Z.lt (separators (before ++ left :: right :: after)))
    as Hseps.
  { unfold separators.
    rewrite <- (take_drop 1 (firstKey <$> _)) in Hsorted.
    by apply StronglySorted_app_1_r in Hsorted. }
  rewrite Hkeys in Hseps. unfold insertAt in Hseps.
  apply StronglySorted_app in Hseps as (Hcross & _ & Hbehind).
  apply StronglySorted_cons in Hbehind as [Hbehind _].
  apply firstIndex_unique; [done| |].
  - intros j Hj. apply hit_true_false. apply Hcross; [|left].
    rewrite <- (lookup_total_take_lt _ (length before)) by done.
    apply list_elem_of_lookup_total_2. rewrite length_take. lia.
  - intros Hin. apply hit_true_true.
    rewrite <- (Nat.add_0_r (length before)), <- lookup_total_drop.
    assert (firstKey right < drop (length before) keys !!! 0%nat)%Z; [|lia].
    apply (proj1 (Forall_forall _ _) Hbehind).
    apply list_elem_of_lookup_total_2. rewrite length_drop. lia.
Qed.

(** *** The halves of a leaf *)

Lemma placed_head e rest key rid :
  (e.1 < key)%Z → placed key rid (e :: rest) = e :: placed key rid rest.
Proof.
  intros He. unfold placed, insertAt. rewrite fmap_cons. cbn [firstIndex].
  apply hit_true_false in He. by rewrite He.
Qed.

Lemma leafHalves_concat key rid entries :
  concat (leafHalves key rid entries) = placed key rid entries.
Proof.
  unfold leafHalves. case_decide; cbn [concat]; rewrite app_nil_r; [done|].
  apply take_drop.
Qed.

Lemma leafHalves_length key rid entries :
  1 ≤ length (leafHalves key rid entries) ≤ 2.
Proof. unfold leafHalves. case_decide; cbn; lia. Qed.

Lemma leafHalves_cut (entries : list (Z * RecordId)) key :
  3 ≤ INTARRAYLEAFSIZE →
  let index := firstIndex (hit true key) entries.*1 in
  let middleIndex := INTARRAYLEAFSIZE / 2 in
  let cut := if decide (index < middleIndex)
             then middleIndex + 2 else middleIndex in
  1 ≤ cut ≤ INTARRAYLEAFSIZE.
Proof.
  intros HL index middleIndex cut.
  pose proof (Nat.Div0.mul_div_le INTARRAYLEAFSIZE 2).
  pose proof (Nat.mul_succ_div_gt INTARRAYLEAFSIZE 2).
  subst cut middleIndex. case_decide; lia.
Qed.

Lemma leafHalves_fit key rid entries :
  3 ≤ INTARRAYLEAFSIZE →
  length entries ≤ INTARRAYLEAFSIZE →
  Forall (λ e, page_number e.2 ≠ 0) entries →
  page_number rid ≠ 0 →
  Forall (λ l, l ≠ []
               ∧ length l ≤ INTARRAYLEAFSIZE
               ∧ Forall (λ e, page_number e.2 ≠ 0) l)
    (leafHalves key rid entries).
Proof.
  intros HL Hlen Hocc Hrid.
  pose proof (placed_occupied key rid entries Hrid Hocc) as Hplaced.
  pose proof (placed_length key rid entries) as Hall.
  unfold leafHalves. case_decide as Hroom.
  - repeat constructor; [|lia|done].
    intros Hnil. rewrite Hnil in Hall. cbn in Hall. lia.
  - pose proof (leafHalves_cut entries key HL) as Hcut. cbv zeta in Hcut.
    repeat constructor.
    + intros Hnil. apply (f_equal length) in Hnil.
      rewrite length_take in Hnil. cbn in Hnil. lia.
    + rewrite length_take. lia.
    + by apply Forall_take.
    + intros Hnil. apply (f_equal length) in Hnil.
      rewrite length_drop in Hnil. cbn in Hnil. lia.
    + rewrite length_drop. lia.
    + by apply Forall_drop.
Qed.

Lemma leafHalves_first key rid e rest :
  3 ≤ INTARRAYLEAFSIZE →
  (e.1 < key)%Z →
  firstKey (leafHalves key rid (e :: rest) !!! 0) = e.1.
Proof.
  intros HL He. unfold leafHalves.
  pose proof (leafHalves_cut (e :: rest) key HL) as Hcut. cbv zeta in Hcut.
  rewrite placed_head by done.
  destruct (decide (length (e :: rest) < INTARRAYLEAFSIZE)); [done|].
  match goal with
  | |- context [take ?c _] => destruct c as [|cut]; [lia|]
  end.
  done.
Qed.

(** *** The pages of the leaves *)

Lemma leafRun_length pages0 children leaves last :
  leafRun pages0 children leaves last → length children = length leaves.
Proof.
  revert leaves. induction children as [|p children IH];
    intros [|l leaves]; cbn; try done.
  intros [_ Hrun]. f_equal. by apply IH.
Qed.

Lemma leafRun_frame pages0 pages1 children leaves last :
  (∀ p, p ∈ children → pages1 !! p = pages0 !! p) →
  leafRun pages0 children leaves last → leafRun pages1 children leaves last.
Proof.
  revert leaves. induction children as [|p children IH];
    intros [|l leaves] Hsame; cbn; try done.
  intros [Hp Hrun]. split.
  - rewrite Hsame; [done|left].
  - apply IH; [|done]. intros q Hq. apply Hsame. by right.
Qed.

Lemma leafRun_in_use pages0 children leaves last p :
  leafRun pages0 children leaves last → p ∈ children →
  ∃ node, pages0 !! p = Some (LeafPage node).
Proof.
  revert leaves. induction children as [|q children IH];
    intros [|l leaves]; cbn; try done.
  - intros _ Hp. by apply elem_of_nil in Hp.
  - intros [Hq Hrun] Hp. apply elem_of_cons in Hp as [->|Hp]; [eauto|].
    by eapply IH.
Qed.

Lemma leafRun_split pages0 children before entries after last :
  leafRun pages0 children (before ++ entries :: after) last →
  ∃ ca p cb,
    children = ca ++ p :: cb ∧ length ca = length before
    ∧ leafRun pages0 ca before p
    ∧ pages0 !! p = Some (LeafPage (leafOf entries (hd last cb)))
    ∧ leafRun pages0 cb after last.
Proof.
  revert children. induction before as [|l before IH];
    intros [|p0 children]; cbn; try done.
  - intros [Hp Hrun]. by exists [], p0, children.
  - intros [Hp0 Hrun].
    destruct (IH _ Hrun) as (ca & p & cb & -> & Hlen & Hca & Hp & Hcb).
    exists (p0 :: ca), p, cb. cbn. split_and!; [done|by f_equal| |done..].
    by destruct ca.
Qed.

Lemma leafRun_join pages0 ca before cb after last :
  length ca = length before →
  leafRun pages0 ca before (hd last cb) →
  leafRun pages0 cb after last →
  leafRun pages0 (ca ++ cb) (before ++ after) last.
Proof.
  revert before. induction ca as [|p0 ca IH]; intros [|l before]; cbn;
    try done.
  intros Hlen [Hp0 Hca] Hcb. split; [|apply IH; [lia|done..]].
  by destruct ca.
Qed.

Lemma leafRun_chain pages0 children leaves :
  leafRun pages0 children leaves 0 →
  leafChainIs pages0 (hd 0 children) leaves.
Proof.
  revert leaves. induction children as [|p children IH];
    intros [|l leaves]; cbn; try done.
  intros [Hp Hrun]. exists (hd 0 children). split; [done|]. by apply IH.
Qed.

End SmallTreeLists.

(** ** Trees of height at most two: insertion *)

Section SmallTreeInsert.
Context {cap : NodeCapacity}.

Lemma fetch_Some bm pid page :
  pages bm !! pid = Some page → fetch bm pid = page.
Proof. intros Hp. unfold fetch. by rewrite Hp. Qed.

Lemma fetch_LeafPage bm pid node :
  fetch bm pid = LeafPage node → pages bm !! pid = Some (LeafPage node).
Proof.
  unfold fetch. destruct (pages bm !! pid) as [page|]; cbn; [|done].
  by intros ->.
Qed.

Lemma consistent_pin pid bm : consistent bm → consistent (pin pid bm).
Proof. done. Qed.

Lemma occupied_not_empty (entries : list (Z * RecordId)) :
  Forall (λ e, page_number e.2 ≠ 0) entries →
  Forall (λ e, e.2 ≠ emptyRid) entries.
Proof.
  intros Hocc. eapply Forall_impl; [done|]. intros e He Heq. cbn in He.
  apply He. by rewrite Heq.
Qed.

(** [insertHelper] on a non-leaf page whose child reported no split. *)
Lemma insertHelper_non_leaf_pass fuel bm bm1 pid keys children key rid midVal
    childMid :
  faults bm = [] →
  fetch bm pid = NonLeafPage (nonLeafOf keys children) →
  length children = S (length keys) →
  length keys ≤ INTARRAYNONLEAFSIZE →
  Forall (λ c, c ≠ 0) (drop 1 children) →
  insertHelper fuel (children !!! firstIndex (hit true key) keys) key rid 0
    (pin pid bm)
  = (Ok (0, childMid), bm1) →
  insertHelper (S fuel) pid key rid midVal bm = (Ok (0, midVal), unpin pid bm1).
Proof.
  intros Hf Hpage Hlen Hkeys Hocc Hrec.
  destruct (nonLeafOf_search keys children key Hlen Hkeys Hocc)
    as (_ & Hidx & Hlookup & [child Hchild]).
  rewrite Hchild in Hlookup.
  rewrite (list_lookup_total_correct _ _ _ Hchild) in Hrec.
  rewrite <- (list_lookup_total_correct _ _ _ Hlookup) in Hrec.
  cbn [insertHelper]. unfold getPageByPid, setNode, unPinPage, deref. munfold.
  rewrite readPage_reliable by done. rewrite Hpage.
  cbn [isLeaf getNonLeafNodeFromPage]. cbv beta iota.
  rewrite Hrec. cbv beta iota. by rewrite decide_True.
Qed.

Ltac pages_simpl :=
  repeat (progress (unfold store, pin, unpin, withNewPage; cbn [pages])).

(** The insertion below a non-leaf root whose children are leaves. *)
Lemma twoLevel_insertHelper fuel bm root ca p cb before entries after key rid :
  let leaves := before ++ entries :: after in
  let leaves' := before ++ leafHalves key rid entries ++ after in
  3 ≤ INTARRAYLEAFSIZE →
  faults bm = [] → consistent bm →
  NoDup (root :: ca ++ p :: cb) →
  pages bm !! root
  = Some (NonLeafPage (nonLeafOf (separators leaves) (ca ++ p :: cb))) →
  length ca = length before →
  leafRun (pages bm) ca before p →
  pages bm !! p = Some (LeafPage (leafOf entries (hd 0 cb))) →
  leafRun (pages bm) cb after 0 →
  length before = firstIndex (hit true key) (separators leaves) →
  length entries ≤ INTARRAYLEAFSIZE →
  Forall (λ e, page_number e.2 ≠ 0) entries →
  (before ≠ [] → ∃ e rest, entries = e :: rest ∧ (e.1 < key)%Z) →
  Forall (λ l, l ≠ []) leaves' →
  StronglySorted Z.lt (concat leaves').*1 →
  length leaves' ≤ S INTARRAYNONLEAFSIZE →
  ∃ bm' children',
    insertHelper (S (S fuel)) root key rid 0 bm = (Ok (0, 0%Z), bm')
    ∧ faults bm' = []
    ∧ NoDup (root :: children')
    ∧ pages bm' !! root
      = Some (NonLeafPage (nonLeafOf (separators leaves') children'))
    ∧ leafRun (pages bm') children' leaves' 0.
Proof.
  intros leaves leaves' HL Hf Hcons Hnd Hroot Hlenca Hca Hp Hcb Hc Hlen Hocc
    Hhead Hne' Hs' Hfit.
  pose proof (leafRun_length _ _ _ _ Hcb) as Hlencb.
  assert (length (separators leaves) = length before + length after)
    as Hlenseps.
  { subst leaves. rewrite separators_length, length_app. cbn. lia. }
  assert (length (ca ++ p :: cb) = S (length (separators leaves))) as Hlenc.
  { rewrite length_app. cbn. lia. }
  assert (length leaves'
          = length before + length (leafHalves key rid entries)
            + length after) as Hlen'.
  { subst leaves'. rewrite !length_app. lia. }
  pose proof (leafHalves_length key rid entries) as Hhalves.
  assert (∀ q, q ∈ root :: ca ++ p :: cb → 0 < q < numPages bm) as Huse.
  { intros q Hq. apply consistent_in_use; [done|].
    apply elem_of_cons in Hq as [->|Hq].
    - by rewrite (fetch_Some _ _ _ Hroot).
    - assert (∃ node, pages bm !! q = Some (LeafPage node)) as [node Hnode].
      { apply elem_of_app in Hq as [Hq|Hq];
          [exact (leafRun_in_use _ _ _ _ _ Hca Hq)|].
        apply elem_of_cons in Hq as [->|Hq]; [eauto|].
        exact (leafRun_in_use _ _ _ _ _ Hcb Hq). }
      by rewrite (fetch_Some _ _ _ Hnode). }
  assert (Forall (λ c, c ≠ 0) (drop 1 (ca ++ p :: cb))) as Hnz.
  { apply Forall_forall. intros q Hq.
    assert (q ∈ root :: ca ++ p :: cb) as Hq'
      by (right; by eapply subseteq_drop).
    specialize (Huse q Hq'). lia. }
  assert ((ca ++ p :: cb) !!! firstIndex (hit true key) (separators leaves)
          = p) as Hchild.
  { rewrite <- Hc, <- Hlenca. by apply list_lookup_total_middle. }
  pose proof Hnd as Hnd'.
  apply NoDup_cons in Hnd' as [Hrootfresh Hndc].
  apply NoDup_app in Hndc as (_ & Hcap & Hndp).
  apply NoDup_cons in Hndp as [Hpcb _].
  assert (root ≠ p) as Hrp.
  { intros ->. apply Hrootfresh, elem_of_app. right. left. }
  assert (∀ q, q ∈ ca → q ≠ p ∧ q ≠ root) as Hcafresh.
  { intros q Hq. split.
    - intros ->. apply (Hcap p Hq). left.
    - intros ->. apply Hrootfresh, elem_of_app. by left. }
  assert (∀ q, q ∈ cb → q ≠ p ∧ q ≠ root) as Hcbfresh.
  { intros q Hq. split.
    - by intros ->.
    - intros ->. apply Hrootfresh, elem_of_app. right. by right. }
  assert (fetch (pin root bm) p = LeafPage (leafOf entries (hd 0 cb)))
    as Hfetch by (rewrite fetch_pin; by apply fetch_Some).
  destruct (decide (length entries < INTARRAYLEAFSIZE)) as [Hroom|Hfull].
  - assert (leafHalves key rid entries = [placed key rid entries]) as Hh
      by (unfold leafHalves; by rewrite decide_True).
    subst leaves'. rewrite Hh in *. cbn [app] in *.
    pose proof (insertHelper_leaf_room fuel (pin root bm) p entries (hd 0 cb)
                  key rid 0 Hf Hfetch Hroom (occupied_not_empty _ Hocc))
      as Hchildrun.
    eexists _, (ca ++ p :: cb). split_and!.
    + eapply insertHelper_non_leaf_pass;
        [done | by apply fetch_Some | done | lia | done |].
      rewrite Hchild. exact Hchildrun.
    + done.
    + done.
    + pages_simpl. rewrite lookup_insert_ne by done. rewrite Hroot.
      do 3 f_equal. symmetry. apply separators_replace. intros Hb.
      destruct (Hhead Hb) as (e & rest & -> & He). by rewrite placed_head.
    + pages_simpl. apply (leafRun_join _ ca before (p :: cb)); [done| |].
      * eapply leafRun_frame; [|exact Hca]. intros q Hq.
        apply lookup_insert_ne. by destruct (Hcafresh q Hq) as [? _].
      * cbn [leafRun]. split; [by rewrite lookup_insert_eq|].
        eapply leafRun_frame; [|exact Hcb]. intros q Hq.
        apply lookup_insert_ne. by destruct (Hcbfresh q Hq) as [? _].
  - assert (length entries = INTARRAYLEAFSIZE) as Hfull' by lia.
    destruct (insertHelper_leaf_split fuel (pin root bm) p entries (hd 0 cb)
                key rid 0 HL Hf (consistent_pin _ _ Hcons) Hfetch Hfull'
                (occupied_not_empty _ Hocc))
      as (_ & _ & _ & _ & _ & _ & bm1 & Hrun & Hl & Hr & Hnum & Hframe).
    assert (faults bm1 = []) as Hf1.
    { pose proof (insertHelper_keeps_reliable (S fuel) p key rid 0
                    (pin root bm) Hf) as Hkeep. by rewrite Hrun in Hkeep. }
    rewrite numPages_pin in Hrun, Hl, Hr, Hnum, Hframe.
    change (pages (pin root bm)) with (pages bm) in Hframe.
    unfold leafHalves in leaves', Hlen', Hhalves.
    rewrite decide_False in Hlen', Hhalves by done.
    subst leaves'. rewrite decide_False in Hne', Hs', Hfit |- * by done.
    cbv zeta in *. cbn [app length] in *.
    set (left := take _ (placed key rid entries)) in *.
    set (right := drop _ (placed key rid entries)) in *.
    assert (numPages bm ∉ root :: ca ++ p :: cb) as Hnew.
    { intros Hin. specialize (Huse _ Hin). lia. }
    assert (fetch bm1 root
            = NonLeafPage (nonLeafOf (separators leaves) (ca ++ p :: cb)))
      as Hroot1.
    { unfold fetch. rewrite Hframe; [by rewrite Hroot|done|].
      intros ->. apply Hnew. left. }
    assert (separators (before ++ left :: right :: after)
            = insertAt (length before) (firstKey right) (separators leaves))
      as Hseps.
    { apply separators_split. intros Hb.
      destruct (Hhead Hb) as (e & rest & -> & He).
      pose proof (leafHalves_first key rid e rest HL He) as Hfirst.
      unfold leafHalves in Hfirst. by rewrite decide_False in Hfirst. }
    pose proof (separators_position before left right after Hne' Hs' _ Hseps
                  ltac:(lia)) as Hindex.
    rewrite <- Hchild in Hrun at 1.
    assert (length (separators leaves) < INTARRAYNONLEAFSIZE) as Hkeysroom.
    { rewrite length_app in Hfit. cbn [length] in Hfit. lia. }
    destruct (insertHelper_non_leaf_room (S fuel) bm bm1 root
                (separators leaves) (ca ++ p :: cb) key rid 0 (numPages bm)
                (right.*1 !!! 0) Hf (fetch_Some _ _ _ Hroot) Hlenc
                Hkeysroom Hnz Hrun) as [Hrootrun _].
    { specialize (Huse root ltac:(left)). lia. }
    { done. }
    cbv zeta in Hrootrun. fold (firstKey right) in Hrootrun.
    rewrite Hindex in Hrootrun.
    assert (insertAt (S (length before)) (numPages bm) (ca ++ p :: cb)
            = ca ++ p :: numPages bm :: cb) as Hchildren.
    { rewrite (cons_middle p ca cb), app_assoc.
      replace (S (length before)) with (length (ca ++ [p]) + 0)
        by (rewrite length_app; cbn; lia).
      rewrite insertAt_app_r, insertAt_0. by rewrite <- app_assoc. }
    rewrite Hchildren in Hrootrun.
    eexists _, (ca ++ p :: numPages bm :: cb). split_and!.
    + exact Hrootrun.
    + by autorewrite with bufmgr.
    + apply NoDup_cons. split.
      * intros Hin. apply Hrootfresh.
        apply elem_of_app in Hin as [Hin|Hin]; apply elem_of_app; [by left|].
        right. apply elem_of_cons in Hin as [->|Hin]; [left|].
        apply elem_of_cons in Hin as [->|Hin]; [|by right].
        exfalso. apply Hnew. left.
      * assert (ca ++ p :: numPages bm :: cb
                ≡ₚ numPages bm :: ca ++ p :: cb) as ->.
        { rewrite (cons_middle p ca), (cons_middle p ca cb), !app_assoc.
          by rewrite <- Permutation_middle. }
        apply NoDup_cons. split; [|by apply NoDup_cons in Hnd as [_ ?]].
        intros Hin. apply Hnew. by right.
    + pages_simpl. rewrite lookup_insert_eq. by rewrite Hseps.
    + pages_simpl.
      assert (∀ q, q ∈ ca ++ cb →
                   <[root := NonLeafPage
                        (nonLeafOf
                           (insertAt (length before) (firstKey right)
                              (separators leaves))
                           (ca ++ p :: numPages bm :: cb))]> (pages bm1) !! q
                   = pages bm !! q) as Hsame.
      { intros q Hq.
        assert (q ≠ p ∧ q ≠ root) as [Hqp Hqr]
          by (apply elem_of_app in Hq as [Hq|Hq]; auto).
        rewrite lookup_insert_ne by done. apply Hframe; [done|].
        intros ->. apply Hnew. right.
        apply elem_of_app in Hq as [Hq|Hq]; apply elem_of_app;
          [by left | right; by right]. }
      apply (leafRun_join _ ca before (p :: numPages bm :: cb)); [done| |].
      * eapply leafRun_frame; [|exact Hca]. intros q Hq.
        apply Hsame, elem_of_app. by left.
      * cbn [leafRun hd]. split_and!.
        -- rewrite lookup_insert_ne by done. by apply fetch_LeafPage.
        -- rewrite lookup_insert_ne by (intros ->; apply Hnew; left).
           by apply fetch_LeafPage.
        -- eapply leafRun_frame; [|exact Hcb]. intros q Hq.
           apply Hsame, elem_of_app. by right.
Qed.

Lemma insertEntry_no_split fuel key rid s bm' mid :
  insertHelper fuel (Meta.rootPageNo (indexMetaInfo s)) key rid 0 (bufMgr s)
  = (Ok (0, mid), bm') →
  insertEntry fuel key rid s = (Ok tt, set_bufMgr bm' s).
Proof.
  intros Hrun. unfold insertEntry. munfold. rewrite Hrun.
  by rewrite decide_True.
Qed.

Lemma smallTree_single entries s :
  smallTree [entries] s
  ↔ faults (bufMgr s) = [] ∧ consistent (bufMgr s)
    ∧ length entries ≤ INTARRAYLEAFSIZE
    ∧ Forall (λ e, page_number e.2 ≠ 0) entries
    ∧ StronglySorted Z.lt entries.*1
    ∧ pages (bufMgr s) !! Meta.rootPageNo (indexMetaInfo s)
      = Some (LeafPage (leafOf entries 0)).
Proof.
  unfold smallTree. cbn [concat]. rewrite app_nil_r, Forall_singleton.
  cbv zeta. tauto.
Qed.

Lemma smallTree_two_level leaves s :
  2 ≤ length leaves →
  smallTree leaves s
  ↔ faults (bufMgr s) = [] ∧ consistent (bufMgr s)
    ∧ Forall (λ entries, length entries ≤ INTARRAYLEAFSIZE
                         ∧ Forall (λ e, page_number e.2 ≠ 0) entries) leaves
    ∧ StronglySorted Z.lt (concat leaves).*1
    ∧ Forall (λ entries, entries ≠ []) leaves
    ∧ length leaves ≤ S INTARRAYNONLEAFSIZE
    ∧ ∃ children,
        NoDup (Meta.rootPageNo (indexMetaInfo s) :: children)
        ∧ pages (bufMgr s) !! Meta.rootPageNo (indexMetaInfo s)
          = Some (NonLeafPage (nonLeafOf (separators leaves) children))
        ∧ leafRun (pages (bufMgr s)) children leaves 0.
Proof.
  destruct leaves as [|l1 [|l2 leaves]]; cbn [length]; [lia..|]. intros _.
  unfold smallTree. cbv zeta. tauto.
Qed.

Lemma smallTree_not_nil s : ¬ smallTree [] s.
Proof. unfold smallTree. cbv zeta. tauto. Qed.

Lemma Forall_fit_halves before key rid entries after :
  3 ≤ INTARRAYLEAFSIZE →
  page_number rid ≠ 0 →
  Forall (λ entries, length entries ≤ INTARRAYLEAFSIZE
                     ∧ Forall (λ e, page_number e.2 ≠ 0) entries)
    (before ++ entries :: after) →
  Forall (λ entries, length entries ≤ INTARRAYLEAFSIZE
                     ∧ Forall (λ e, page_number e.2 ≠ 0) entries)
    (before ++ leafHalves key rid entries ++ after)
  ∧ (Forall (λ l, l ≠ []) (before ++ after) →
     Forall (λ l, l ≠ []) (before ++ leafHalves key rid entries ++ after)).
Proof.
  intros HL Hrid. rewrite !Forall_app, Forall_cons.
  intros (Hb & [Hlen Hocc] & Ha).
  pose proof (leafHalves_fit key rid entries HL Hlen Hocc Hrid) as Hfit.
  split_and!; [done| |done|].
  - eapply Forall_impl; [done|]. by intros l (_ & ? & ?).
  - intros [? ?]. split_and!; [done| |done].
    eapply Forall_impl; [done|]. by intros l (? & _).
Qed.

(** The insertion into a full leaf that is the root. *)
Lemma smallTree_root_split fuel s entries key rid :
  3 ≤ INTARRAYLEAFSIZE → 1 ≤ INTARRAYNONLEAFSIZE →
  smallTree [entries] s →
  length entries = INTARRAYLEAFSIZE →
  key ∉ entries.*1 → page_number rid ≠ 0 →
  ∃ s', insertEntry (S fuel) key rid s = (Ok tt, s')
        ∧ smallTree (leafHalves key rid entries) s'.
Proof.
  intros HL HN Hs Hfull Hfresh Hrid.
  pose proof (insertEntry_consistent (S fuel) key rid s) as Hcons'.
  apply smallTree_single in Hs as (Hf & Hcons & Hlen & Hocc & Hsorted & Hroot).
  specialize (Hcons' Hcons).
  set (root := Meta.rootPageNo (indexMetaInfo s)) in *.
  pose proof (leafHalves_fit key rid entries HL Hlen Hocc Hrid) as Hfit.
  pose proof (leafHalves_concat key rid entries) as Hconcat.
  destruct (insertHelper_leaf_split fuel (bufMgr s) root entries 0 key rid 0
              HL Hf Hcons (fetch_Some _ _ _ Hroot) Hfull
              (occupied_not_empty _ Hocc))
    as (_ & _ & _ & _ & _ & _ & bm1 & Hrun & Hl & Hr & Hnum & Hframe).
  assert (faults bm1 = []) as Hf1.
  { pose proof (insertHelper_keeps_reliable (S fuel) root key rid 0
                  (bufMgr s) Hf) as Hkeep. by rewrite Hrun in Hkeep. }
  unfold leafHalves in Hfit, Hconcat |- *.
  rewrite decide_False in Hfit, Hconcat |- * by lia.
  cbv zeta in *.
  set (left := take _ (placed key rid entries)) in *.
  set (right := drop _ (placed key rid entries)) in *.
  assert (0 < root < numPages (bufMgr s)) as Hrootuse.
  { apply consistent_in_use; [done|]. by rewrite (fetch_Some _ _ _ Hroot). }
  assert (NonLeaf.mk
            (<[0 := firstKey right]> (NonLeaf.keyArray newNonLeafNodeInt))
            (<[1 := numPages (bufMgr s)]>
               (<[0 := root]> (NonLeaf.pageNoArray newNonLeafNodeInt)))
          = nonLeafOf [firstKey right] [root; numPages (bufMgr s)]) as Hnode.
  { unfold nonLeafOf, newNonLeafNodeInt.
    cbn [NonLeaf.keyArray NonLeaf.pageNoArray length].
    destruct INTARRAYNONLEAFSIZE as [|n]; [lia|].
    cbn. by rewrite Nat.sub_0_r. }
  assert (insertEntry (S fuel) key rid s
          = (Ok tt,
             set_rootPageNo (numPages bm1)
               (set_bufMgr
                  (unpin (numPages bm1)
                     (store (numPages bm1)
                        (NonLeafPage
                           (nonLeafOf [firstKey right]
                              [root; numPages (bufMgr s)]))
                        (pin (numPages bm1)
                           (mkBufMgr (<[numPages bm1 := BlankPage]> (pages bm1))
                              (S (numPages bm1)) (pinCnt bm1) (faults bm1)))))
                  s))) as Hinsert.
  { unfold insertEntry, setNode, unPinPage. munfold. fold root.
    rewrite Hrun. cbv beta iota. rewrite decide_False by lia.
    rewrite allocPage_reliable by done. cbv beta iota zeta.
    cbn [bufMgr set_bufMgr NonLeaf.keyArray NonLeaf.pageNoArray].
    fold (firstKey right). by rewrite Hnode. }
  rewrite Hinsert in Hcons' |- *. eexists. split; [done|].
  apply smallTree_two_level; [cbn; lia|].
  cbn [bufMgr set_rootPageNo set_bufMgr set_indexMetaInfo indexMetaInfo
         Meta.rootPageNo concat] in Hcons' |- *.
  cbn [concat] in Hconcat. rewrite app_nil_r in Hconcat |- *.
  split_and!.
  - by autorewrite with bufmgr.
  - done.
  - eapply Forall_impl; [done|]. by intros l (_ & ? & ?).
  - rewrite Hconcat. by apply placed_sorted.
  - eapply Forall_impl; [done|]. by intros l (? & _).
  - cbn. lia.
  - exists [root; numPages (bufMgr s)]. rewrite Hnum. split_and!.
    + repeat (apply NoDup_cons; split); [| | |apply NoDup_nil_2].
      * rewrite !elem_of_cons, elem_of_nil. lia.
      * rewrite !elem_of_cons, elem_of_nil. lia.
      * rewrite elem_of_nil. tauto.
    + pages_simpl. by rewrite lookup_insert_eq.
    + pages_simpl. cbn [leafRun hd]. split_and!; [| |done].
      * rewrite !lookup_insert_ne by lia. by apply fetch_LeafPage.
      * rewrite !lookup_insert_ne by lia. by apply fetch_LeafPage.
Qed.

(** One insertion into a tree of height at most two that needs no split
    of a non-leaf. *)
Lemma smallTree_insert fuel s leaves key rid :
  3 ≤ INTARRAYLEAFSIZE → 1 ≤ INTARRAYNONLEAFSIZE →
  smallTree leaves s →
  key ∉ (concat leaves).*1 → page_number rid ≠ 0 →
  length (treeInsert leaves key rid) ≤ S INTARRAYNONLEAFSIZE →
  ∃ s', insertEntry (S (S fuel)) key rid s = (Ok tt, s')
        ∧ smallTree (treeInsert leaves key rid) s'.
Proof.
  intros HL HN Hs Hfresh Hrid Hfit.
  assert (leaves ≠ []) as Hne by (intros ->; by apply smallTree_not_nil in Hs).
  destruct (route_decompose leaves key Hne)
    as (before & entries & after & -> & Hc).
  rewrite treeInsert_decomposed in Hfit |- * by done.
  destruct (decide (before = [] ∧ after = [])) as [[-> ->]|Hmore].
  - cbn [app] in *. rewrite app_nil_r in Hfit |- *.
    destruct (decide (length entries < INTARRAYLEAFSIZE)) as [Hroom|Hfull].
    + pose proof (insertEntry_consistent (S (S fuel)) key rid s) as Hcons'.
      apply smallTree_single in Hs
        as (Hf & Hcons & Hlen & Hocc & Hsorted & Hroot).
      specialize (Hcons' Hcons).
      assert (0 < Meta.rootPageNo (indexMetaInfo s) < numPages (bufMgr s))
        as Hrootuse.
      { apply consistent_in_use; [done|].
        by rewrite (fetch_Some _ _ _ Hroot). }
      destruct (insertEntry_leaf_root (S fuel) s
                  (Meta.rootPageNo (indexMetaInfo s)) entries key rid)
        as (s' & Hrun & Hrooteq & Hf' & _ & Hroot');
        [ split_and!; [done | done | by apply consistent_zero_free | done]
        | lia | done | by apply occupied_not_empty | ].
      rewrite Hrun in Hcons' |- *. exists s'. split; [done|].
      unfold leafHalves. rewrite decide_True by done.
      apply smallTree_single. split_and!; [done | done | | | | ].
      * rewrite placed_length. lia.
      * by apply placed_occupied.
      * cbn [concat] in Hfresh. rewrite app_nil_r in Hfresh.
        by apply placed_sorted.
      * by rewrite Hrooteq.
    + cbn [concat] in Hfresh. rewrite app_nil_r in Hfresh.
      pose proof Hs as Hs0.
      apply smallTree_single in Hs0 as (_ & _ & Hlen & _).
      destruct (smallTree_root_split (S fuel) s entries key rid)
        as (s' & Hrun & Hs'); [done..|lia|done|done|]. by exists s'.
  - assert (2 ≤ length (before ++ entries :: after)) as Htwo.
    { rewrite length_app. cbn [length].
      destruct before as [|b before]; [|cbn; lia].
      destruct after as [|a after]; [|cbn; lia]. by destruct Hmore. }
    pose proof (insertEntry_consistent (S (S fuel)) key rid s) as Hcons'.
    apply smallTree_two_level in Hs
      as (Hf & Hcons & Hbounds & Hsorted & Hnonempty & Hcount & children
          & Hnd & Hroot & Hrun); [|done].
    specialize (Hcons' Hcons).
    destruct (leafRun_split _ _ _ _ _ _ Hrun)
      as (ca & p & cb & -> & Hlenca & Hca & Hp & Hcb).
    destruct (route_bounds before entries after key Hc)
      as (Hbelow & Habove & Hhead & _); [by apply Forall_drop | done |].
    destruct (Forall_fit_halves before key rid entries after HL Hrid Hbounds)
      as [Hbounds' Hnonempty'].
    assert (Forall (λ l, l ≠ [])
              (before ++ leafHalves key rid entries ++ after)) as Hne'.
    { apply Hnonempty'. rewrite Forall_app, Forall_cons in Hnonempty.
      rewrite Forall_app. tauto. }
    rewrite concat_app in Hsorted, Hfresh. cbn [concat] in Hsorted, Hfresh.
    assert (StronglySorted Z.lt
              (concat (before ++ leafHalves key rid entries ++ after)).*1)
      as Hsorted'.
    { rewrite !concat_app, leafHalves_concat.
      by apply sorted_insert_middle. }
    rewrite Forall_app, Forall_cons in Hbounds.
    destruct Hbounds as (_ & [Hlen Hocc] & _).
    destruct (twoLevel_insertHelper fuel (bufMgr s)
                (Meta.rootPageNo (indexMetaInfo s)) ca p cb before entries
                after key rid HL Hf Hcons Hnd Hroot Hlenca Hca Hp Hcb Hc Hlen
                Hocc Hhead Hne' Hsorted' Hfit)
      as (bm' & children' & Hhelper & Hf' & Hnd' & Hroot' & Hrun').
    pose proof (insertEntry_no_split _ _ _ _ _ _ Hhelper) as Hinsert.
    rewrite Hinsert in Hcons' |- *. eexists. split; [done|].
    apply smallTree_two_level.
    { pose proof (leafHalves_length key rid entries).
      rewrite length_app in Htwo. rewrite !length_app.
      cbn [length] in Htwo. lia. }
    split_and!; [done..|]. by exists children'.
Qed.

End SmallTreeInsert.

(** ** Trees of height at most two: scans and the round trip *)

Section SmallTreeScan.
Context {cap : NodeCapacity}.

Lemma hit_below incl key v : (v < key)%Z → hit incl key v = false.
Proof. intros Hv. unfold hit. destruct incl; lia. Qed.

Lemma drop_firstIndex_app test (l1 l2 : list (Z * RecordId)) :
  Forall (λ e, test e.1 = true) l2 →
  drop (firstIndex test (l1 ++ l2).*1) (l1 ++ l2)
  = drop (firstIndex test l1.*1) l1 ++ l2.
Proof.
  intros Hall. induction l1 as [|e l1 IH]; cbn [app].
  - destruct Hall as [|e l2 He Hall]; [done|].
    rewrite fmap_cons. cbn [firstIndex]. by rewrite He.
  - rewrite !fmap_cons. cbn [firstIndex]. by destruct (test e.1).
Qed.

Lemma smallTree_scan fuel s out leaves lv lo hv ho :
  0 < INTARRAYLEAFSIZE →
  lo = GT ∨ lo = GTE → ho = LT ∨ ho = LTE → (lv ≤ hv)%Z →
  smallTree leaves s →
  (lo = GT → lv ∉ separators leaves) →
  ∃ s', startScan (S (S fuel)) lv lo hv ho s = (Ok tt, s')
        ∧ ∀ k, S (length (concat leaves)) < k →
               (scanAll k (s', out)).1
               = Ok (filter (λ e, inRange lv lo hv ho e.1) (concat leaves)).*2.
Proof.
  intros HL Hlo Hho Hrange Hs Hgt.
  assert (leaves ≠ []) as Hne by (intros ->; by apply smallTree_not_nil in Hs).
  destruct (route_decompose leaves lv Hne)
    as (before & entries & after & -> & Hc).
  destruct (decide (before = [] ∧ after = [])) as [[-> ->]|Hmore].
  - cbn [app concat] in *. rewrite app_nil_r.
    apply smallTree_single in Hs
      as (Hf & Hcons & Hlen & Hocc & Hsorted & Hroot).
    apply (scanAll_leaf_root (S fuel) s out lv lo hv ho entries
             (Meta.rootPageNo (indexMetaInfo s))); [done..| | done | done |].
    + split_and!; [done | done | by apply consistent_zero_free | done].
    + by apply nonDecreasing_StronglySorted, sorted_lt_le.
  - assert (2 ≤ length (before ++ entries :: after)) as Htwo.
    { rewrite length_app. cbn [length].
      destruct before as [|b before]; [|cbn; lia].
      destruct after as [|a after]; [|cbn; lia]. by destruct Hmore. }
    apply smallTree_two_level in Hs
      as (Hf & Hcons & Hbounds & Hsorted & Hnonempty & Hcount & children
          & Hnd & Hroot & Hrun); [|done].
    destruct (leafRun_split _ _ _ _ _ _ Hrun)
      as (ca & p & cb & -> & Hlenca & Hca & Hp & Hcb).
    destruct (route_bounds before entries after lv Hc)
      as (Hbelow & Habove & _ & Hstrict); [by apply Forall_drop | done |].
    pose proof (leafRun_length _ _ _ _ Hcb) as Hlencb.
    assert (length (separators (before ++ entries :: after))
            = length before + length after) as Hlenseps.
    { rewrite separators_length, length_app. cbn. lia. }
    rewrite length_app in Hcount. cbn [length] in Hcount.
    rewrite Forall_app, Forall_cons in Hbounds, Hnonempty.
    destruct Hbounds as (_ & [Hlen Hocc] & Hboundsafter).
    destruct Hnonempty as (_ & _ & Hneafter).
    assert (∀ q, q ∈ ca ++ p :: cb → q ≠ 0) as Hnz.
    { intros q Hq.
      assert (∃ node, pages (bufMgr s) !! q = Some (LeafPage node))
        as [node Hnode].
      { apply elem_of_app in Hq as [Hq|Hq];
          [exact (leafRun_in_use _ _ _ _ _ Hca Hq)|].
        apply elem_of_cons in Hq as [->|Hq]; [eauto|].
        exact (leafRun_in_use _ _ _ _ _ Hcb Hq). }
      pose proof (consistent_in_use (bufMgr s) q Hcons) as Hin.
      rewrite (fetch_Some _ _ _ Hnode) in Hin. specialize (Hin ltac:(done)).
      lia. }
    destruct (scanAll_descends (S (S fuel)) 1 s out lv lo hv ho p entries
                after HL Hlo Hho Hrange Hf (consistent_zero_free _ Hcons))
      as (s' & Hstart & Hall).
    + apply (descends_child _ _ 0 _ (separators (before ++ entries :: after))
               (ca ++ p :: cb) p p); [done| | lia | | |].
      * rewrite length_app. cbn. lia.
      * apply Forall_forall. intros q Hq. apply Hnz.
        by eapply subseteq_drop.
      * rewrite <- Hc, <- Hlenca. by apply list_lookup_middle.
      * by eapply descends_leaf.
    + apply (leafRun_chain _ (p :: cb) (entries :: after)). by split.
    + done.
    + done.
    + apply Forall_forall. intros l Hl.
      pose proof (proj1 (Forall_forall _ _) Hboundsafter l Hl) as [? ?].
      pose proof (proj1 (Forall_forall _ _) Hneafter l Hl). by split_and!.
    + lia.
    + exists s'. split; [done|]. intros k Hk.
      rewrite concat_app in Hsorted, Hk |- *. cbn [concat] in Hsorted, Hk |- *.
      rewrite filter_app.
      rewrite (filter_none _ (concat before)), app_nil_l.
      2: { eapply Forall_impl; [exact Hbelow|]. intros e He. cbn in He.
           unfold inRange. rewrite (hit_below _ _ _ He). cbn. tauto. }
      rewrite fmap_app in Hsorted.
      apply StronglySorted_app_1_r, sorted_lt_le in Hsorted.
      rewrite <- (untilHigh_filter lv lo hv ho (entries ++ concat after))
        by done.
      rewrite drop_firstIndex_app.
      * apply Hall. rewrite !length_app in Hk. rewrite length_app, length_drop.
        lia.
      * destruct Hlo as [-> | ->].
        -- rewrite bool_decide_eq_false_2 by done.
           eapply Forall_impl; [exact (Hstrict (Hgt eq_refl))|].
           intros e He. cbn in He. unfold hit. lia.
        -- rewrite bool_decide_eq_true_2 by done.
           eapply Forall_impl; [exact Habove|].
           intros e He. cbn in He. by apply hit_true_true.
Qed.

End SmallTreeScan.

Section SmallTreeRoundTrip.
Context {cap : NodeCapacity}.

Lemma treeInsert_Permutation leaves key rid :
  leaves ≠ [] →
  concat (treeInsert leaves key rid) ≡ₚ (key, rid) :: concat leaves.
Proof.
  intros Hne.
  destruct (route_decompose leaves key Hne)
    as (before & entries & after & -> & Hc).
  rewrite treeInsert_decomposed by done.
  rewrite !concat_app, leafHalves_concat. cbn [concat].
  rewrite placed_Permutation. cbn [app]. by rewrite <- Permutation_middle.
Qed.

Lemma treeInsert_length leaves key rid :
  leaves ≠ [] → length leaves ≤ length (treeInsert leaves key rid).
Proof.
  intros Hne.
  destruct (route_decompose leaves key Hne)
    as (before & entries & after & -> & Hc).
  rewrite treeInsert_decomposed by done.
  pose proof (leafHalves_length key rid entries).
  rewrite !length_app. cbn [length]. lia.
Qed.

Lemma foldl_treeInsert new :
  ∀ leaves,
    leaves ≠ [] →
    let leaves' := foldl (λ leaves e, treeInsert leaves e.1 e.2) leaves new in
    length leaves ≤ length leaves'
    ∧ concat leaves' ≡ₚ concat leaves ++ new.
Proof.
  induction new as [|[key rid] new IH]; intros leaves Hne; cbn [foldl fst snd].
  - by rewrite app_nil_r.
  - pose proof (treeInsert_length leaves key rid Hne) as Hlen.
    assert (treeInsert leaves key rid ≠ []) as Hne'.
    { intros Hnil. rewrite Hnil in Hlen. destruct leaves; [done|].
      cbn in Hlen. lia. }
    destruct (IH _ Hne') as [Hlen' Hperm]. split; [lia|].
    rewrite Hperm, treeInsert_Permutation by done.
    by rewrite <- Permutation_middle.
Qed.

Lemma insertEntries_smallTree fuel new :
  3 ≤ INTARRAYLEAFSIZE → 1 ≤ INTARRAYNONLEAFSIZE →
  ∀ leaves s,
    smallTree leaves s →
    NoDup ((concat leaves).*1 ++ new.*1) →
    Forall (λ e, page_number e.2 ≠ 0) new →
    length (foldl (λ leaves e, treeInsert leaves e.1 e.2) leaves new)
    ≤ S INTARRAYNONLEAFSIZE →
    ∃ s', insertEntries (S (S fuel)) new s = (Ok tt, s')
          ∧ smallTree
              (foldl (λ leaves e, treeInsert leaves e.1 e.2) leaves new) s'.
Proof.
  intros HL HN. induction new as [|[key rid] new IH];
    intros leaves s Hs Hnd Hocc Hfit; cbn [foldl insertEntries fst snd] in *.
  - by exists s.
  - assert (leaves ≠ []) as Hne
      by (intros ->; by apply smallTree_not_nil in Hs).
    pose proof (treeInsert_length leaves key rid Hne) as Hlen.
    assert (treeInsert leaves key rid ≠ []) as Hne'.
    { intros Hnil. rewrite Hnil in Hlen. destruct leaves; [done|].
      cbn in Hlen. lia. }
    destruct (foldl_treeInsert new _ Hne') as [Hgrow _].
    apply Forall_cons in Hocc as [Hrid Hocc]. cbn in Hrid.
    rewrite fmap_cons in Hnd. cbn [fst] in Hnd.
    destruct (smallTree_insert fuel s leaves key rid HL HN Hs)
      as (s1 & Hrun & Hs1); [|done|lia|].
    { apply NoDup_app in Hnd as (_ & Hcross & _). intros Hin.
      apply (Hcross key Hin). left. }
    destruct (IH _ s1 Hs1) as (s' & Hrest & Hs'); [|done|done|].
    { rewrite treeInsert_Permutation by done. rewrite fmap_cons. cbn [fst].
      rewrite <- app_comm_cons. by rewrite Permutation_middle. }
    exists s'. split; [|done]. munfold. by rewrite Hrun.
Qed.

(** One insertion into a tree of height at most two.  When the key is not
    in the tree, the record id is not on page 0 and what the insertion
    makes of the leaves fits below one root (no non-leaf has to be split),
    [insertEntry] returns and the index is the tree over the leaves
    [treeInsert] describes: the new entry is in the leaf the descent
    reaches, that leaf is split in two when it was full, the root takes up
    the new leaf and its first key, a full root leaf gets a new root above
    it; the keys stay strictly increasing along the leaves and no entry is
    lost or added.  (Leaves hold at least 3 entries, non-leaves at least
    one key, and no buffer-manager failure is scheduled.) *)
Theorem small_tree_insert fuel s leaves key rid :
  3 ≤ INTARRAYLEAFSIZE → 1 ≤ INTARRAYNONLEAFSIZE →
  smallTree leaves s →
  key ∉ (concat leaves).*1 → page_number rid ≠ 0 →
  length (treeInsert leaves key rid) ≤ S INTARRAYNONLEAFSIZE →
  ∃ s', insertEntry (S (S fuel)) key rid s = (Ok tt, s')
        ∧ smallTree (treeInsert leaves key rid) s'
        ∧ concat (treeInsert leaves key rid) ≡ₚ (key, rid) :: concat leaves.
Proof.
  intros HL HN Hs Hfresh Hrid Hfit.
  destruct (smallTree_insert fuel s leaves key rid HL HN Hs Hfresh Hrid Hfit)
    as (s' & Hrun & Hs').
  exists s'. split_and!; [done..|]. apply treeInsert_Permutation.
  intros ->. by apply smallTree_not_nil in Hs.
Qed.

(** Insertion and scan on an index of height at most two.  The constructor
    builds the index over an empty relation; entries with distinct keys
    and record ids not on page 0 are inserted, so many that the root never
    has to be split; then a scan is run to its end.  The index is the tree
    over the leaves [grow new], which hold exactly the inserted entries in
    strictly increasing order of their keys, and the scan delivers the
    record ids of exactly the entries whose key is in the range, in that
    order.  For a GT scan the low value must not be one of the keys of the
    root.  (Leaves hold at least 3 entries, non-leaves at least one key,
    no buffer-manager failure is scheduled, and the page read for the
    sibling number 0 behind the last leaf is zero-filled.) *)
Theorem small_tree_round_trip fuel name bufMgrIn offset type raw new lv lo hv
    ho out :
  faults bufMgrIn = [] →
  3 ≤ INTARRAYLEAFSIZE → 1 ≤ INTARRAYNONLEAFSIZE →
  NoDup new.*1 →
  Forall (λ e, page_number e.2 ≠ 0) new →
  length (grow new) ≤ S INTARRAYNONLEAFSIZE →
  lo = GT ∨ lo = GTE → ho = LT ∨ ho = LTE → (lv ≤ hv)%Z →
  (lo = GT → lv ∉ separators (grow new)) →
  let stored := concat (grow new) in
  stored ≡ₚ new
  ∧ StronglySorted Z.lt stored.*1
  ∧ ∃ s0 s1 s2,
      BTreeIndex_new fuel name bufMgrIn offset type [] raw
      = (Ok (getIndexName name offset), s0)
      ∧ insertEntries (S (S fuel)) new s0 = (Ok tt, s1)
      ∧ smallTree (grow new) s1
      ∧ startScan (S (S fuel)) lv lo hv ho s1 = (Ok tt, s2)
      ∧ ∀ k, S (length new) < k →
             (scanAll k (s2, out)).1
             = Ok (filter (λ e, inRange lv lo hv ho e.1) stored).*2.
Proof.
  intros Hf HL HN Hnd Hocc Hfit Hlo Hho Hrange Hgt stored.
  destruct (foldl_treeInsert new [[]] ltac:(done)) as [_ Hperm].
  cbn [concat app] in Hperm. fold (grow new) in Hperm. fold stored in Hperm.
  destruct (BTreeIndex_new_empty fuel name bufMgrIn offset type raw Hf)
    as (s0 & Hnew & Hroot & Hpages & Hf0).
  assert (smallTree [[]] s0) as Hs0.
  { apply smallTree_single. split_and!; [done| |cbn; lia|done|constructor|].
    - pose proof (BTreeIndex_new_consistent fuel name bufMgrIn offset type []
                    raw) as Hcons. by rewrite Hnew in Hcons.
    - rewrite Hroot, Hpages, lookup_insert_eq. by rewrite leafOf_nil. }
  destruct (insertEntries_smallTree fuel new HL HN [[]] s0 Hs0)
    as (s1 & Hins & Hs1); [done..|].
  fold (grow new) in Hs1.
  destruct (smallTree_scan fuel s1 out (grow new) lv lo hv ho ltac:(lia)
              Hlo Hho Hrange Hs1 Hgt) as (s2 & Hstart & Hall).
  split; [done|]. split.
  - unfold smallTree in Hs1. cbv zeta in Hs1. tauto.
  - exists s0, s1, s2. split_and!; [done..|]. intros k Hk. apply Hall.
    fold stored. by rewrite Hperm.
Qed.

End SmallTreeRoundTrip.

(** ** The constructor over a relation *)

Section Constructor.
Context {cap : NodeCapacity}.

(** The loop over the relation is the sequence of the insertions of the
    keys read from its records. *)
Lemma bulkLoad_insertEntries fuel offset relation entries :
  Forall2 (λ rec e, readInt rec.2 offset = Some e.1 ∧ rec.1 = e.2)
    relation entries →
  bulkLoad fuel offset relation = insertEntries fuel entries.
Proof.
  induction 1 as [|[rid record] [key rid'] relation entries [Hkey Hrid] _ IH];
    [done|].
  cbn [fst snd] in Hkey, Hrid. subst rid'.
  cbn [bulkLoad insertEntries]. rewrite Hkey. cbn [defined].
  by rewrite <- IH.
Qed.

Lemma BTreeIndex_new_bulkLoad fuel name bufMgrIn offset type relation raw s0 :
  BTreeIndex_new fuel name bufMgrIn offset type [] raw
  = (Ok (getIndexName name offset), s0) →
  BTreeIndex_new fuel name bufMgrIn offset type relation raw
  = (bulkLoad fuel offset relation ;; mret (getIndexName name offset)) s0.
Proof.
  unfold BTreeIndex_new. cbn [bulkLoad]. munfold.
  repeat match goal with
         | |- context [match ?m ?s with _ => _ end] =>
             lazymatch m with
             | allocPage => destruct (m s) as [[?| | |] ?]; try done
             end
         end.
  by intros [= <-].
Qed.

(** The constructor over a relation builds the tree of its entries.  When
    no buffer-manager failure is scheduled, every record of the relation
    has four bytes at the attribute's offset, [entries] are the integers
    read there with the record ids, in the order of the relation, the keys
    are distinct, no record id is on page 0 and the entries fit below one
    root, the constructor returns the index name, and the index is the
    tree of height at most two over the leaves [grow entries]: they hold
    exactly the entries of the relation, in strictly increasing order of
    their keys.  (Leaves hold at least 3 entries and non-leaves at least
    one key.) *)
Theorem constructor_builds_tree fuel name bufMgrIn offset type relation
    entries raw :
  faults bufMgrIn = [] →
  3 ≤ INTARRAYLEAFSIZE → 1 ≤ INTARRAYNONLEAFSIZE →
  Forall2 (λ rec e, readInt rec.2 offset = Some e.1 ∧ rec.1 = e.2)
    relation entries →
  NoDup entries.*1 →
  Forall (λ e, page_number e.2 ≠ 0) entries →
  length (grow entries) ≤ S INTARRAYNONLEAFSIZE →
  ∃ s,
    BTreeIndex_new (S (S fuel)) name bufMgrIn offset type relation raw
    = (Ok (getIndexName name offset), s)
    ∧ smallTree (grow entries) s
    ∧ concat (grow entries) ≡ₚ entries
    ∧ StronglySorted Z.lt (concat (grow entries)).*1.
Proof.
  intros Hf HL HN Hrel Hnd Hocc Hfit.
  destruct (foldl_treeInsert entries [[]] ltac:(done)) as [_ Hperm].
  cbn [concat app] in Hperm. fold (grow entries) in Hperm.
  destruct (BTreeIndex_new_empty (S (S fuel)) name bufMgrIn offset type raw Hf)
    as (s0 & Hnew & Hroot & Hpages & Hf0).
  assert (smallTree [[]] s0) as Hs0.
  { apply smallTree_single. split_and!; [done| |cbn; lia|done|constructor|].
    - pose proof (BTreeIndex_new_consistent (S (S fuel)) name bufMgrIn offset
                    type [] raw) as Hcons. by rewrite Hnew in Hcons.
    - rewrite Hroot, Hpages, lookup_insert_eq. by rewrite leafOf_nil. }
  destruct (insertEntries_smallTree fuel entries HL HN [[]] s0 Hs0)
    as (s1 & Hins & Hs1); [done..|].
  fold (grow entries) in Hs1.
  exists s1. split_and!; [|done|done|].
  - rewrite (BTreeIndex_new_bulkLoad _ _ _ _ _ _ _ s0 Hnew).
    rewrite (bulkLoad_insertEntries _ _ _ entries Hrel). munfold.
    by rewrite Hins.
  - unfold smallTree in Hs1. cbv zeta in Hs1. tauto.
Qed.

End Constructor.

(** ** A failed allocation during a leaf split *)

Section SplitFailure.
Context {cap : NodeCapacity}.

Lemma readPage_passes pid bm rest :
  faults bm = false :: rest →
  readPage pid bm
  = (Ok (fetch bm pid),
     pin pid (mkBufMgr (pages bm) (numPages bm) (pinCnt bm) rest)).
Proof. intros Hf. unfold readPage, mayFail. munfold. by rewrite Hf. Qed.

Lemma createPageForNode_fails node bm rest :
  faults bm = true :: rest →
  createPageForNode node bm
  = (Throw BufMgrException,
     mkBufMgr (pages bm) (numPages bm) (pinCnt bm) rest).
Proof.
  intros Hf. unfold createPageForNode, allocPage, mayFail. munfold.
  by rewrite Hf.
Qed.

(** A failed allocation in the middle of a leaf split.  When the buffer
    manager reads the full leaf but then fails to allocate the page of
    the new leaf, [insertHelper] throws.  The leaf has been cut down to
    the left half before the allocation, so the entries of the right half
    (with the new entry, when it belongs there) are in no page; the leaf
    keeps its right sibling and stays pinned, and no other page changes. *)
Theorem leaf_split_alloc_failure fuel bm pid entries sib key rid midVal rest :
  3 ≤ INTARRAYLEAFSIZE →
  faults bm = false :: true :: rest →
  fetch bm pid = LeafPage (leafOf entries sib) →
  length entries = INTARRAYLEAFSIZE →
  Forall (λ e, e.2 ≠ emptyRid) entries →
  let index := firstIndex (hit true key) entries.*1 in
  let middleIndex := INTARRAYLEAFSIZE / 2 in
  let cut := if decide (index < middleIndex)
             then middleIndex + 2 else middleIndex in
  let left := take cut (placed key rid entries) in
  let right := drop cut (placed key rid entries) in
  right ≠ []
  ∧ ∃ bm',
      insertHelper (S fuel) pid key rid midVal bm
      = (Throw BufMgrException, bm')
      ∧ fetch bm' pid = LeafPage (leafOf left sib)
      ∧ pinned bm' pid = S (pinned bm pid)
      ∧ numPages bm' = numPages bm
      ∧ faults bm' = rest
      ∧ ∀ p, p ≠ pid → pages bm' !! p = pages bm !! p.
Proof.
  intros HL Hf Hpage Hlen Hocc index middleIndex cut left right.
  assert (1 ≤ middleIndex ∧ middleIndex + 2 ≤ INTARRAYLEAFSIZE) as [Hm1 Hm2].
  { subst middleIndex.
    pose proof (Nat.Div0.mul_div_le INTARRAYLEAFSIZE 2).
    pose proof (Nat.mul_succ_div_gt INTARRAYLEAFSIZE 2). lia. }
  pose proof (firstIndex_le (hit true key) entries.*1) as Hidx.
  rewrite length_fmap in Hidx. fold index in Hidx.
  assert (length (placed key rid entries) = S INTARRAYLEAFSIZE) as Hall
    by (unfold placed; by rewrite length_insertAt, Hlen).
  assert (length right = S INTARRAYLEAFSIZE - cut ∧ 1 ≤ cut ≤ INTARRAYLEAFSIZE)
    as (Hright & Hcut).
  { subst right. rewrite length_drop, Hall. subst cut. case_decide; lia. }
  split; [intros Hnil; rewrite Hnil in Hright; cbn in Hright; lia|].
  cbn [insertHelper]. unfold getPageByPid. munfold.
  rewrite (readPage_passes pid bm (true :: rest)) by done. rewrite Hpage.
  cbn [isLeaf].
  unfold insertToLeafPage, getPageByPid, setNode, unPinPage. munfold.
  cbn [getLeafNodeFromPage]. cbv beta iota.
  rewrite isLeafNodeFull_leafOf by (lia || done).
  rewrite bool_decide_eq_true_2 by lia. cbn [negb].
  destruct (leafOf_search entries sib key true ltac:(lia) Hocc)
    as (_ & -> & _).
  fold index middleIndex.
  rewrite splitLeafNode_leafOf
    by (unfold Nat.b2n; try case_bool_decide; lia).
  cbv beta iota.
  assert ((if bool_decide (index < middleIndex)
           then (insertToLeafNode
                   (leafOf (take (middleIndex
                                  + Nat.b2n (bool_decide (index < middleIndex)))
                              entries) sib) index key rid,
                 leafOf (drop (middleIndex
                               + Nat.b2n (bool_decide (index < middleIndex)))
                           entries) 0)
           else (leafOf (take (middleIndex
                               + Nat.b2n (bool_decide (index < middleIndex)))
                           entries) sib,
                 insertToLeafNode
                   (leafOf (drop (middleIndex
                                  + Nat.b2n (bool_decide (index < middleIndex)))
                              entries) 0) (index - middleIndex) key rid))
          = (leafOf left sib, leafOf right 0)) as ->.
  { subst left right cut. unfold placed. fold index.
    case_bool_decide as Hside; cbn [Nat.b2n].
    - rewrite decide_True by done.
      rewrite insertToLeafNode_leafOf by (rewrite ?length_take; lia).
      rewrite (take_ge (insertAt _ _ _))
        by (rewrite length_insertAt, length_take; lia).
      replace (middleIndex + 2) with (S (middleIndex + 1)) by lia.
      by rewrite take_insertAt_lt, drop_insertAt_lt by lia.
    - rewrite decide_False by done. rewrite Nat.add_0_r.
      rewrite insertToLeafNode_leafOf by (rewrite ?length_drop; lia).
      rewrite (take_ge (insertAt _ _ _))
        by (rewrite length_insertAt, length_drop; lia).
      by rewrite take_insertAt_ge, drop_insertAt_ge by lia. }
  cbv beta iota.
  rewrite (createPageForNode_fails _ _ rest) by done.
  eexists. split; [reflexivity|]. split_and!.
  - unfold fetch, store, pin. cbn [pages]. by rewrite lookup_insert_eq.
  - unfold pinned, store, pin. cbn [pinCnt]. by rewrite lookup_insert_eq.
  - done.
  - done.
  - intros p Hp. unfold store, pin. cbn [pages]. by rewrite lookup_insert_ne.
Qed.

End SplitFailure.

(** ** The fullness tests *)

Section Fullness.
Context {cap : NodeCapacity}.

(** The fullness tests look at the last slot only.  On a leaf that holds
    its entries in its first slots, [isLeafNodeFull] answers whether the
    number of entries is the capacity; on a non-leaf that holds its
    children in its first slots, [isNonLeafNodeFull] answers whether the
    number of children is one more than the capacity, whatever page
    number the first child has. *)
Theorem fullness_tests entries sib keys children :
  0 < INTARRAYLEAFSIZE → 0 < INTARRAYNONLEAFSIZE →
  length entries ≤ INTARRAYLEAFSIZE →
  Forall (λ e, e.2 ≠ emptyRid) entries →
  length children ≤ S INTARRAYNONLEAFSIZE →
  Forall (λ c, c ≠ 0) (drop 1 children) →
  (isLeafNodeFull (leafOf entries sib) = true
   ↔ length entries = INTARRAYLEAFSIZE)
  ∧ (isNonLeafNodeFull (nonLeafOf keys children) = true
     ↔ length children = S INTARRAYNONLEAFSIZE).
Proof.
  intros HL HN Hlen Hocc Hlenc Hnz.
  rewrite isLeafNodeFull_leafOf, isNonLeafNodeFull_nonLeafOf by done.
  rewrite !bool_decide_eq_true. tauto.
Qed.

End Fullness.

(** ** The properties on the scenarios *)

#[local] Existing Instance cap4.

Lemma twoLeaves4_chain :
  leafChainIs (pages (bufMgr twoLeaves4)) 1
    [take 2 fiveEntries; drop 2 fiveEntries].
Proof.
  exists 2. split; [vm_compute; reflexivity|].
  exists 0. split; [vm_compute; reflexivity|]. reflexivity.
Qed.

Lemma fiveEntries_scannable :
  Forall (scannable) [take 2 fiveEntries; drop 2 fiveEntries].
Proof.
  repeat constructor; try discriminate; cbn; lia.
Qed.

Lemma leaf_search_positions_witness :
  getLeafLen (leafOf fourEntries 0) = 4
  ∧ findInsertionIndexLeaf (leafOf fourEntries 0) 25 = 2
  ∧ findScanIndexLeaf (leafOf fourEntries 0) 40 false = None.
Proof.
  destruct (leaf_search_positions fourEntries 0 25 true)
    as (Hlen & Hins & _); [cbn; lia | repeat constructor; discriminate|].
  destruct (leaf_search_positions fourEntries 0 40 false)
    as (_ & _ & Hscan); [cbn; lia | repeat constructor; discriminate|].
  split_and!; [exact Hlen | exact Hins | exact Hscan].
Defined.

Lemma non_leaf_search_position_witness :
  findIndexNonLeaf (nonLeafOf [30; 60]%Z [1; 2; 4]) 30 = 0
  ∧ NonLeaf.pageNoArray (nonLeafOf [30; 60]%Z [1; 2; 4])
      !! findIndexNonLeaf (nonLeafOf [30; 60]%Z [1; 2; 4]) 30
    = Some 1.
Proof.
  destruct (non_leaf_search_position [30; 60]%Z [1; 2; 4] 30)
    as (_ & Hindex & Hchild & _);
    [reflexivity | cbn; lia | repeat constructor; discriminate|].
  split; [exact Hindex | exact Hchild].
Defined.

Lemma leaf_insert_in_place_witness :
  insertHelper 1 1 7 (mkRecordId 1 1) 0 (bufMgr oneEntry4)
  = (Ok (0, 0%Z),
     unpin 1
       (store 1
          (LeafPage
             (leafOf
                [(7%Z, mkRecordId 1 1); (42%Z, mkRecordId 5 7)] 0))
          (pin 1 (bufMgr oneEntry4)))).
Proof.
  destruct (leaf_insert_in_place 0 (bufMgr oneEntry4) 1
              [(42%Z, mkRecordId 5 7)] 0 7 (mkRecordId 1 1) 0) as [Hrun _];
    [ vm_compute; reflexivity | vm_compute; reflexivity | cbn; lia
    | repeat constructor; discriminate | ].
  exact Hrun.
Defined.

Lemma leaf_insert_split_witness :
  ∃ bm',
    insertHelper 1 1 5 (mkRecordId 1 5) 0 (bufMgr fullLeaf4)
    = (Ok (2, 40%Z), bm')
    ∧ fetch bm' 1
      = LeafPage (leafOf
                    ((5%Z, mkRecordId 1 5) :: take 3 fourEntries) 2)
    ∧ fetch bm' 2 = LeafPage (leafOf (drop 3 fourEntries) 0).
Proof.
  destruct (leaf_insert_split 0 (bufMgr fullLeaf4) 1 fourEntries
              0 5 (mkRecordId 1 5) 0)
    as (_ & _ & _ & _ & _ & _ & bm' & Hrun & Hleft & Hright & _);
    [ cbn; lia | vm_compute; reflexivity | apply fullLeaf4_consistent
    | vm_compute; reflexivity | reflexivity
    | repeat constructor; discriminate | ].
  exists bm'. split_and!; [exact Hrun | exact Hleft | exact Hright].
Defined.

Lemma insertEntry_releases_pins_witness :
  pinned
    (bufMgr (insertEntry 1 25 (mkRecordId 1 5) fullLeaf4).2) 1
  = pinned (bufMgr fullLeaf4) 1
  ∧ pinned
      (bufMgr (insertEntry 1 25 (mkRecordId 1 5) fullLeaf4).2) 3
    = pinned (bufMgr fullLeaf4) 3.
Proof.
  split;
    apply (insertEntry_releases_pins 1 25 (mkRecordId 1 5)
             fullLeaf4);
    vm_compute; reflexivity.
Defined.

Lemma startScan_adds_one_pin_witness :
  pinned (bufMgr oneEntryScan4) 1 = 1
  ∧ pinned
      (bufMgr (startScan 1 0 GTE 100 LTE oneEntryScan4).2) 1
    = 2.
Proof.
  destruct (startScan_adds_one_pin 1 0 GTE 100 LTE
              oneEntryScan4
              (startScan 1 0 GTE 100 LTE oneEntryScan4).2)
    as (Hpins & _); [vm_compute; reflexivity|].
  split; [vm_compute; reflexivity|].
  rewrite (Hpins 1). vm_compute. reflexivity.
Defined.

Lemma scan_session_releases_pins_witness :
  pinned
    (bufMgr
       (calls 1
          [CallStartScan 0 GTE 100 LTE; CallScanNext; CallScanNext;
           CallEndScan]
          (oneEntry4, emptyRid)).2.1) 1
  = pinned (bufMgr oneEntry4) 1.
Proof.
  apply (scan_session_releases_pins 1 0 GTE 100 LTE 2 oneEntry4
           emptyRid).
  - vm_compute. reflexivity.
  - vm_compute. repeat (constructor; [first [by left | by right]|]).
    constructor.
Defined.

Lemma scan_delivers_chain_witness :
  (scanAll 5
     ((startScan 2 20 GTE 40 LTE twoLeaves4).2, emptyRid)).1
  = Ok [mkRecordId 1 2; mkRecordId 1 3; mkRecordId 1 4].
Proof.
  apply (scan_delivers_chain (pages (bufMgr twoLeaves4)) 40 LTE
           5 [drop 2 fiveEntries] 1 (take 2 fiveEntries) 1).
  - vm_compute. reflexivity.
  - vm_compute. by split_and!.
  - apply twoLeaves4_chain.
  - apply fiveEntries_scannable.
  - cbn. lia.
  - cbn. lia.
Defined.

Lemma scan_from_descent_witness :
  ∃ s', startScan 2 30 GT 100 LTE twoLeaves4 = (Ok tt, s')
        ∧ (scanAll 5 (s', emptyRid)).1
          = Ok [mkRecordId 1 3; mkRecordId 1 4; mkRecordId 1 5].
Proof.
  destruct (scan_from_descent 2 1 twoLeaves4 emptyRid 30 GT 100
              LTE 1 (take 2 fiveEntries) [drop 2 fiveEntries])
    as (s' & Hstart & Hall).
  - cbn. lia.
  - by left.
  - by right.
  - lia.
  - vm_compute. reflexivity.
  - vm_compute. reflexivity.
  - apply (descends_child _ _ 0 3 [30%Z] [1; 2] 1 1);
      [ vm_compute; reflexivity | reflexivity | cbn; lia
      | repeat constructor; discriminate | reflexivity | ].
    apply (descends_leaf _ _ 1 (leafOf (take 2 fiveEntries) 2)).
    vm_compute. reflexivity.
  - apply twoLeaves4_chain.
  - cbn. lia.
  - repeat constructor; discriminate.
  - eapply Forall_inv_tail, fiveEntries_scannable.
  - lia.
  - exists s'. split; [exact Hstart|]. apply (Hall 5). vm_compute. lia.
Defined.

Lemma insert_then_scan_witness :
  ∃ s0 s1 s2,
    BTreeIndex_new 1 "rel" reliableBufMgr 0 INTEGER [] rawIndex
    = (Ok (getIndexName "rel" 0), s0)
    ∧ insertEntries 2 threeEntries s0 = (Ok tt, s1)
    ∧ startScan 2 15 GTE 30 LT s1 = (Ok tt, s2)
    ∧ (scanAll 5 (s2, emptyRid)).1 = Ok [mkRecordId 1 3].
Proof.
  destruct (insert_then_scan 1 "rel" reliableBufMgr 0 INTEGER
              rawIndex threeEntries 15 GTE 30 LT emptyRid)
    as (_ & _ & s0 & s1 & s2 & Hnew & Hins & Hstart & Hall);
    [ reflexivity | cbn; lia | cbn; lia | repeat constructor; discriminate
    | by right | by left | lia | ].
  exists s0, s1, s2. split_and!; [done..|]. apply (Hall 5). vm_compute. lia.
Defined.

Lemma insert_behind_scan_repeats_witness :
  ∃ s1 s2 s3,
    scanNext (threeInLeafScan4, emptyRid)
    = (Ok tt, (s1, mkRecordId 1 1))
    ∧ insertEntry 1 5 (mkRecordId 1 9) s1 = (Ok tt, s2)
    ∧ scanNext (s2, mkRecordId 1 1)
      = (Ok tt, (s3, mkRecordId 1 1)).
Proof.
  destruct (insert_behind_scan_repeats 0 5 (mkRecordId 1 9)
              threeInLeafScan4) as [_ Hrepeat].
  apply (Hrepeat emptyRid 1 (take 3 fourEntries) 0 10%Z (mkRecordId 1 1)
           100%Z LTE).
  - vm_compute. by split_and!.
  - discriminate.
  - vm_compute. by split_and!.
  - cbn. lia.
  - repeat constructor; discriminate.
  - discriminate.
  - reflexivity.
  - cbn. lia.
  - cbn. lia.
  - reflexivity.
Defined.

Lemma non_leaf_absorbs_split_witness :
  insertHelper 2 3 70 (mkRecordId 1 7) 0 (bufMgr fullChild4)
  = (Ok (0, 0%Z),
     unpin 3
       (store 3
          (NonLeafPage (nonLeafOf [30; 50]%Z [1; 2; 4]))
          (insertHelper 1 2 70 (mkRecordId 1 7) 0
             (pin 3 (bufMgr fullChild4))).2)).
Proof.
  destruct (non_leaf_absorbs_split 1 (bufMgr fullChild4)
              (insertHelper 1 2 70 (mkRecordId 1 7) 0
                 (pin 3 (bufMgr fullChild4))).2
              3 [30%Z] [1; 2] 70 (mkRecordId 1 7) 0 4 50) as [Hrun _];
    [ vm_compute; reflexivity | vm_compute; reflexivity | reflexivity
    | cbn; lia | repeat constructor; discriminate | vm_compute; reflexivity
    | discriminate | vm_compute; reflexivity | ].
  exact Hrun.
Defined.

Lemma non_leaf_split_sequences_witness :
  (∃ bm2 promoted leftKeys leftChildren rightKeys rightChildren,
     insertHelper 2 3 95 (mkRecordId 2 5) 0
       (bufMgr fullThirdChild4)
     = (Ok (8, promoted), bm2)
     ∧ fetch bm2 3
       = NonLeafPage (nonLeafOf leftKeys leftChildren)
     ∧ fetch bm2 8
       = NonLeafPage (nonLeafOf rightKeys rightChildren)
     ∧ leftKeys ++ promoted :: rightKeys = [30; 90; 100; 92; 110]%Z
     ∧ leftChildren ++ rightChildren = [1; 5; 6; 4; 7; 2])
  ∧ (∃ bm2 promoted leftKeys leftChildren rightKeys rightChildren,
       insertHelper 2 3 120 (mkRecordId 2 5) 0
         (bufMgr fullLastChild4)
       = (Ok (8, promoted), bm2)
       ∧ fetch bm2 3
         = NonLeafPage (nonLeafOf leftKeys leftChildren)
       ∧ fetch bm2 8
         = NonLeafPage (nonLeafOf rightKeys rightChildren)
       ∧ leftKeys ++ promoted :: rightKeys = [30; 90; 100; 110; 0; 112]%Z
       ∧ leftChildren ++ rightChildren = [1; 5; 6; 4; 2; 0; 7]).
Proof.
  split.
  - destruct (non_leaf_split_sequences 1 (bufMgr fullThirdChild4)
                (insertHelper 1 6 95 (mkRecordId 2 5) 0
                   (pin 3 (bufMgr fullThirdChild4))).2
                3 [30; 90; 100; 110]%Z [1; 5; 6; 4; 2] 95 (mkRecordId 2 5) 0
                7 92)
      as (bm2 & promoted & leftKeys & leftChildren & rightKeys
          & rightChildren & Hrun & Hleft & Hright & _ & _ & Hkeys
          & Hchildren);
      [ cbn; lia | vm_compute; reflexivity
      | apply (insertEntries_consistent), nineInserted4_consistent
      | vm_compute; reflexivity | reflexivity | reflexivity
      | repeat (constructor; [discriminate|]); constructor
      | vm_compute; reflexivity
      | discriminate | vm_compute; reflexivity | vm_compute; lia | ].
    exists bm2, promoted, leftKeys, leftChildren, rightKeys, rightChildren.
    split_and!; [|exact Hleft | exact Hright | exact Hkeys | exact Hchildren].
    rewrite Hrun. vm_compute. reflexivity.
  - destruct (non_leaf_split_sequences 1 (bufMgr fullLastChild4)
                (insertHelper 1 2 120 (mkRecordId 2 5) 0
                   (pin 3 (bufMgr fullLastChild4))).2
                3 [30; 90; 100; 110]%Z [1; 5; 6; 4; 2] 120 (mkRecordId 2 5) 0
                7 112)
      as (bm2 & promoted & leftKeys & leftChildren & rightKeys
          & rightChildren & Hrun & Hleft & Hright & _ & _ & Hkeys
          & Hchildren);
      [ cbn; lia | vm_compute; reflexivity
      | apply (insertEntries_consistent), nineInserted4_consistent
      | vm_compute; reflexivity | reflexivity | reflexivity
      | repeat (constructor; [discriminate|]); constructor
      | vm_compute; reflexivity
      | discriminate | vm_compute; reflexivity | vm_compute; lia | ].
    exists bm2, promoted, leftKeys, leftChildren, rightKeys, rightChildren.
    split_and!; [|exact Hleft | exact Hright | exact Hkeys | exact Hchildren].
    rewrite Hrun. vm_compute. reflexivity.
Defined.

Lemma constructor_builds_tree_witness :
  ∃ s,
    BTreeIndex_new 2 "rel" reliableBufMgr 0 INTEGER fiveRecords rawIndex
    = (Ok (getIndexName "rel" 0), s)
    ∧ smallTree (grow fiveEntries) s
    ∧ concat (grow fiveEntries) ≡ₚ fiveEntries
    ∧ StronglySorted Z.lt (concat (grow fiveEntries)).*1.
Proof.
  apply (constructor_builds_tree 0 "rel" reliableBufMgr 0 INTEGER fiveRecords
           fiveEntries rawIndex).
  - reflexivity.
  - cbn. lia.
  - cbn. lia.
  - repeat (constructor; [split; reflexivity|]). constructor.
  - apply (bool_decide_unpack _). vm_compute. exact I.
  - repeat (constructor; [discriminate|]). constructor.
  - vm_compute. lia.
Defined.

Lemma page_zero_rid_ends_leaf_witness :
  ∃ s',
    scanNext (pageZeroScan4, emptyRid)
    = (Ok tt, (s', mkRecordId 1 1))
    ∧ scanAt (pages (bufMgr pageZeroScan4)) 100 LTE 0 0 s'.
Proof.
  apply (page_zero_rid_ends_leaf (pages (bufMgr pageZeroScan4))
           100 LTE 1 0 pageZeroScan4 emptyRid
           (leafOf pageZeroEntries 0) 10 (mkRecordId 1 1)).
  - vm_compute. by split_and!.
  - vm_compute. reflexivity.
  - reflexivity.
  - reflexivity.
  - discriminate.
  - reflexivity.
  - reflexivity.
Defined.

Lemma fullChild4_smallTree :
  smallTree [take 2 fiveEntries; drop 2 fiveEntries ++ [(60%Z, mkRecordId 1 6)]]
    fullChild4.
Proof.
  unfold smallTree. cbv zeta. split_and!.
  - vm_compute. reflexivity.
  - apply (insertEntry_consistent (cap := cap4)),
      (insertEntries_consistent (cap := cap4)), freshIndex4_consistent.
  - repeat constructor; try discriminate; cbn; lia.
  - apply (bool_decide_unpack _). vm_compute. exact I.
  - repeat constructor; discriminate.
  - cbn. lia.
  - exists [1; 2]. split_and!.
    + apply (bool_decide_unpack _). vm_compute. exact I.
    + vm_compute. reflexivity.
    + split; [vm_compute; reflexivity|]. split; [vm_compute; reflexivity|].
      exact I.
Qed.

Lemma small_tree_insert_witness :
  ∃ s',
    insertEntry 2 70 (mkRecordId 1 7) fullChild4 = (Ok tt, s')
    ∧ smallTree
        [take 2 fiveEntries; take 2 (drop 2 fiveEntries);
         [(50%Z, mkRecordId 1 5); (60%Z, mkRecordId 1 6);
          (70%Z, mkRecordId 1 7)]]
        s'.
Proof.
  destruct (small_tree_insert 0 fullChild4
              [take 2 fiveEntries;
               drop 2 fiveEntries ++ [(60%Z, mkRecordId 1 6)]]
              70 (mkRecordId 1 7))
    as (s' & Hrun & Hs' & _).
  - cbn. lia.
  - cbn. lia.
  - apply fullChild4_smallTree.
  - apply (bool_decide_unpack _). vm_compute. exact I.
  - discriminate.
  - vm_compute. lia.
  - exists s'. split; [exact Hrun|]. exact Hs'.
Defined.

Lemma small_tree_round_trip_witness :
  ∃ s0 s1 s2,
    BTreeIndex_new 0 "rel" reliableBufMgr 0 INTEGER [] rawIndex
    = (Ok (getIndexName "rel" 0), s0)
    ∧ insertEntries 2 (take 9 elevenEntries) s0 = (Ok tt, s1)
    ∧ startScan 2 35 GT 95 LTE s1 = (Ok tt, s2)
    ∧ (scanAll 11 (s2, emptyRid)).1
      = Ok [mkRecordId 1 9; mkRecordId 1 7; mkRecordId 1 1; mkRecordId 1 8].
Proof.
  destruct (small_tree_round_trip 0 "rel" reliableBufMgr 0 INTEGER rawIndex
              (take 9 elevenEntries) 35 GT 95 LTE emptyRid)
    as (_ & _ & s0 & s1 & s2 & Hnew & Hins & _ & Hstart & Hall).
  - reflexivity.
  - cbn. lia.
  - cbn. lia.
  - apply (bool_decide_unpack _). vm_compute. exact I.
  - repeat constructor; discriminate.
  - vm_compute. lia.
  - by left.
  - by right.
  - lia.
  - intros _. apply (bool_decide_unpack _). vm_compute. exact I.
  - exists s0, s1, s2. split_and!; [exact Hnew | exact Hins | exact Hstart |].
    rewrite (Hall 11) by (vm_compute; lia). vm_compute. reflexivity.
Defined.

Lemma leaf_split_alloc_failure_witness :
  ∃ bm',
    insertHelper 1 1 25 (mkRecordId 1 5) 0 allocFails4
    = (Throw BufMgrException, bm')
    ∧ fetch bm' 1 = LeafPage (leafOf (take 2 fourEntries) 0)
    ∧ pinned bm' 1 = 1
    ∧ pages bm' !! 2 = None.
Proof.
  destruct (leaf_split_alloc_failure 0 allocFails4 1 fourEntries 0 25
              (mkRecordId 1 5) 0 [])
    as (_ & bm' & Hrun & Hleft & Hpin & _ & _ & Hframe);
    [ cbn; lia | reflexivity | vm_compute; reflexivity | reflexivity
    | repeat constructor; discriminate | ].
  exists bm'. split_and!; [exact Hrun | exact Hleft | |].
  - rewrite Hpin. vm_compute. reflexivity.
  - rewrite Hframe by discriminate. vm_compute. reflexivity.
Defined.

Lemma fullness_tests_witness :
  isLeafNodeFull (leafOf fourEntries 0) = true
  ∧ isLeafNodeFull (leafOf (take 3 fourEntries) 0) ≠ true
  ∧ isNonLeafNodeFull (nonLeafOf [30; 90; 100; 110]%Z [0; 5; 6; 4; 2]) = true.
Proof.
  destruct (fullness_tests fourEntries 0 [30; 90; 100; 110]%Z [0; 5; 6; 4; 2])
    as [Hleaf Hnode];
    [ cbn; lia | cbn; lia | cbn; lia | repeat constructor; discriminate
    | cbn; lia | repeat constructor; discriminate | ].
  destruct (fullness_tests (take 3 fourEntries) 0 [] [7]) as [Hroom _];
    [ cbn; lia | cbn; lia | cbn; lia | repeat constructor; discriminate
    | cbn; lia | repeat constructor; discriminate | ].
  split_and!.
  - apply Hleaf. reflexivity.
  - intros Hfull. apply Hroom in Hfull. discriminate Hfull.
  - apply Hnode. reflexivity.
Defined.
